(** * Plugin lifecycle manager (plugin/manager.go)

    A shallow embedding of [NewManager], [reload], [loadPlugin],
    [restorePlugin] and [StateChanged].

    Go code is written as a program over a signature of primitive
    operations ([Op]); a program is run against a [World] that holds the
    objects manager.go reads and writes (the [*v2.Plugin] records, the
    [*controller] records, the Controller table [cMap], the index of the
    Plugin Store, the closed channels) and the history of what it did.
    Calls that leave manager.go (os, ioutil, libcontainerd, mount,
    manager_linux.go, v2.Plugin methods) are recorded in that history with
    the reply they got; the reply is given by an [Env].  What such a call
    writes to the objects is code outside manager.go and is not part of
    the model. *)

From Stdlib Require Import ZArith String Ascii List.
From stdpp Require Import base option gmap strings list fin_maps sorting.

Open Scope string_scope.
Open Scope list_scope.

(** ** Errors, panics *)

(** [errors.New], [errors.Wrap] and [errors.Wrapf] of github.com/pkg/errors:
    a wrapped error remembers its cause. *)
Inductive error : Type :=
| errors_New (msg : string)
| errors_Wrap (cause : error) (msg : string).

Definition errors_Wrapf (cause : error) (format arg : string) : error :=
  errors_Wrap cause (format +:+ arg).

(** Run-time panics of Go that manager.go can raise. *)
Inductive panic : Type :=
| nil_pointer_dereference
| close_of_closed_channel.

Inductive outcome (A : Type) : Type :=
| Returned (a : A)
| Panicked (f : panic).
Arguments Returned {A} a.
Arguments Panicked {A} f.

(** ** Data model *)

(** api/types: the part of [types.Plugin] that manager.go reads. *)
Module types.
Record PluginInterfaceType : Type := {
  Capability : string;
  Prefix : string;
  Version : string
}.
Record PluginConfigInterface : Type := {
  Types : list PluginInterfaceType
}.
Record PluginConfig : Type := {
  Interface : PluginConfigInterface;
  PropagatedMount : string
}.
Record Plugin : Type := {
  ID : string;
  Name : string;
  Enabled : bool;
  Config : PluginConfig
}.
End types.

(** plugin/v2: [v2.Plugin] with the exported fields manager.go uses. *)
Module v2.
Record Plugin : Type := {
  PluginObj : types.Plugin;
  PropagatedMount : string;
  Rootfs : string
}.

(** The value of [var plugin v2.Plugin]. *)
Definition zero : Plugin :=
  {| PluginObj :=
       {| types.ID := ""; types.Name := ""; types.Enabled := false;
          types.Config :=
            {| types.Interface := {| types.Types := [] |};
               types.PropagatedMount := "" |} |};
     PropagatedMount := "";
     Rootfs := "" |}.

(** Modelled from the spec: the methods [GetID], [Name] and [IsEnabled] of
    [v2.Plugin] (plugin/v2 is not under src/): the identity, the human
    label and the persisted [Enabled] intent of the record. *)
Definition GetID (p : Plugin) : string := types.ID (PluginObj p).
Definition Name (p : Plugin) : string := types.Name (PluginObj p).
Definition IsEnabled (p : Plugin) : bool := types.Enabled (PluginObj p).

Definition with_Rootfs (s : string) (p : Plugin) : Plugin :=
  {| PluginObj := PluginObj p; PropagatedMount := PropagatedMount p; Rootfs := s |}.
Definition with_PropagatedMount (s : string) (p : Plugin) : Plugin :=
  {| PluginObj := PluginObj p; PropagatedMount := s; Rootfs := Rootfs p |}.
End v2.

Global Instance v2_Plugin_inhabited : Inhabited v2.Plugin := populate v2.zero.

(** Addresses of [*v2.Plugin] and [*controller] objects, and channels. *)
Abbreviation ptr := positive.
Abbreviation cptr := positive.
Abbreviation chan := positive.

(** [controller] represents the manager's control on a plugin; a nil
    [exitChan] is [None]. *)
Record controller : Type := {
  restart : bool;
  exitChan : option chan;
  timeoutInSecs : Z
}.

(** [&controller{}] *)
Definition controller_zero : controller :=
  {| restart := false; exitChan := None; timeoutInSecs := 0 |}.

Global Instance controller_inhabited : Inhabited controller := populate controller_zero.

(** The fields of [ManagerConfig] that are plain data; [Store] and
    [Executor] are handles to collaborators and live in the [World] and the
    [Env]. *)
Record ManagerConfig : Type := {
  LiveRestoreEnabled : bool;
  Root : string;
  ExecRoot : string
}.

(** libcontainerd: the states a [StateInfo] can carry; manager.go only
    tests for [StateExit]. *)
Inductive State : Type :=
| StateStart | StatePause | StateResume | StateExit
| StateRestart | StateRestore | StateStartProcess | StateExitProcess | StateOOM.

Record StateInfo : Type := {
  StateInfo_State : State;
  ExitCode : Z
}.

Definition configFileName : string := "config.json".

(** Modelled from the spec: [validFullID] (declared outside manager.go):
    the full-ID format is a fixed-length lowercase hex string of 64
    characters. *)
Definition is_lower_hex (c : ascii) : bool :=
  let n := nat_of_ascii c in
  (Nat.leb 48 n && Nat.leb n 57) || (Nat.leb 97 n && Nat.leb n 102).

Fixpoint all_lower_hex (s : string) : bool :=
  match s with
  | EmptyString => true
  | String c s' => is_lower_hex c && all_lower_hex s'
  end.

Definition validFullID (s : string) : bool :=
  Nat.eqb (String.length s) 64 && all_lower_hex s.

(** [strings.HasPrefix(s, prefix)] *)
Definition strings_HasPrefix (s pre : string) : bool := String.prefix pre s.

(** ** Threads, events, world *)

(** The goroutine that performs an operation: the caller of [NewManager] or
    [StateChanged], or the recovery task that [reload] starts for a record. *)
Inductive tid : Type :=
| Caller
| Recovery (p : ptr).

Inductive Level : Type := DebugLevel | WarnLevel | ErrorLevel.

Inductive LogArg : Type :=
| ArgStr (s : string)
| ArgErr (e : error)
| ArgState (e : StateInfo).

(** One entry per call that leaves manager.go, with the reply it got, and
    per write to a field of a record, which the Plugin Store shares. *)
Inductive Event : Type :=
| EvSetRootfs (p : ptr) (s : string)
| EvSetPropagatedMount (p : ptr) (s : string)
| EvMkdirAll (path : string) (perm : Z) (r : option error)
| EvReadDir (path : string) (r : error + list string)
| EvReadFile (path : string) (r : error + string)
| EvExecutorClient (r : option error)
| EvSetAll (plugins : gmap string ptr)
| EvUpdate (p : ptr)
| EvGetByID (id : string) (r : error + ptr)
| EvClose (ch : chan)
| EvRestore (p : ptr) (runRoot : string)
| EvRemoveFromDisk (p : ptr)
| EvPmRestore (p : ptr) (r : option error)
| EvPmEnable (p : ptr) (c : cptr) (force : bool) (r : option error)
| EvUnmount (path : string) (r : option error)
| EvWgAdd (n : nat)
| EvWgDone
| EvLog (lvl : Level) (format : string) (args : list LogArg).

Record World : Type := {
  plugin_objs : gmap ptr v2.Plugin;   (* the *v2.Plugin objects *)
  controllers : gmap cptr controller; (* the *controller objects *)
  Store_plugins : gmap string ptr;    (* config.Store: identity -> record *)
  cMap : gmap ptr cptr;               (* pm.cMap *)
  mu_readers : nat;                   (* pm.mu: read locks held *)
  closed : gset chan;                 (* channels that have been closed *)
  trace : list (tid * Event)
}.

Definition set_plugin_objs (f : gmap ptr v2.Plugin → gmap ptr v2.Plugin) (w : World) : World :=
  {| plugin_objs := f (plugin_objs w); controllers := controllers w;
     Store_plugins := Store_plugins w; cMap := cMap w;
     mu_readers := mu_readers w; closed := closed w; trace := trace w |}.
Definition set_controllers (f : gmap cptr controller → gmap cptr controller) (w : World) : World :=
  {| plugin_objs := plugin_objs w; controllers := f (controllers w);
     Store_plugins := Store_plugins w; cMap := cMap w;
     mu_readers := mu_readers w; closed := closed w; trace := trace w |}.
Definition set_Store_plugins (f : gmap string ptr → gmap string ptr) (w : World) : World :=
  {| plugin_objs := plugin_objs w; controllers := controllers w;
     Store_plugins := f (Store_plugins w); cMap := cMap w;
     mu_readers := mu_readers w; closed := closed w; trace := trace w |}.
Definition set_cMap (f : gmap ptr cptr → gmap ptr cptr) (w : World) : World :=
  {| plugin_objs := plugin_objs w; controllers := controllers w;
     Store_plugins := Store_plugins w; cMap := f (cMap w);
     mu_readers := mu_readers w; closed := closed w; trace := trace w |}.
Definition set_mu_readers (f : nat → nat) (w : World) : World :=
  {| plugin_objs := plugin_objs w; controllers := controllers w;
     Store_plugins := Store_plugins w; cMap := cMap w;
     mu_readers := f (mu_readers w); closed := closed w; trace := trace w |}.
Definition set_closed (f : gset chan → gset chan) (w : World) : World :=
  {| plugin_objs := plugin_objs w; controllers := controllers w;
     Store_plugins := Store_plugins w; cMap := cMap w;
     mu_readers := mu_readers w; closed := f (closed w); trace := trace w |}.
Definition record (t : tid) (evs : list Event) (w : World) : World :=
  match evs with
  | [] => w
  | _ =>
      {| plugin_objs := plugin_objs w; controllers := controllers w;
         Store_plugins := Store_plugins w; cMap := cMap w;
         mu_readers := mu_readers w; closed := closed w;
         trace := trace w ++ map (pair t) evs |}
  end.

(** The record behind a [*v2.Plugin]. *)
Definition deref (w : World) (p : ptr) : v2.Plugin := plugin_objs w !!! p.
Arguments deref w p /.

(** ** Collaborators

    What the world outside manager.go answers.  Reading the disk and
    decoding JSON depend on the path or the bytes only (the snapshot of the
    disk that [reload] scans); the other replies may depend on everything
    that happened so far. *)
Record Env : Type := {
  filepath_Join : list string → string;
  json_Unmarshal : string → error + v2.Plugin;
  reply_ReadDir : string → error + list string;
  reply_ReadFile : string → error + string;
  reply_MkdirAll : World → string → Z → option error;
  reply_Client : World → option error;
  reply_restore : World → ptr → option error;
  reply_enable : World → ptr → cptr → bool → option error;
  reply_Unmount : World → string → option error
}.

(** Modelled from the spec: the Plugin Store (plugin/store is not under
    src/) is an index of plugin objects by identity with a bulk replace, a
    single update and a lookup by identity.  It is handed [*v2.Plugin]
    pointers by [SetAll] and [Update] and hands pointers back from
    [GetByID]; [StateChanged] uses the pointer it gets as a key of [cMap],
    whose keys are the pointers [reload] gave to [SetAll], so the Store
    shares the records with the Manager. *)
Definition Store_SetAll_model (plugins : gmap string ptr) (w : World) : World :=
  set_Store_plugins (λ _, plugins) w.
Definition Store_Update_model (p : ptr) (w : World) : World :=
  set_Store_plugins (<[v2.GetID (deref w p) := p]>) w.
Definition Store_GetByID_model (id : string) (w : World) : error + ptr :=
  match Store_plugins w !! id with
  | Some p => inr p
  | None => inl (errors_New ("plugin not found: " +:+ id))
  end.
Arguments Store_SetAll_model plugins w /.
Arguments Store_Update_model p w /.
Arguments Store_GetByID_model id w /.

(** ** Programs *)

(** The primitive operations of manager.go, indexed by the type of their
    result. *)
Inductive Op : Type → Type :=
(* os, ioutil *)
| os_MkdirAll (path : string) (perm : Z) : Op (option error)
| ioutil_ReadDir (path : string) : Op (error + list string)
| ioutil_ReadFile (path : string) : Op (error + string)
(* config.Executor.Client(manager) *)
| Executor_Client : Op (option error)
(* objects *)
| new_Plugin (v : v2.Plugin) : Op ptr
| load_Plugin (p : ptr) : Op v2.Plugin
| store_Rootfs (p : ptr) (s : string) : Op unit
| store_PropagatedMount (p : ptr) (s : string) : Op unit
| new_controller (c : controller) : Op cptr
| load_controller (c : cptr) : Op controller
| make_cMap : Op unit
| cMap_index (p : ptr) : Op (option cptr)
| cMap_assign (p : ptr) (c : cptr) : Op unit
| mu_RLock : Op unit
| mu_RUnlock : Op unit
| chan_close (ch : chan) : Op bool
(* config.Store *)
| Store_SetAll (plugins : gmap string ptr) : Op unit
| Store_Update (p : ptr) : Op unit
| Store_GetByID (id : string) : Op (error + ptr)
(* v2.Plugin methods with effects, manager_linux.go, pkg/mount *)
| Plugin_Restore (p : ptr) (runRoot : string) : Op unit
| Plugin_RemoveFromDisk (p : ptr) : Op unit
| pm_restore (p : ptr) : Op (option error)
| pm_enable (p : ptr) (c : cptr) (force : bool) : Op (option error)
| mount_Unmount (path : string) : Op (option error)
(* sync.WaitGroup, logrus *)
| wg_Add (n : nat) : Op unit
| wg_Done : Op unit
| logrus_Logf (lvl : Level) (format : string) (args : list LogArg) : Op unit.

(** A program performs operations one at a time; [Go ts k] starts the
    goroutines [ts], waits for all of them ([wg.Wait()]) and goes on with
    [k].  [S] is the type of the goroutines a program may start. *)
Inductive Prog (S A : Type) : Type :=
| Ret (a : A)
| Fault (f : panic)
| Do {R : Type} (op : Op R) (k : R → Prog S A)
| Go (ts : list (tid * S)) (k : Prog S A).
Arguments Ret {S A} a.
Arguments Fault {S A} f.
Arguments Do {S A R} op k.
Arguments Go {S A} ts k.

Fixpoint bind {S A B : Type} (m : Prog S A) (f : A → Prog S B) : Prog S B :=
  match m with
  | Ret a => f a
  | Fault x => Fault x
  | Do op k => Do op (λ r, bind (k r) f)
  | Go ts k => Go ts (bind k f)
  end.

Definition call {S R : Type} (op : Op R) : Prog S R := Do op Ret.

Declare Scope prog_scope.
Delimit Scope prog_scope with prog.
Bind Scope prog_scope with Prog.
Notation "x <- m ;; k" := (bind m (λ x, k))
  (at level 20, m at level 99, k at level 200, only parsing) : prog_scope.
Notation "m ;; k" := (bind m (λ _, k))
  (at level 100, k at level 200, only parsing, right associativity) : prog_scope.
Open Scope prog_scope.

(** A goroutine started by [Go] starts none itself. *)
Abbreviation Task := (Prog Empty_set unit).

(** ** Running programs *)

Section Semantics.
Variable E : Env.

(** What an operation does to the objects, and what it answers. *)
Definition effect {R : Type} (op : Op R) (w : World) : World * R :=
  match op in Op R return World * R with
  | os_MkdirAll path perm => (w, reply_MkdirAll E w path perm)
  | ioutil_ReadDir path => (w, reply_ReadDir E path)
  | ioutil_ReadFile path => (w, reply_ReadFile E path)
  | Executor_Client => (w, reply_Client E w)
  | new_Plugin v =>
      let p := fresh (dom (plugin_objs w)) in
      (set_plugin_objs (<[p := v]>) w, p)
  | load_Plugin p => (w, deref w p)
  | store_Rootfs p s =>
      (set_plugin_objs (<[p := v2.with_Rootfs s (deref w p)]>) w, tt)
  | store_PropagatedMount p s =>
      (set_plugin_objs (<[p := v2.with_PropagatedMount s (deref w p)]>) w, tt)
  | new_controller c =>
      let a := fresh (dom (controllers w)) in
      (set_controllers (<[a := c]>) w, a)
  | load_controller c => (w, controllers w !!! c)
  | make_cMap => (set_cMap (λ _, ∅) w, tt)
  | cMap_index p => (w, cMap w !! p)
  | cMap_assign p c => (set_cMap (<[p := c]>) w, tt)
  | mu_RLock => (set_mu_readers Datatypes.S w, tt)
  | mu_RUnlock => (set_mu_readers Nat.pred w, tt)
  | chan_close ch =>
      if decide (ch ∈ closed w) then (w, false)
      else (set_closed (union {[ch]}) w, true)
  | Store_SetAll plugins => (Store_SetAll_model plugins w, tt)
  | Store_Update p => (Store_Update_model p w, tt)
  | Store_GetByID id => (w, Store_GetByID_model id w)
  | Plugin_Restore p runRoot => (w, tt)
  | Plugin_RemoveFromDisk p => (w, tt)
  | pm_restore p => (w, reply_restore E w p)
  | pm_enable p c force => (w, reply_enable E w p c force)
  | mount_Unmount path => (w, reply_Unmount E w path)
  | wg_Add n => (w, tt)
  | wg_Done => (w, tt)
  | logrus_Logf lvl format args => (w, tt)
  end.

(** The entries an operation with its answer leaves in the history. *)
Definition emit {R : Type} (op : Op R) : R → list Event :=
  match op in Op R return R → list Event with
  | os_MkdirAll path perm => λ r, [EvMkdirAll path perm r]
  | ioutil_ReadDir path => λ r, [EvReadDir path r]
  | ioutil_ReadFile path => λ r, [EvReadFile path r]
  | Executor_Client => λ r, [EvExecutorClient r]
  | store_Rootfs p s => λ _, [EvSetRootfs p s]
  | store_PropagatedMount p s => λ _, [EvSetPropagatedMount p s]
  | chan_close ch => λ ok, if ok then [EvClose ch] else []
  | Store_SetAll plugins => λ _, [EvSetAll plugins]
  | Store_Update p => λ _, [EvUpdate p]
  | Store_GetByID id => λ r, [EvGetByID id r]
  | Plugin_Restore p runRoot => λ _, [EvRestore p runRoot]
  | Plugin_RemoveFromDisk p => λ _, [EvRemoveFromDisk p]
  | pm_restore p => λ r, [EvPmRestore p r]
  | pm_enable p c force => λ r, [EvPmEnable p c force r]
  | mount_Unmount path => λ r, [EvUnmount path r]
  | wg_Add n => λ _, [EvWgAdd n]
  | wg_Done => λ _, [EvWgDone]
  | logrus_Logf lvl format args => λ _, [EvLog lvl format args]
  | _ => λ _, []
  end.

Definition perform {R : Type} (t : tid) (op : Op R) (w : World) : World * R :=
  let '(w', r) := effect op w in (record t (emit op r) w', r).

(** [exec par t m w] runs [m] as goroutine [t]; [par] runs the goroutines
    of a [Go] to their end. *)
Fixpoint exec {S A : Type} (par : list (tid * S) → World → World * option panic)
    (t : tid) (m : Prog S A) (w : World) : World * outcome A :=
  match m with
  | Ret a => (w, Returned a)
  | Fault f => (w, Panicked f)
  | Do op k => let '(w', r) := perform t op w in exec par t (k r) w'
  | Go ts k =>
      match par ts w with
      | (w', None) => exec par t k w'
      | (w', Some f) => (w', Panicked f)
      end
  end.

(** Code that starts no goroutine. *)
Definition run {A : Type} : tid → Prog Empty_set A → World → World * outcome A :=
  exec (λ _ w, (w, None)).

(** One operation of a started goroutine. *)
Definition step (tk : tid * Task) (w : World) : World * (tid * Task) :=
  match tk with
  | (t, Do op k) => let '(w', r) := perform t op w in (w', (t, k r))
  | (t, Go _ k) => (w, (t, k))
  | _ => (w, tk)
  end.

(** When the schedule is used up, the goroutines still running are run to
    their end one after the other. *)
Fixpoint drain (pool : list (tid * Task)) (w : World) : World * option panic :=
  match pool with
  | [] => (w, None)
  | (t, m) :: pool' =>
      match run t m w with
      | (w', Returned _) => drain pool' w'
      | (w', Panicked f) => (w', Some f)
      end
  end.

(** [interleave sched pool w]: the goroutines of [pool] run concurrently;
    [sched] names, operation by operation, the goroutine that moves next.
    A panic in a goroutine ends the process.  The result is the world in
    which every goroutine has returned, which is where [wg.Wait()]
    returns. *)
Fixpoint interleave (sched : list nat) (pool : list (tid * Task)) (w : World)
    : World * option panic :=
  match sched with
  | [] => drain pool w
  | i :: sched' =>
      match pool !! i with
      | Some (t, Fault f) => (w, Some f)
      | Some tk =>
          let '(w', tk') := step tk w in
          interleave sched' (<[i := tk']> pool) w'
      | None => interleave sched' pool w
      end
  end.

(** Code that starts goroutines, under a schedule for them. *)
Definition exec_go {A : Type} (sched : list nat)
    : tid → Prog Task A → World → World * outcome A :=
  exec (interleave sched).
End Semantics.

(** ** manager.go *)

(** The file modes [0700] and [0755]. *)
Definition mode_0700 : Z := 7 * 64 + 0 * 8 + 0.
Definition mode_0755 : Z := 7 * 64 + 5 * 8 + 5.

(** The test of line 153: the capability types that need rootfs
    propagation. *)
Definition enables_rootfs_propagation (typ : types.PluginInterfaceType) : bool :=
  (String.eqb (types.Capability typ) "volumedriver"
   || String.eqb (types.Capability typ) "graphdriver")
  && String.eqb (types.Prefix typ) "docker"
  && strings_HasPrefix (types.Version typ) "1.".

Section Manager.
Variable E : Env.
Variable config : ManagerConfig.  (* pm.config *)

Definition logrus_Debugf {S} (format : string) (args : list LogArg) : Prog S unit :=
  call (logrus_Logf DebugLevel format args).
Definition logrus_Warnf {S} (format : string) (args : list LogArg) : Prog S unit :=
  call (logrus_Logf WarnLevel format args).
Definition logrus_Errorf {S} (format : string) (args : list LogArg) : Prog S unit :=
  call (logrus_Logf ErrorLevel format args).

(** [p.Name()], [p.IsEnabled()], [p.GetID()] on a pointer. *)
Definition Plugin_Name {S} (p : ptr) : Prog S string :=
  v <- call (load_Plugin p);; Ret (v2.Name v).
Definition Plugin_IsEnabled {S} (p : ptr) : Prog S bool :=
  v <- call (load_Plugin p);; Ret (v2.IsEnabled v).
Definition Plugin_GetID {S} (p : ptr) : Prog S string :=
  v <- call (load_Plugin p);; Ret (v2.GetID v).

Definition restorePlugin {S} (p : ptr) : Prog S (option error) :=
  call (Plugin_Restore p (ExecRoot config));;
  enabled <- Plugin_IsEnabled p;;
  if enabled : bool then call (pm_restore p) else Ret None.

(** The record is allocated when the decoding has succeeded; the object
    of a failed [loadPlugin] is never reachable. *)
Definition loadPlugin {S} (id : string) : Prog S (error + ptr) :=
  let p := filepath_Join E [Root config; id; configFileName] in
  r <- call (ioutil_ReadFile p);;
  match r with
  | inl err => Ret (inl (errors_Wrapf err "error reading " p))
  | inr dt =>
      match json_Unmarshal E dt with
      | inl err => Ret (inl (errors_Wrapf err "error decoding " p))
      | inr plugin => a <- call (new_Plugin plugin);; Ret (inr a)
      end
  end.

(** [StateChanged] updates plugin internals using libcontainerd events. *)
Definition StateChanged {S} (id : string) (e : StateInfo) : Prog S (option error) :=
  logrus_Debugf "plugin state changed %s %#v" [ArgStr id; ArgState e];;
  match StateInfo_State e with
  | StateExit =>
      r <- call (Store_GetByID id);;
      match r with
      | inl err => Ret (Some err)
      | inr p =>
          call mu_RLock;;
          c <- call (cMap_index p);;
          match c with
          | None => Fault nil_pointer_dereference  (* c.exitChan with c == nil *)
          | Some c =>
              ctl <- call (load_controller c);;
              match exitChan ctl with
              | Some ch =>
                  ok <- call (chan_close ch);;
                  if ok : bool then Ret tt else Fault close_of_closed_channel
              | None => Ret tt
              end;;
              ctl <- call (load_controller c);;
              let restart := restart ctl in
              call mu_RUnlock;;
              call (Plugin_RemoveFromDisk p);;
              v <- call (load_Plugin p);;
              (if negb (String.eqb (v2.PropagatedMount v) "") then
                 err <- call (mount_Unmount (v2.PropagatedMount v));;
                 match err with
                 | Some err =>
                     logrus_Warnf "Could not unmount %s: %v"
                       [ArgStr (v2.PropagatedMount v); ArgErr err]
                 | None => Ret tt
                 end
               else Ret tt);;
              (if restart then call (pm_enable p c true);; Ret tt else Ret tt);;
              Ret None
          end
      end
  | _ => Ret None
  end.

(** [for _, v := range dir] of [reload] (lines 123-131). *)
Fixpoint reload_range_dir {S} (dir : list string) (plugins : gmap string ptr)
    : Prog S (error + gmap string ptr) :=
  match dir with
  | [] => Ret (inr plugins)
  | v :: dir' =>
      if validFullID v then
        r <- loadPlugin v;;
        match r with
        | inl err => Ret (inl err)
        | inr p =>
            id <- Plugin_GetID p;;
            reload_range_dir dir' (<[id := p]> plugins)
        end
      else reload_range_dir dir' plugins
  end.

(** [for _, typ := range p.PluginObj.Config.Interface.Types] of the
    recovery task (lines 152-163); [false] when the task returns from
    inside the loop. *)
Fixpoint reload_range_Types {S} (p : ptr) (typs : list types.PluginInterfaceType)
    : Prog S bool :=
  match typs with
  | [] => Ret true
  | typ :: typs' =>
      if enables_rootfs_propagation typ then
        v <- call (load_Plugin p);;
        let mnt := types.PropagatedMount (types.Config (v2.PluginObj v)) in
        if negb (String.eqb mnt "") then
          let path := filepath_Join E [v2.Rootfs v; mnt] in
          call (store_PropagatedMount p path);;
          err <- call (os_MkdirAll path mode_0755);;
          match err with
          | Some err =>
              logrus_Errorf "failed to create PropagatedMount directory at %s: %v"
                [ArgStr path; ArgErr err];;
              Ret false
          | None => reload_range_Types p typs'
          end
        else reload_range_Types p typs'
      else reload_range_Types p typs'
  end.

(** The body of [go func(p *v2.Plugin) { ... }(p)] before its deferred
    [wg.Done()] (lines 142-173). *)
Definition reload_func_body {S} (c : cptr) (p : ptr) : Prog S unit :=
  err <- restorePlugin p;;
  match err with
  | Some err =>
      name <- Plugin_Name p;;
      logrus_Errorf "failed to restore plugin '%s': %s" [ArgStr name; ArgErr err]
  | None =>
      v <- call (load_Plugin p);;
      (if negb (String.eqb (v2.Rootfs v) "") then
         call (store_Rootfs p
                 (filepath_Join E [Root config; types.ID (v2.PluginObj v); "rootfs"]))
       else Ret tt);;
      v <- call (load_Plugin p);;
      go_on <- reload_range_Types p
                 (types.Types (types.Interface (types.Config (v2.PluginObj v))));;
      if go_on : bool then
        call (Store_Update p);;
        requiresManualRestore <-
          (if LiveRestoreEnabled config then Ret false else Plugin_IsEnabled p);;
        if requiresManualRestore : bool then
          err <- call (pm_enable p c true);;
          match err with
          | Some err =>
              name <- Plugin_Name p;;
              logrus_Errorf "failed to enable plugin '%s': %s" [ArgStr name; ArgErr err]
          | None => Ret tt
          end
        else Ret tt
      else Ret tt
  end.

Definition reload_func (c : cptr) (p : ptr) : Task :=
  reload_func_body c p;; call wg_Done.

(** One round of [for _, p := range plugins] (lines 137-175).  Go leaves
    the order of the rounds open and the goroutine of a round runs while
    the later rounds are made, so a round is one thread of the
    interleaving: the Controller is made and entered in [cMap], then the
    goroutine runs. *)
Definition reload_range_plugins (p : ptr) : tid * Task :=
  (Recovery p,
   c <- call (new_controller controller_zero);;
   call (cMap_assign p c);;
   reload_func c p).

Definition reload : Prog Task (option error) :=
  dir <- call (ioutil_ReadDir (Root config));;
  match dir with
  | inl err => Ret (Some (errors_Wrapf err "failed to read " (Root config)))
  | inr dir =>
      r <- reload_range_dir dir ∅;;
      match r with
      | inl err => Ret (Some err)
      | inr plugins =>
          call (Store_SetAll plugins);;
          call (wg_Add (size plugins));;
          Go (reload_range_plugins <$> (map_to_list plugins).*2) (Ret None)
      end
  end.

(** [NewManager] returns a new plugin manager; the manager it returns is
    the [World] it leaves, the result is its [error]. *)
Definition NewManager : Prog Task (option error) :=
  err <- call (os_MkdirAll (Root config) mode_0700);;
  match err with
  | Some err => Ret (Some (errors_Wrapf err "failed to create " (Root config)))
  | None =>
      err <- call (os_MkdirAll (ExecRoot config) mode_0700);;
      match err with
      | Some err => Ret (Some (errors_Wrapf err "failed to create " (ExecRoot config)))
      | None =>
          err <- call Executor_Client;;
          match err with
          | Some err => Ret (Some (errors_Wrap err "failed to create containerd client"))
          | None =>
              call make_cMap;;
              err <- reload;;
              match err with
              | Some err => Ret (Some (errors_Wrap err "failed to restore plugins"))
              | None => Ret None
              end
          end
      end
  end.
End Manager.

(** ** Vocabulary of the properties *)

(** The entry that [StateChanged] logs first. *)
Definition debug_entry (id : string) (e : StateInfo) : Event :=
  EvLog DebugLevel "plugin state changed %s %#v" [ArgStr id; ArgState e].

(** The three stages of the exit handler after the lookup, as entries of
    the history: the close of the exit signal of a Controller, the unmount
    of the propagated mount of a record (with the reply [r] it got), the
    restart under a Controller (with the reply [r] of enable). *)
Definition closing (ctl : controller) : list Event :=
  match exitChan ctl with
  | Some ch => [EvClose ch]
  | None => []
  end.

Definition unmounting (v : v2.Plugin) (r : option error) : list Event :=
  if negb (String.eqb (v2.PropagatedMount v) "") then
    EvUnmount (v2.PropagatedMount v) r ::
    match r with
    | Some err =>
        [EvLog WarnLevel "Could not unmount %s: %v" [ArgStr (v2.PropagatedMount v); ArgErr err]]
    | None => []
    end
  else [].

Definition enabling (p : ptr) (c : cptr) (ctl : controller) (r : option error) : list Event :=
  if restart ctl then [EvPmEnable p c true r] else [].

(** What [loadPlugin] finds on the disk for the entry [v] of the root
    directory: the decoded record, or the error of reading or of decoding
    [{Root}/{v}/config.json]. *)
Definition config_path (E : Env) (config : ManagerConfig) (v : string) : string :=
  filepath_Join E [Root config; v; configFileName].

Definition config_json (E : Env) (config : ManagerConfig) (v : string) : error + v2.Plugin :=
  match reply_ReadFile E (config_path E config v) with
  | inl err => inl (errors_Wrapf err "error reading " (config_path E config v))
  | inr dt =>
      match json_Unmarshal E dt with
      | inl err => inl (errors_Wrapf err "error decoding " (config_path E config v))
      | inr plugin => inr plugin
      end
  end.

(** The identities of the records of the entries of [dir] that match the
    full-ID format and decode, in the order of [dir]. *)
Definition loaded_ids (E : Env) (config : ManagerConfig) (dir : list string) : list string :=
  omap (λ v, if validFullID v
             then match config_json E config v with
                  | inr plugin => Some (v2.GetID plugin)
                  | inl _ => None
                  end
             else None) dir.

(** A read of the [config.json] of an entry of [dir] that matches the
    full-ID format. *)
Definition reads_matching_entry (E : Env) (config : ManagerConfig) (dir : list string)
    (ev : Event) : Prop :=
  ∃ v, v ∈ dir ∧ validFullID v = true ∧
       ev = EvReadFile (config_path E config v) (reply_ReadFile E (config_path E config v)).

(** The part of a record that the Manager never writes: every record of
    [w] is still there in [w'] with the same [PluginObj]. *)
Definition same_PluginObj (w w' : World) : Prop :=
  ∀ p v, plugin_objs w !! p = Some v →
    ∃ v', plugin_objs w' !! p = Some v' ∧ v2.PluginObj v' = v2.PluginObj v.

(** *** The recovery task *)

(** The mount-propagation path and the capabilities that a record
    declares. *)
Definition mount_path (v : v2.Plugin) : string :=
  types.PropagatedMount (types.Config (v2.PluginObj v)).
Definition declared_types (v : v2.Plugin) : list types.PluginInterfaceType :=
  types.Types (types.Interface (types.Config (v2.PluginObj v))).

(** How often the loop over the capabilities [typs] of the record [v]
    computes [PropagatedMount] and creates its directory when no creation
    fails: once per capability that passes the test of line 153, and never
    when the record has no mount-propagation path. *)
Definition propagation_rounds (v : v2.Plugin) (typs : list types.PluginInterfaceType) : nat :=
  if String.eqb (mount_path v) "" then 0
  else length (List.filter enables_rootfs_propagation typs).

(** One such round on the record [p] with the directory [path]: created,
    or refused with [err]. *)
Definition round_ok (p : ptr) (path : string) : list Event :=
  [EvSetPropagatedMount p path; EvMkdirAll path mode_0755 None].
Definition round_failed (p : ptr) (path : string) (err : error) : list Event :=
  [EvSetPropagatedMount p path; EvMkdirAll path mode_0755 (Some err);
   EvLog ErrorLevel "failed to create PropagatedMount directory at %s: %v"
     [ArgStr path; ArgErr err]].

Section Recovery_task.
Variable E : Env.
Variable config : ManagerConfig.
Variable c : cptr.
Variable p : ptr.
Variable v : v2.Plugin.  (* the record as the task finds it *)

(** The record after step 2 of the task. *)
Definition rootfs_path : string :=
  filepath_Join E [Root config; types.ID (v2.PluginObj v); "rootfs"].
Definition rewritten : v2.Plugin :=
  if String.eqb (v2.Rootfs v) "" then v else v2.with_Rootfs rootfs_path v.

(** The record after step 3 of the task. *)
Definition propagated_path : string :=
  filepath_Join E [v2.Rootfs rewritten; mount_path v].
Definition propagated : v2.Plugin :=
  v2.with_PropagatedMount propagated_path rewritten.

Definition restore_events (r : option error) : list Event :=
  EvRestore p (ExecRoot config) :: if v2.IsEnabled v then [EvPmRestore p r] else [].
Definition rootfs_events : list Event :=
  if String.eqb (v2.Rootfs v) "" then [] else [EvSetRootfs p rootfs_path].
Definition enable_events (r : option error) : list Event :=
  if LiveRestoreEnabled config then []
  else if v2.IsEnabled v then
    EvPmEnable p c true r ::
    match r with
    | Some err =>
        [EvLog ErrorLevel "failed to enable plugin '%s': %s" [ArgStr (v2.Name v); ArgErr err]]
    | None => []
    end
  else [].

(** The three ways in which a recovery task ends, with the history [evs]
    it leaves and what it has done to the heap of records and to the
    index of the Store. *)
Inductive task_outcome (w w' : World) (evs : list Event) : Prop :=
| reattach_failed (err : error) :
    v2.IsEnabled v = true →
    evs = restore_events (Some err)
          ++ [EvLog ErrorLevel "failed to restore plugin '%s': %s"
                [ArgStr (v2.Name v); ArgErr err]] →
    plugin_objs w' = plugin_objs w →
    Store_plugins w' = Store_plugins w →
    task_outcome w w' evs
| mkdir_failed (n : nat) (err : error) :
    n < propagation_rounds v (declared_types v) →
    evs = restore_events None ++ rootfs_events
          ++ concat (replicate n (round_ok p propagated_path))
          ++ round_failed p propagated_path err →
    deref w' p = propagated →
    Store_plugins w' = Store_plugins w →
    task_outcome w w' evs
| published (r : option error) :
    evs = restore_events None ++ rootfs_events
          ++ concat (replicate (propagation_rounds v (declared_types v))
                       (round_ok p propagated_path))
          ++ [EvUpdate p] ++ enable_events r →
    deref w' p = (if propagation_rounds v (declared_types v) is 0
                  then rewritten else propagated) →
    Store_plugins w' = <[v2.GetID v := p]> (Store_plugins w) →
    task_outcome w w' evs.
End Recovery_task.

(** *** Goroutines under a schedule *)

(** [leads P Q m]: whatever the operations of [m] are answered, [m] does
    not panic before it has left an entry that satisfies [P] in the
    history, and when it returns without having left one, its result
    satisfies [Q]. *)
Inductive leads {S A : Type} (P : Event → Prop) (Q : A → Prop) : Prog S A → Prop :=
| leads_Ret (a : A) : Q a → leads P Q (Ret a)
| leads_now {R : Type} (op : Op R) (k : R → Prog S A) :
    (∀ r, Exists P (emit op r)) → leads P Q (Do op k)
| leads_later {R : Type} (op : Op R) (k : R → Prog S A) :
    (∀ r, leads P Q (k r)) → leads P Q (Do op k)
| leads_Go (ts : list (tid * S)) (k : Prog S A) :
    leads P Q k → leads P Q (Go ts k).

(** [only P m]: whatever the operations of [m] are answered, every entry
    that [m] leaves in the history satisfies [P]. *)
Inductive only {S A : Type} (P : Event → Prop) : Prog S A → Prop :=
| only_Ret (a : A) : only P (Ret a)
| only_Fault (x : panic) : only P (Fault x)
| only_Do {R : Type} (op : Op R) (k : R → Prog S A) :
    (∀ r, Forall P (emit op r)) → (∀ r, only P (k r)) → only P (Do op k)
| only_Go (ts : list (tid * S)) (k : Prog S A) :
    only P k → only P (Go ts k).

(** The entries that a recovery task can leave. *)
Definition task_event (ev : Event) : Prop :=
  match ev with
  | EvRestore _ _ | EvPmRestore _ _ | EvSetRootfs _ _ | EvSetPropagatedMount _ _
  | EvUpdate _ | EvPmEnable _ _ _ _ | EvWgDone | EvLog ErrorLevel _ _ => True
  | EvMkdirAll _ perm _ => perm = mode_0755
  | _ => False
  end.

(** A program that never panics. *)
Definition safe {S A : Type} (m : Prog S A) : Prop :=
  leads (λ _, False) (λ _, True) m.

(** The goroutines of a pool and what each of them owes: an entry that
    satisfies [P] for its thread.  [paid] holds of a thread that has left
    such an entry among [evs], [owed] of a goroutine that has done so or
    whose program leads to one. *)
Definition paid (P : tid → Event → Prop) (evs : list (tid * Event)) (t : tid) : Prop :=
  ∃ ev, (t, ev) ∈ evs ∧ P t ev.

Definition owed (P : tid → Event → Prop) (evs : list (tid * Event)) (tk : tid * Task) : Prop :=
  paid P evs tk.1 ∨ leads (P tk.1) (λ _, False) tk.2.

(** The entries that the history has gained from [w] to [w']. *)
Definition since (w w' : World) : list (tid * Event) :=
  drop (length (trace w)) (trace w').

(** The entries by which a recovery task shows that it has published its
    record or has logged why it gave up. *)
Definition restore_failure_log (ev : Event) : Prop :=
  ∃ name err, ev = EvLog ErrorLevel "failed to restore plugin '%s': %s"
                     [ArgStr name; ArgErr err].
Definition mkdir_failure_log (ev : Event) : Prop :=
  ∃ path err, ev = EvLog ErrorLevel "failed to create PropagatedMount directory at %s: %v"
                     [ArgStr path; ArgErr err].
Definition settles (p : ptr) (ev : Event) : Prop :=
  ev = EvUpdate p ∨ restore_failure_log ev ∨ mkdir_failure_log ev.

Definition task_done (t : tid) (ev : Event) : Prop := ev = EvWgDone.
Definition task_settles (t : tid) (ev : Event) : Prop :=
  match t with
  | Recovery p => settles p ev
  | Caller => False
  end.

(** *** The result of reload *)

(** The first error among the entries of [dir] in the full-ID format. *)
Fixpoint first_load_error (E : Env) (config : ManagerConfig) (dir : list string)
    : option error :=
  match dir with
  | [] => None
  | v :: dir' =>
      if validFullID v then
        match config_json E config v with
        | inl err => Some err
        | inr _ => first_load_error E config dir'
        end
      else first_load_error E config dir'
  end.

(** What Phase 1 finds on the disk: the error that ends it, if any. *)
Definition phase1_result (E : Env) (config : ManagerConfig) : option error :=
  match reply_ReadDir E (Root config) with
  | inl err => Some (errors_Wrapf err "failed to read " (Root config))
  | inr dir => first_load_error E config dir
  end.

(** What [NewManager] does before [reload]: the world that it leaves and
    the error that ends it, if any. *)
Definition setup (E : Env) (config : ManagerConfig) (w : World) : World * option error :=
  let r1 := reply_MkdirAll E w (Root config) mode_0700 in
  let w1 := record Caller [EvMkdirAll (Root config) mode_0700 r1] w in
  match r1 with
  | Some err => (w1, Some (errors_Wrapf err "failed to create " (Root config)))
  | None =>
      let r2 := reply_MkdirAll E w1 (ExecRoot config) mode_0700 in
      let w2 := record Caller [EvMkdirAll (ExecRoot config) mode_0700 r2] w1 in
      match r2 with
      | Some err => (w2, Some (errors_Wrapf err "failed to create " (ExecRoot config)))
      | None =>
          let r3 := reply_Client E w2 in
          let w3 := record Caller [EvExecutorClient r3] w2 in
          match r3 with
          | Some err => (w3, Some (errors_Wrap err "failed to create containerd client"))
          | None => (set_cMap (λ _, ∅) w3, None)
          end
      end
  end.


(** The three conditions on a declared capability, in words. *)
Definition qualifies (typ : types.PluginInterfaceType) : Prop :=
  (types.Capability typ = "volumedriver" ∨ types.Capability typ = "graphdriver") ∧
  types.Prefix typ = "docker" ∧
  ∃ rest, types.Version typ = "1." +:+ rest.

(** ** Concrete scenarios *)

Module Scenario.
Fixpoint replicate_char (c : ascii) (n : nat) : string :=
  match n with
  | O => ""
  | Datatypes.S n => String c (replicate_char c n)
  end.

(** Two identities in the full-ID format. *)
Definition idA : string := replicate_char "a" 64.
Definition idB : string := replicate_char "b" 64.

(** Path elements joined by a slash, empty elements dropped and repeated
    slashes merged. *)
Fixpoint squeeze (s : string) : string :=
  match s with
  | String "/" (String "/" _ as s') => squeeze s'
  | String c s' => String c (squeeze s')
  | EmptyString => EmptyString
  end.

Definition join (l : list string) : string :=
  squeeze (String.concat "/" (filter (λ s, s ≠ "") l)).

Definition plugin (id : string) (enabled : bool) (rootfs mounted : string)
    (typs : list types.PluginInterfaceType) (mnt : string) : v2.Plugin :=
  {| v2.PluginObj :=
       {| types.ID := id; types.Name := "plugin-" +:+ id; types.Enabled := enabled;
          types.Config :=
            {| types.Interface := {| types.Types := typs |};
               types.PropagatedMount := mnt |} |};
     v2.PropagatedMount := mounted;
     v2.Rootfs := rootfs |}.

Definition volumedriver : types.PluginInterfaceType :=
  {| types.Capability := "volumedriver"; types.Prefix := "docker"; types.Version := "1.0" |}.

Definition empty_world : World :=
  {| plugin_objs := ∅; controllers := ∅; Store_plugins := ∅; cMap := ∅;
     mu_readers := 0; closed := ∅; trace := [] |}.

Definition exit : StateInfo := {| StateInfo_State := StateExit; ExitCode := 1 |}.

(** A disk with the files [files] (path, content) under the root
    [/plugins] listing [dir], a decoder [decode], and collaborators whose
    replies are [mkdir], [restore], [enable]. *)
Definition env (dir : list string) (files : list (string * string))
    (decode : list (string * v2.Plugin))
    (mkdir : string → option error) (restore enable : ptr → option error) : Env :=
  {| filepath_Join := join;
     json_Unmarshal := λ dt,
       match list_to_map (M := gmap string v2.Plugin) decode !! dt with
       | Some v => inr v
       | None => inl (errors_New "invalid character")
       end;
     reply_ReadDir := λ path,
       if String.eqb path "/plugins" then inr dir
       else inl (errors_New "no such file or directory");
     reply_ReadFile := λ path,
       match list_to_map (M := gmap string string) files !! path with
       | Some dt => inr dt
       | None => inl (errors_New "no such file or directory")
       end;
     reply_MkdirAll := λ _ path _, mkdir path;
     reply_Client := λ _, None;
     reply_restore := λ _ p, restore p;
     reply_enable := λ _ p _ _, enable p;
     reply_Unmount := λ _ _, Some (errors_New "device or resource busy") |}.

Definition quiet : Env := env [] [] [] (λ _, None) (λ _, None) (λ _, None).

Definition config : ManagerConfig :=
  {| LiveRestoreEnabled := false; Root := "/plugins"; ExecRoot := "/run/plugins" |}.

(** A tracked plugin (record 1, Controller 1) with a propagated mount; its
    Controller is [ctl]. *)
Definition tracked (ctl : controller) : World :=
  {| plugin_objs := {[ 1%positive := plugin idA true "/plugins/a/rootfs" "/plugins/a/rootfs/data" [volumedriver] "/data" ]};
     controllers := {[ 1%positive := ctl ]};
     Store_plugins := {[ idA := 1%positive ]};
     cMap := {[ 1%positive := 1%positive ]};
     mu_readers := 0; closed := ∅; trace := [] |}.

(** A record in the Store without a Controller. *)
Definition untracked : World :=
  {| plugin_objs := {[ 1%positive := plugin idA true "/plugins/a/rootfs" "" [] "" ]};
     controllers := ∅;
     Store_plugins := {[ idA := 1%positive ]};
     cMap := ∅;
     mu_readers := 0; closed := ∅; trace := [] |}.

(** Two records on the disk: [recordA] is enabled, has a [Rootfs] from an
    earlier run and declares a volume driver with a mount-propagation
    path; [recordB] is enabled and has neither. *)
Definition recordA : v2.Plugin :=
  plugin idA true "/var/lib/old/rootfs" "" [volumedriver] "/data".
Definition recordB : v2.Plugin := plugin idB true "" "" [] "".

Definition config_of (id : string) : string := join ["/plugins"; id; "config.json"].

(** [idB] has no [config.json]. *)
Definition missing_B : Env :=
  env [idA; idB] [(config_of idA, "A")] [("A", recordA)]
    (λ _, None) (λ _, None) (λ _, None).

(** Both load, and so would the entry [tmp], whose name is not in the
    full-ID format; the reattach of the first record (object 1) fails. *)
Definition reattach_fails : Env :=
  env [idA; "tmp"; idB]
    [(config_of idA, "A"); (config_of "tmp", "A"); (config_of idB, "B")]
    [("A", recordA); ("B", recordB)]
    (λ _, None)
    (λ p, if decide (p = 1%positive) then Some (errors_New "reattach failed") else None)
    (λ _, None).

(** Only [recordB], with its empty [Rootfs]. *)
Definition only_B : Env :=
  env [idB] [(config_of idB, "B")] [("B", recordB)] (λ _, None) (λ _, None) (λ _, None).

(** Only [recordA]; its PropagatedMount directory cannot be created. *)
Definition mkdir_fails : Env :=
  env [idA] [(config_of idA, "A")] [("A", recordA)]
    (λ path, if String.eqb path (join ["/plugins"; idA; "rootfs"; "data"])
             then Some (errors_New "permission denied") else None)
    (λ _, None) (λ _, None).

Definition open_signal : controller :=
  {| restart := true; exitChan := Some 7%positive; timeoutInSecs := 10 |}.
Definition nil_signal : controller :=
  {| restart := true; exitChan := None; timeoutInSecs := 10 |}.
End Scenario.

(** ** Vocabulary of the further properties *)

(** The entry that the read of the [config.json] of the entry [v] of the
    root directory leaves in the history. *)
Definition read_of (E : Env) (config : ManagerConfig) (v : string) : Event :=
  EvReadFile (config_path E config v) (reply_ReadFile E (config_path E config v)).

(** The entries of [dir] whose [config.json] Phase 1 reads: those in the
    full-ID format, up to and including the first that does not load. *)
Fixpoint scanned (E : Env) (config : ManagerConfig) (dir : list string) : list string :=
  match dir with
  | [] => []
  | v :: dir' =>
      if validFullID v then
        v :: match config_json E config v with
             | inl _ => []
             | inr _ => scanned E config dir'
             end
      else scanned E config dir'
  end.

(** The three calls of [NewManager] before [reload], all of them
    accepted. *)
Definition setup_done (config : ManagerConfig) : list Event :=
  [EvMkdirAll (Root config) mode_0700 None;
   EvMkdirAll (ExecRoot config) mode_0700 None;
   EvExecutorClient None].

(** A call of the setup that was refused with [err]. *)
Definition refused (err : error) (ev : Event) : Prop :=
  (∃ path, ev = EvMkdirAll path mode_0700 (Some err)) ∨ ev = EvExecutorClient (Some err).

(** The entries that [reload] can leave once it has listed the root
    directory. *)
Definition after_listing (ev : Event) : Prop :=
  match ev with
  | EvReadFile _ _ | EvSetAll _ | EvWgAdd _ => True
  | _ => task_event ev
  end.

(** The entries that Phase 1 of [reload] leaves: the listing, the reads,
    the hand-over to the Store and the count of the recovery tasks. *)
Definition scan_event (ev : Event) : Prop :=
  match ev with
  | EvReadDir _ _ | EvReadFile _ _ | EvSetAll _ | EvWgAdd _ => True
  | _ => False
  end.

(** ** Goroutines that keep to their own part of the world *)

Global Instance tid_eq_dec : EqDecision tid.
Proof. solve_decision. Defined.

Section Local.
Variable E : Env.
Context {X : Type}.
(** What the goroutine [t] sees of the world, and what a step of [t] may
    do to the world. *)
Variable own : tid → World → X.
Variable guar : tid → World → World → Prop.

(** [local t Q x m]: from a world of which [t] sees [x], and whatever
    the other goroutines do to the rest of the world between the steps of
    [m], every step of [m] is within [guar t], and [m] returns without a
    panic a result [a] in a world of which [t] sees some [x'] with
    [Q a x']. *)
Inductive local {A : Type} (t : tid) (Q : A → X → Prop) : X → Prog Empty_set A → Prop :=
| local_Ret (x : X) (a : A) : Q a x → local t Q x (Ret a)
| local_Do {R : Type} (x : X) (op : Op R) (k : R → Prog Empty_set A) :
    (∀ w, own t w = x → guar t w (perform E t op w).1) →
    (∀ w, own t w = x →
       local t Q (own t (perform E t op w).1) (k (perform E t op w).2)) →
    local t Q x (Do op k).

(** A goroutine of a pool, in the world [w]: it is one of the goroutines
    [member] and keeps to its own part of the world until it returns and
    leaves [Φ]. *)
Definition locally (member : tid → Prop) (Φ : tid → X → Prop) (w : World)
    (tk : tid * Task) : Prop :=
  member tk.1 ∧ local tk.1 (λ _, Φ tk.1) (own tk.1 w) tk.2.
End Local.

(** The entries of a history that are by the goroutine [t]. *)
Definition own_events (t : tid) (tr : list (tid * Event)) : list Event :=
  omap (λ te, if decide (te.1 = t) then Some te.2 else None) tr.

(** What the recovery task of the record [p] sees of the world: its
    record, the entry of the index of the Store under the identity of its
    record, its entry in the Controller table, and the entries that it has
    left in the history. *)
Record view : Type := {
  view_record : option v2.Plugin;
  view_index : option ptr;
  view_cMap : option cptr;
  view_trace : list Event
}.

Definition task_view (id_of : ptr → string) (t : tid) (w : World) : view :=
  match t with
  | Recovery p =>
      {| view_record := plugin_objs w !! p;
         view_index := Store_plugins w !! id_of p;
         view_cMap := cMap w !! p;
         view_trace := own_events t (trace w) |}
  | Caller =>
      {| view_record := None; view_index := None; view_cMap := None;
         view_trace := own_events t (trace w) |}
  end.

Definition view_emit (evs : list Event) (x : view) : view :=
  {| view_record := view_record x; view_index := view_index x;
     view_cMap := view_cMap x; view_trace := view_trace x ++ evs |}.
Definition view_with_record (v : v2.Plugin) (x : view) : view :=
  {| view_record := Some v; view_index := view_index x;
     view_cMap := view_cMap x; view_trace := view_trace x |}.
Definition view_with_index (p : ptr) (x : view) : view :=
  {| view_record := view_record x; view_index := Some p;
     view_cMap := view_cMap x; view_trace := view_trace x |}.
Definition view_with_cMap (c : cptr) (x : view) : view :=
  {| view_record := view_record x; view_index := view_index x;
     view_cMap := Some c; view_trace := view_trace x |}.

(** What a step of the recovery task of the record [q] may do: write its
    own record, the entry of the index under the identity of its record and
    its own entry of the Controller table, make new Controllers, and add
    entries of its own to the history. *)
Definition task_guar (id_of : ptr → string) (t : tid) (w w' : World) : Prop :=
  match t with
  | Recovery q =>
      (∀ p, p ≠ q → plugin_objs w' !! p = plugin_objs w !! p) ∧
      (∀ id, id ≠ id_of q → Store_plugins w' !! id = Store_plugins w !! id) ∧
      (∀ p, p ≠ q → cMap w' !! p = cMap w !! p) ∧
      controllers w ⊆ controllers w' ∧
      closed w' = closed w ∧ mu_readers w' = mu_readers w ∧
      ∃ evs, trace w' = trace w ++ map (pair t) evs
  | Caller => False
  end.

(** The recovery tasks of the records [ptrs]. *)
Definition recovers (ptrs : gset ptr) (t : tid) : Prop := ∃ p, t = Recovery p ∧ p ∈ ptrs.

(** What the recovery tasks of the records [ptrs] together leave
    untouched. *)
Definition tasks_frame (id_of : ptr → string) (ptrs : gset ptr) (w w' : World) : Prop :=
  (∀ p, p ∉ ptrs → plugin_objs w' !! p = plugin_objs w !! p) ∧
  (∀ id, (∀ p, p ∈ ptrs → id_of p ≠ id) → Store_plugins w' !! id = Store_plugins w !! id) ∧
  (∀ p, p ∉ ptrs → cMap w' !! p = cMap w !! p) ∧
  controllers w ⊆ controllers w' ∧
  closed w' = closed w ∧ mu_readers w' = mu_readers w.

(** The three ways in which the recovery task of the record [p], loaded
    as [v] and with the Controller [c], ends under a schedule: the entries
    [evs] that it has left in the history, in their order, and the record
    [rec] that it leaves behind [p]. *)
Inductive task_result (E : Env) (config : ManagerConfig) (c : cptr) (p : ptr)
    (v : v2.Plugin) (evs : list Event) (rec : v2.Plugin) : Prop :=
| result_reattach_failed (err : error) :
    v2.IsEnabled v = true →
    evs = restore_events config p v (Some err)
          ++ [EvLog ErrorLevel "failed to restore plugin '%s': %s"
                [ArgStr (v2.Name v); ArgErr err]; EvWgDone] →
    rec = v →
    task_result E config c p v evs rec
| result_mkdir_failed (n : nat) (err : error) :
    n < propagation_rounds v (declared_types v) →
    evs = restore_events config p v None ++ rootfs_events E config p v
          ++ concat (replicate n (round_ok p (propagated_path E config v)))
          ++ round_failed p (propagated_path E config v) err ++ [EvWgDone] →
    rec = propagated E config v →
    task_result E config c p v evs rec
| result_published (r : option error) :
    evs = restore_events config p v None ++ rootfs_events E config p v
          ++ concat (replicate (propagation_rounds v (declared_types v))
                       (round_ok p (propagated_path E config v)))
          ++ [EvUpdate p] ++ enable_events config c p v r ++ [EvWgDone] →
    rec = (if propagation_rounds v (declared_types v) is 0
           then rewritten E config v else propagated E config v) →
    task_result E config c p v evs rec.

(** * Reference store (package refstore)

    A shallow embedding of the tag store: [NewReferenceStore], [AddTag],
    [AddDigest], [addReference], [Delete], [Get], [References],
    [ReferencesByName], [save] and [reload].

    The store is a value that the methods take and give back; the read and
    write lock [mu], which every method takes for its whole body, makes
    each method one step.  A Go map that can be nil is an [option] of a
    finite map.  The file system is a finite map from paths to the content
    and the mode of a file.  The packages [reference], [digest], [json],
    [filepath], [os] and [ioutils] are not part of the store: what the
    store needs of them is a parameter. *)

(** The package [reference], as far as the store uses it, over the type
    of the values of the interface [reference.Named].  [Canonical ref] is
    the type assertion [ref.(reference.Canonical)]: when it succeeds, it
    gives [Digest().String()].  [digest_Canonical] is the constant
    [digest.Canonical]. *)
Module reference.
Class Package (Named : Type) : Type := {
  Name : Named → string;
  String : Named → string;
  Canonical : Named → option string;
  EnsureTagged : Named → Named;
  IsNameOnly : Named → bool;
  FamiliarName : Named → Named;
  NormalizedName : string → option Named;
  digest_Canonical : string
}.
End reference.

Module refstore.
(** The errors that the store returns: its own ([errors.New],
    [fmt.Errorf]), those of the operating system, of which the store
    asks whether they say that the file does not exist, and those of the
    JSON encoder and decoder. *)
Inductive error : Type :=
| errors_New (msg : string)
| os_error (msg : string) (not_exist : bool)
| json_error (msg : string).

Definition os_IsNotExist (err : option error) : bool :=
  match err with
  | Some (os_error _ not_exist) => not_exist
  | _ => false
  end.

(** [ErrDoesNotExist] is returned if a reference is not found in the
    store. *)
Definition ErrDoesNotExist : error := errors_New "reference does not exist".

Inductive panic : Type :=
| assignment_to_entry_in_nil_map
| nil_pointer_dereference.

Inductive result (A : Type) : Type :=
| Done (a : A)
| Panic (f : panic).
Arguments Done {A} a.
Arguments Panic {A} f.

(** [image.ID] is a string type; [String()] is the string itself. *)
Abbreviation image_ID := string.

(** A repository maps tags to image IDs; the key is a stringified
    reference, including the repository name.  [None] is the nil map. *)
Abbreviation repository := (option (gmap string image_ID)).

(** The file system: the content and the mode of the file at a path. *)
Abbreviation FS := (gmap string (string * Z)).

Definition mode_0600 : Z := 6 * 64 + 0 * 8 + 0.

(** What the decoder makes of the content of the file: the store pointer
    set to nil (a JSON null), or the value of [Repositories] after the
    decoding into the store that [NewReferenceStore] has made. *)
Inductive decoded : Type :=
| decoded_null
| decoded_store (Repositories : option (gmap string repository)).

(** The world outside the store.  [json_Marshal] is [json.Marshal(store)],
    which serializes the exported field [Repositories]; [open_fails] and
    [write_fails] are the errors that [os.Open] of a file that exists and
    [ioutils.AtomicWriteFile] can meet. *)
Record Env : Type := {
  filepath_Abs : string → error + string;
  json_Marshal : option (gmap string repository) → string + string;
  json_Decode : string → string + decoded;
  open_fails : FS → string → option error;
  write_fails : FS → string → option error
}.

Section Store.
Context {Named : Type} `{!reference.Package Named}.
Variable E : Env.

(** An [Association] is a tuple associating a reference with an image
    ID. *)
Record Association : Type := {
  Ref : Named;
  ImageID : image_ID
}.

Record store : Type := {
  (* jsonPath is the path to the file where the serialized tag data is
     stored. *)
  jsonPath : string;
  (* Repositories is a map of repositories, indexed by name. *)
  Repositories : option (gmap string repository);
  (* referencesByIDCache is a cache of references indexed by ID, to
     speed up References. *)
  referencesByIDCache : gmap image_ID (gmap string Named)
}.

Definition with_Repositories (rs : option (gmap string repository)) (s : store) : store :=
  {| jsonPath := jsonPath s; Repositories := rs;
     referencesByIDCache := referencesByIDCache s |}.
Definition with_referencesByIDCache (c : gmap image_ID (gmap string Named)) (s : store)
    : store :=
  {| jsonPath := jsonPath s; Repositories := Repositories s;
     referencesByIDCache := c |}.

(** [repository, exists := store.Repositories[name]]: [None] when the
    key is absent (also in a nil map), [Some None] for a nil
    repository. *)
Definition Repositories_index (s : store) (name : string) : option repository :=
  match Repositories s with
  | Some rs => rs !! name
  | None => None
  end.

(** [id, exists := repository[refStr]] *)
Definition repository_index (r : repository) (refStr : string) : option image_ID :=
  match r with
  | Some m => m !! refStr
  | None => None
  end.

(** [a[i].String() < a[j].String()] of [lexicalRefs] and
    [lexicalAssociations]. *)
Definition lexicalRefs_Less (x y : Named) : bool :=
  String.ltb (reference.String x) (reference.String y).
Definition lexicalAssociations_Less (x y : Association) : bool :=
  String.ltb (reference.String (Ref x)) (reference.String (Ref y)).

(** [sort.Sort]: in the result no element is less than an element
    before it.  Go leaves the order of elements of which none is less
    than the other open; the merge sort is one such order. *)
Definition sort_Sort {A : Type} (Less : A → A → bool) : list A → list A :=
  @merge_sort A (λ x y, Less y x = false) (λ x y, bool_eq_dec (Less y x) false).

(** [os.Open] followed by the read of the whole file. *)
Definition os_Open (fs : FS) (path : string) : error + string :=
  match open_fails E fs path with
  | Some err => inl err
  | None =>
      match fs !! path with
      | Some (content, _) => inr content
      | None => inl (os_error ("open " +:+ path +:+ ": no such file or directory") true)
      end
  end.

(** [ioutils.AtomicWriteFile]: the file has the new content, or it is
    as it was. *)
Definition ioutils_AtomicWriteFile (fs : FS) (path data : string) (perm : Z)
    : FS * option error :=
  match write_fails E fs path with
  | Some err => (fs, Some err)
  | None => (<[path := (data, perm)]> fs, None)
  end.

Definition save (s : store) (fs : FS) : FS * option error :=
  match json_Marshal E (Repositories s) with
  | inl msg => (fs, Some (json_error msg))
  | inr jsonData => ioutils_AtomicWriteFile fs (jsonPath s) jsonData mode_0600
  end.

(** Lines 134-139 and 174-179: the row of [id] in the cache loses
    [refStr], and the cache loses the row when it is empty. *)
Definition cache_forget (id : image_ID) (refStr : string)
    (c : gmap image_ID (gmap string Named)) : gmap image_ID (gmap string Named) :=
  match c !! id with
  | Some row =>
      let row' := delete refStr row in
      if decide (size row' = 0) then delete id c else <[id := row']> c
  | None => c
  end.

(** Lines 143-146 and 286-289: the row of [id], made when there is
    none, gets [ref] under [refStr]. *)
Definition cache_remember (id : image_ID) (refStr : string) (ref : Named)
    (c : gmap image_ID (gmap string Named)) : gmap image_ID (gmap string Named) :=
  <[id := <[refStr := ref]> (default ∅ (c !! id))]> c.

Definition addReference (ref : Named) (id : image_ID) (force : bool)
    (s : store) (fs : FS) : store * FS * result (option error) :=
  let familiarName := reference.Name (reference.FamiliarName ref) in
  if String.eqb familiarName reference.digest_Canonical then
    (s, fs, Done (Some (errors_New
       "refusing to create an ambiguous tag using digest algorithm as name")))
  else
    let made :=
      match Repositories_index s familiarName with
      | Some (Some repository) => Some (repository, s)
      | _ =>
          (* repository = make(map[string]image.ID)
             store.Repositories[familiarName] = repository *)
          match Repositories s with
          | Some rs => Some (∅, with_Repositories (Some (<[familiarName := Some ∅]> rs)) s)
          | None => None
          end
      end in
    match made with
    | None => (s, fs, Panic assignment_to_entry_in_nil_map)
    | Some (repository, s) =>
        let refStr := reference.String (reference.FamiliarName ref) in
        let publish (s : store) :=
          let s :=
            with_Repositories
              (Some (<[familiarName := Some (<[refStr := id]> repository)]>
                       (default ∅ (Repositories s)))) s in
          let s :=
            with_referencesByIDCache
              (cache_remember id refStr ref (referencesByIDCache s)) s in
          let '(fs, err) := save s fs in
          (s, fs, Done err) in
        match repository !! refStr with
        | Some oldID =>
            (* force only works for tags *)
            match reference.Canonical ref with
            | Some digest =>
                (s, fs, Done (Some (errors_New ("Cannot overwrite digest " +:+ digest))))
            | None =>
                if negb force then
                  (s, fs, Done (Some (errors_New
                     ("Conflict: Tag " +:+ refStr +:+ " is already set to image "
                      +:+ oldID +:+ ", if you want to replace it, please use -f option"))))
                else
                  publish (with_referencesByIDCache
                             (cache_forget oldID refStr (referencesByIDCache s)) s)
            end
        | None => publish s
        end
    end.

(** [AddTag] adds a tag reference to the store.  If force is set to
    true, existing references can be overwritten.  This only works for
    tags, not digests. *)
Definition AddTag (ref : Named) (id : image_ID) (force : bool)
    (s : store) (fs : FS) : store * FS * result (option error) :=
  match reference.Canonical ref with
  | Some _ =>
      (s, fs, Done (Some (errors_New "refusing to create a tag with a digest reference")))
  | None => addReference (reference.EnsureTagged ref) id force s fs
  end.

(** [AddDigest] adds a digest reference to the store; its argument is
    a [reference.Canonical]. *)
Definition AddDigest (ref : Named) (id : image_ID) (force : bool)
    (s : store) (fs : FS) : store * FS * result (option error) :=
  addReference ref id force s fs.

(** [Delete] deletes a reference from the store.  It returns true if a
    deletion happened, or false otherwise. *)
Definition Delete (ref : Named) (s : store) (fs : FS)
    : store * FS * (bool * option error) :=
  let ref := if reference.IsNameOnly ref then reference.EnsureTagged ref else ref in
  let repoName := reference.Name (reference.FamiliarName ref) in
  match Repositories_index s repoName with
  | None => (s, fs, (false, Some ErrDoesNotExist))
  | Some repository =>
      let refStr := reference.String (reference.FamiliarName ref) in
      match repository_index repository refStr with
      | Some id =>
          let repository := delete refStr (default ∅ repository) in
          let rs := default ∅ (Repositories s) in
          let s :=
            with_Repositories
              (Some (if decide (size repository = 0) then delete repoName rs
                     else <[repoName := Some repository]> rs)) s in
          let s :=
            with_referencesByIDCache
              (cache_forget id refStr (referencesByIDCache s)) s in
          let '(fs, err) := save s fs in
          (s, fs, (true, err))
      | None => (s, fs, (false, Some ErrDoesNotExist))
      end
  end.

(** [Get] retrieves an item from the store by reference. *)
Definition Get (ref : Named) (s : store) : error + image_ID :=
  let ref := if reference.IsNameOnly ref then reference.EnsureTagged ref else ref in
  let ref := reference.FamiliarName ref in
  match Repositories_index s (reference.Name ref) with
  | Some (Some repository) =>
      match repository !! reference.String (reference.FamiliarName ref) with
      | Some id => inr id
      | None => inl ErrDoesNotExist
      end
  | _ => inl ErrDoesNotExist
  end.

(** [References] returns a slice of references to the given image ID.
    The slice will be nil if there are no references to this image
    ID. *)
Definition References (id : image_ID) (s : store) : list Named :=
  sort_Sort lexicalRefs_Less
    (map_to_list (default ∅ (referencesByIDCache s !! id))).*2.

(** The loop of [ReferencesByName]: [None] when it returns nil from
    inside the loop. *)
Fixpoint ReferencesByName_range (entries : list (string * image_ID))
    : option (list Association) :=
  match entries with
  | [] => Some []
  | (refStr, refID) :: entries' =>
      match reference.NormalizedName refStr with
      | None => None
      | Some ref =>
          match ReferencesByName_range entries' with
          | None => None
          | Some associations => Some ({| Ref := ref; ImageID := refID |} :: associations)
          end
      end
  end.

(** [ReferencesByName] returns the references for a given repository
    name.  If there are no references known for this repository name,
    [ReferencesByName] returns nil. *)
Definition ReferencesByName (ref : Named) (s : store) : list Association :=
  match Repositories_index s (reference.Name (reference.FamiliarName ref)) with
  | None => []
  | Some repository =>
      match ReferencesByName_range (map_to_list (default ∅ repository)) with
      | None => []
      | Some associations => sort_Sort lexicalAssociations_Less associations
      end
  end.

(** The loops of [reload] (lines 279-291): every tag of every
    repository whose key parses is remembered in the cache. *)
Definition reload_range_repository (entries : list (string * image_ID))
    (c : gmap image_ID (gmap string Named)) : gmap image_ID (gmap string Named) :=
  foldl (λ c '(refStr, refID),
           match reference.NormalizedName refStr with
           | None => c
           | Some ref => cache_remember refID refStr ref c
           end) c entries.

Definition reload_range_Repositories (rs : option (gmap string repository))
    (c : gmap image_ID (gmap string Named)) : gmap image_ID (gmap string Named) :=
  foldl (λ c '(_, repository),
           reload_range_repository (map_to_list (default ∅ repository)) c)
    c (map_to_list (default ∅ rs)).

(** [reload] is called by [NewReferenceStore] alone, on the store that
    it has made; an error of [reload] leaves that store to the
    garbage. *)
Definition reload (s : store) (fs : FS) : result (error + store) :=
  match os_Open fs (jsonPath s) with
  | inl err => Done (inl err)
  | inr content =>
      match json_Decode E content with
      | inl msg => Done (inl (json_error msg))
      | inr decoded_null => Panic nil_pointer_dereference
      | inr (decoded_store rs) =>
          Done (inr (with_referencesByIDCache
                       (reload_range_Repositories rs (referencesByIDCache s))
                       (with_Repositories rs s)))
      end
  end.

(** [NewReferenceStore] creates a new reference store, tied to a file
    path where the set of references are serialized in JSON format. *)
Definition NewReferenceStore (jsonPath : string) (fs : FS) : FS * result (error + store) :=
  match filepath_Abs E jsonPath with
  | inl err => (fs, Done (inl err))
  | inr abspath =>
      let s := {| jsonPath := abspath; Repositories := Some ∅;
                  referencesByIDCache := ∅ |} in
      (* Load the json file if it exists, otherwise create it. *)
      match reload s fs with
      | Panic f => (fs, Panic f)
      | Done (inr s') => (fs, Done (inr s'))
      | Done (inl err) =>
          if os_IsNotExist (Some err) then
            match save s fs with
            | (fs', Some err) => (fs', Done (inl err))
            | (fs', None) => (fs', Done (inr s))
            end
          else (fs, Done (inl err))
      end
  end.
End Store.

Global Arguments store : clear implicits.
Global Arguments Association : clear implicits.
End refstore.

(** ** Vocabulary of the properties of the reference store *)

Module refstore_spec.
Import refstore.

Section Spec.
Context {Named : Type} `{!reference.Package Named}.

(** The image that the store has under the key [refStr] of the
    repository [name], and the reference that the cache has under
    [refStr] in the row of [id]. *)
Definition tagged (s : store Named) (name refStr : string) : option image_ID :=
  match Repositories_index s name with
  | Some repository => repository_index repository refStr
  | None => None
  end.

Definition cached (s : store Named) (id : image_ID) (refStr : string) : option Named :=
  default ∅ (referencesByIDCache s !! id) !! refStr.

(** The repository and the key under which the store files a
    reference. *)
Definition repo_of (ref : Named) : string := reference.Name (reference.FamiliarName ref).
Definition key_of (ref : Named) : string := reference.String (reference.FamiliarName ref).

(** The reference that [Delete] and [Get] work on. *)
Definition tagged_or_same (ref : Named) : Named :=
  if reference.IsNameOnly ref then reference.EnsureTagged ref else ref.

(** The order of the result of [sort.Sort] by [String()]. *)
Definition lexical (x y : string) : Prop := String.ltb y x = false.

(** The cache and the repositories hold the same tags: a reference in
    the row of [id] is filed under its key in its repository with [id],
    and a tag of a repository has a reference of that repository in
    the row of its image. *)
Definition coherent (s : store Named) : Prop :=
  (∀ id refStr ref, cached s id refStr = Some ref →
     refStr = key_of ref ∧ tagged s (repo_of ref) refStr = Some id) ∧
  (∀ name refStr id, tagged s name refStr = Some id →
     ∃ ref, cached s id refStr = Some ref ∧ repo_of ref = name).

(** The store [s'] is the store [s] with [ref] filed for the image
    [id], in the place of the image [old] if there was one. *)
Definition files (s s' : store Named) (ref : Named) (id : image_ID)
    (old : option image_ID) : Prop :=
  jsonPath s' = jsonPath s ∧ Repositories s' ≠ None ∧
  (∀ n k, tagged s' n k =
            if decide (n = repo_of ref ∧ k = key_of ref) then Some id else tagged s n k) ∧
  (∀ i k, cached s' i k =
            if decide (i = id ∧ k = key_of ref) then Some ref
            else if decide (Some i = old ∧ k = key_of ref) then None
            else cached s i k).

(** The store [s'] is the store [s] without the tag [k] of the
    repository [name], which was for the image [id]. *)
Definition unfiles (s s' : store Named) (name k : string) (id : image_ID) : Prop :=
  jsonPath s' = jsonPath s ∧ Repositories s' ≠ None ∧
  (∀ n k', tagged s' n k' = if decide (n = name ∧ k' = k) then None else tagged s n k') ∧
  (∀ i k', cached s' i k' = if decide (i = id ∧ k' = k) then None else cached s i k').

(** Laws of the package [reference] that properties of the store need:
    the familiar form of a familiar form is itself, a reference that is
    more than a name needs no tag, and the key of a reference tells its
    repository. *)
Definition familiar_idempotent : Prop :=
  ∀ ref : Named,
    reference.FamiliarName (reference.FamiliarName ref) = reference.FamiliarName ref.
Definition tag_only_names : Prop :=
  ∀ ref : Named, reference.IsNameOnly ref = false → reference.EnsureTagged ref = ref.
Definition key_tells_repo : Prop :=
  ∀ ref ref' : Named, key_of ref = key_of ref' → repo_of ref = repo_of ref'.
End Spec.
End refstore_spec.

(** ** Further scenarios *)

Module Scenario_more.
Import Scenario.

Definition start : StateInfo := {| StateInfo_State := StateStart; ExitCode := 0 |}.

(** A Controller of a plugin that is being disabled: no restart intent
    and an open exit signal. *)
Definition disabling : controller :=
  {| restart := false; exitChan := Some 7%positive; timeoutInSecs := 10 |}.

(** A world in which the exit signal of the tracked plugin is closed. *)
Definition signal_closed : World := set_closed (λ _, {[7%positive]}) (tracked open_signal).

(** Nothing can be created: the file system is read-only. *)
Definition read_only : Env :=
  env [] [] [] (λ _, Some (errors_New "read-only file system")) (λ _, None) (λ _, None).

(** The error of [loadPlugin] for the entry [idB] of [missing_B]. *)
Definition missing_B_error : error :=
  errors_Wrapf (errors_New "no such file or directory") "error reading " (config_of idB).

(** The disk of [reattach_fails], with collaborators that accept every
    call. *)
Definition both_recover : Env :=
  env [idA; "tmp"; idB]
    [(config_of idA, "A"); (config_of "tmp", "A"); (config_of idB, "B")]
    [("A", recordA); ("B", recordB)]
    (λ _, None) (λ _, None) (λ _, None).

(** A record that declares a capability of another type than
    volumedriver and graphdriver, and whose [config.json] carries a
    [PropagatedMount] from an earlier run. *)
Definition authz : types.PluginInterfaceType :=
  {| types.Capability := "authz"; types.Prefix := "docker"; types.Version := "1.0" |}.
Definition recordC : v2.Plugin := plugin idB true "" "/stale/mnt" [authz] "/data".

(** Only [recordC]. *)
Definition stale_mount : Env :=
  env [idB] [(config_of idB, "C")] [("C", recordC)] (λ _, None) (λ _, None) (λ _, None).
End Scenario_more.

(** ** Scenarios of the reference store *)

Module refstore_scenario.
Import refstore.

(** A package [reference] for the scenarios: a reference is its familiar
    string, [name], [name:tag] or [name@digest]. *)
Fixpoint before (stop : ascii → bool) (s : string) : string :=
  match s with
  | EmptyString => EmptyString
  | String a s' => if stop a then EmptyString else String a (before stop s')
  end.

Fixpoint after (stop : ascii → bool) (s : string) : option string :=
  match s with
  | EmptyString => None
  | String a s' => if stop a then Some s' else after stop s'
  end.

Definition separator (a : ascii) : bool := Ascii.eqb a ":" || Ascii.eqb a "@".

#[export] Instance familiar : reference.Package string := {|
  reference.Name := before separator;
  reference.String := λ ref, ref;
  reference.Canonical := after (Ascii.eqb "@");
  reference.EnsureTagged :=
    λ ref, if String.eqb (before separator ref) ref then ref +:+ ":latest" else ref;
  reference.IsNameOnly := λ ref, String.eqb (before separator ref) ref;
  reference.FamiliarName := λ ref, ref;
  reference.NormalizedName := λ refStr, if String.eqb refStr "" then None else Some refStr;
  reference.digest_Canonical := "sha256"
|}.

Definition no_tags : option (gmap string repository) := Some ∅.
Definition ubuntu_latest : option (gmap string repository) :=
  Some {[ "ubuntu" := Some {[ "ubuntu:latest" := "sha256:aa" ]} ]}.

(** A disk with room, and an encoder and a decoder that know the two
    contents of the scenarios. *)
Definition disk : Env := {|
  filepath_Abs := λ path, inr ("/var/lib/docker/" +:+ path);
  json_Marshal := λ rs,
    if decide (rs = no_tags) then inr "{Repositories:{}}"
    else if decide (rs = ubuntu_latest)
      then inr "{Repositories:{ubuntu:{ubuntu:latest:sha256:aa}}}"
    else inl "json: unsupported value";
  json_Decode := λ data,
    if String.eqb data "{Repositories:{}}" then inr (decoded_store no_tags)
    else if String.eqb data "{Repositories:{ubuntu:{ubuntu:latest:sha256:aa}}}"
      then inr (decoded_store ubuntu_latest)
    else inl "invalid character";
  open_fails := λ _ _, None;
  write_fails := λ _ _, None
|}.

(** The same, without room. *)
Definition full_disk : Env := {|
  filepath_Abs := filepath_Abs disk;
  json_Marshal := json_Marshal disk;
  json_Decode := json_Decode disk;
  open_fails := open_fails disk;
  write_fails := λ _ _, Some (os_error "no space left on device" false)
|}.

Definition path : string := "/var/lib/docker/repositories.json".

Definition fresh : store string :=
  {| jsonPath := path; Repositories := no_tags; referencesByIDCache := ∅ |}.

Definition one_tag : store string :=
  {| jsonPath := path; Repositories := ubuntu_latest;
     referencesByIDCache := {[ "sha256:aa" := {[ "ubuntu:latest" := "ubuntu:latest" ]} ]} |}.

Definition one_digest : store string :=
  {| jsonPath := path;
     Repositories := Some {[ "ubuntu" := Some {[ "ubuntu@sha256:cc" := "sha256:aa" ]} ]};
     referencesByIDCache :=
       {[ "sha256:aa" := {[ "ubuntu@sha256:cc" := "ubuntu@sha256:cc" ]} ]} |}.

(** A store as it can be read from a file: its repository is named as
    the digest algorithm and has a tag and a digest reference. *)
Definition named_sha256 : store string :=
  {| jsonPath := path;
     Repositories :=
       Some {[ "sha256" := Some {[ "sha256:latest" := "sha256:aa";
                                   "sha256@sha256:cc" := "sha256:aa" ]} ]};
     referencesByIDCache :=
       {[ "sha256:aa" := {[ "sha256:latest" := "sha256:latest";
                            "sha256@sha256:cc" := "sha256@sha256:cc" ]} ]} |}.

(** The store that the decoder leaves for a file with a null
    [Repositories]. *)
Definition null_Repositories : store string :=
  {| jsonPath := path; Repositories := None; referencesByIDCache := ∅ |}.

Definition fresh_file : FS := {[ path := ("{Repositories:{}}", mode_0600) ]}.
Definition one_tag_file : FS :=
  {[ path := ("{Repositories:{ubuntu:{ubuntu:latest:sha256:aa}}}", mode_0600) ]}.
End refstore_scenario.

(** * Properties *)

(** ** Running a program *)

Section Running.
Variable E : Env.

Lemma exec_bind {S A B} par t (m : Prog S A) (f : A → Prog S B) w :
  exec E par t (bind m f) w =
  match exec E par t m w with
  | (w1, Returned a) => exec E par t (f a) w1
  | (w1, Panicked x) => (w1, Panicked x)
  end.
Proof.
  revert w. induction m as [a|x|R op k IH|ts k IH]; intros w; simpl; try done.
  - destruct (perform E t op w) as [w' r]. apply IH.
  - destruct (par ts w) as [w' [x|]]; [done|apply IH].
Qed.

Lemma run_bind {A B} t (m : Prog Empty_set A) (f : A → Prog Empty_set B) w :
  run E t (bind m f) w =
  match run E t m w with
  | (w1, Returned a) => run E t (f a) w1
  | (w1, Panicked x) => (w1, Panicked x)
  end.
Proof. apply exec_bind. Qed.

(** An operation only adds its own entries to the history. *)
Lemma perform_trace {R} t (op : Op R) w :
  trace (perform E t op w).1 = trace w ++ map (pair t) (emit op (perform E t op w).2).
Proof.
  unfold perform. destruct (effect E op w) as [w' r] eqn:He. cbn [fst snd].
  assert (trace w' = trace w) as <-.
  { destruct op; simpl in He; try (by inversion He).
    destruct (decide _); by inversion He. }
  unfold record. destruct (emit op r); simpl; [by rewrite app_nil_r|done].
Qed.

Lemma perform_chan_close t ch w :
  perform E t (chan_close ch) w =
  if decide (ch ∈ closed w) then (w, false)
  else (record t [EvClose ch] (set_closed (union {[ch]}) w), true).
Proof. unfold perform. simpl. by destruct (decide _). Qed.
End Running.

(** ** StateChanged *)

Section StateChanged_properties.
Variable E : Env.

(** C5. An exit notification for an identity that the Plugin Store does
    not know returns the error of the lookup to the caller; the handler
    has logged the notification and asked the Store, and nothing else:
    the records, the Controllers, the Controller table, the lock, the
    Store and the channels are as before, and the history gains no close,
    no removal from disk, no unmount and no enable. *)
Theorem StateChanged_unknown_identity (id : string) (e : StateInfo) (w : World) :
  StateInfo_State e = StateExit →
  Store_plugins w !! id = None →
  ∃ w' err,
    run E Caller (StateChanged id e) w = (w', Returned (Some err)) ∧
    controllers w' = controllers w ∧ cMap w' = cMap w ∧
    mu_readers w' = mu_readers w ∧ closed w' = closed w ∧
    plugin_objs w' = plugin_objs w ∧ Store_plugins w' = Store_plugins w ∧
    trace w' = trace w ++ [(Caller, debug_entry id e); (Caller, EvGetByID id (inl err))].
Proof.
  intros He Hs. unfold StateChanged, run. rewrite He. cbn.
  rewrite Hs.
  eexists _, _. split; [reflexivity|]. cbn. by rewrite <- app_assoc.
Qed.

(** C9. For an exit notification whose identity the Plugin Store resolves
    to a record, the handler faults on a nil Controller exactly when the
    Controller table has no entry for that record; it then has only
    logged the notification and asked the Store, and still holds the read
    lock. *)
Theorem StateChanged_needs_controller (id : string) (e : StateInfo) (w : World) (p : ptr) :
  StateInfo_State e = StateExit →
  Store_plugins w !! id = Some p →
  ((run E Caller (StateChanged id e) w).2 = Panicked nil_pointer_dereference
     ↔ cMap w !! p = None) ∧
  (cMap w !! p = None →
     let w' := (run E Caller (StateChanged id e) w).1 in
     trace w' = trace w ++ [(Caller, debug_entry id e); (Caller, EvGetByID id (inr p))] ∧
     mu_readers w' = Datatypes.S (mu_readers w) ∧
     controllers w' = controllers w ∧ closed w' = closed w).
Proof.
  intros He Hs. unfold StateChanged, run. rewrite He. cbn.
  rewrite Hs. cbn.
  split.
  - destruct (cMap w !! p) as [c|] eqn:Hc; cbn; [|done].
    split; [|done]. intros H. exfalso.
    destruct (exitChan (controllers w !!! c)) as [ch|]; cbn in H.
    + rewrite perform_chan_close in H. cbn in H.
      destruct (decide (ch ∈ closed w)); cbn in H; [done|].
      destruct (negb _); cbn in H.
      * destruct (reply_Unmount _ _ _); cbn in H;
          destruct (restart _); cbn in H; done.
      * destruct (restart _); cbn in H; done.
    + destruct (negb _); cbn in H.
      * destruct (reply_Unmount _ _ _); cbn in H;
          destruct (restart _); cbn in H; done.
      * destruct (restart _); cbn in H; done.
  - intros ->. cbn. by rewrite <- app_assoc.
Qed.

(** C2 (as amended). For an exit notification whose identity resolves to
    a record with a Controller whose exit signal is not already closed,
    the handler returns nil and its history is, in this order: the log of
    the notification and the lookup; the close of the exit signal when
    the Controller has one (none for a nil signal); the removal of the
    on-disk state; the unmount of [PropagatedMount] when it is not empty,
    with a warning when the unmount fails; the enable of the record under
    its Controller when the restart intent read under the lock was true. *)
Theorem StateChanged_exit_order (id : string) (e : StateInfo) (w : World) (p : ptr) (c : cptr) :
  StateInfo_State e = StateExit →
  Store_plugins w !! id = Some p →
  cMap w !! p = Some c →
  (∀ ch, exitChan (controllers w !!! c) = Some ch → ch ∉ closed w) →
  ∃ w' r_unmount r_enable,
    run E Caller (StateChanged id e) w = (w', Returned None) ∧
    trace w' = trace w ++ map (pair Caller)
      ([debug_entry id e; EvGetByID id (inr p)]
         ++ closing (controllers w !!! c)
         ++ [EvRemoveFromDisk p]
         ++ unmounting (deref w p) r_unmount
         ++ enabling p c (controllers w !!! c) r_enable) ∧
    mu_readers w' = mu_readers w.
Proof.
  intros He Hs Hc Hopen. unfold StateChanged, run. rewrite He. cbn.
  rewrite Hs. cbn. rewrite Hc. cbn. unfold closing, unmounting, enabling. cbn.
  destruct (exitChan (controllers w !!! c)) as [ch|] eqn:Hch; cbn.
  - rewrite perform_chan_close. cbn.
    destruct (decide (ch ∈ closed w)) as [Hin|_]; [by destruct (Hopen ch)|]. cbn.
    destruct (negb (v2.PropagatedMount (plugin_objs w !!! p) =? "")); cbn.
    + destruct (reply_Unmount _ _ _) as [err|]; cbn.
      * destruct (restart _); cbn;
          [eexists _, (Some err), _ | eexists _, (Some err), None];
          (split; [reflexivity|]); cbn; rewrite <- ?app_assoc; done.
      * destruct (restart _); cbn;
          [eexists _, None, _ | eexists _, None, None];
          (split; [reflexivity|]); cbn; rewrite <- ?app_assoc; done.
    + destruct (restart _); cbn;
        [eexists _, None, _ | eexists _, None, None];
        (split; [reflexivity|]); cbn; rewrite <- ?app_assoc; done.
  - destruct (negb (v2.PropagatedMount (plugin_objs w !!! p) =? "")); cbn.
    + destruct (reply_Unmount _ _ _) as [err|]; cbn.
      * destruct (restart _); cbn;
          [eexists _, (Some err), _ | eexists _, (Some err), None];
          (split; [reflexivity|]); cbn; rewrite <- ?app_assoc; done.
      * destruct (restart _); cbn;
          [eexists _, None, _ | eexists _, None, None];
          (split; [reflexivity|]); cbn; rewrite <- ?app_assoc; done.
    + destruct (restart _); cbn;
        [eexists _, None, _ | eexists _, None, None];
        (split; [reflexivity|]); cbn; rewrite <- ?app_assoc; done.
Qed.
End StateChanged_properties.

(** ** Phase 1 of reload: scanning the root directory *)

Section Phase1.
Variable E : Env.
Variable config : ManagerConfig.

Lemma exec_loadPlugin {S} par t (v : string) w :
  exec (S:=S) E par t (loadPlugin E config v) w =
  let w1 := record t [EvReadFile (config_path E config v)
                        (reply_ReadFile E (config_path E config v))] w in
  match config_json E config v with
  | inl err => (w1, Returned (inl err))
  | inr plugin =>
      (set_plugin_objs (<[fresh (dom (plugin_objs w)) := plugin]>) w1,
       Returned (inr (fresh (dom (plugin_objs w)))))
  end.
Proof.
  unfold loadPlugin, config_json, config_path. cbn.
  destruct (reply_ReadFile E _) as [err|dt]; cbn; [done|].
  destruct (json_Unmarshal E dt) as [err|plugin]; cbn; done.
Qed.

Lemma same_PluginObj_refl w : same_PluginObj w w.
Proof. intros p v Hp. eauto. Qed.

Lemma same_PluginObj_trans w1 w2 w3 :
  same_PluginObj w1 w2 → same_PluginObj w2 w3 → same_PluginObj w1 w3.
Proof.
  intros H12 H23 p v Hp. destruct (H12 p v Hp) as (v2 & Hp2 & Hv2).
  destruct (H23 p v2 Hp2) as (v3 & Hp3 & Hv3). exists v3. split; [done|congruence].
Qed.

(** The loop over the directory: it reads the [config.json] of the
    entries in the full-ID format and of no other, stops at the first
    one that does not load, and touches nothing but the heap of records,
    where it only allocates. *)
Lemma exec_reload_range_dir {S} par t (dir : list string) :
  ∀ (plugins : gmap string ptr) (w : World),
  ∃ w' r evs,
    exec (S:=S) E par t (reload_range_dir E config dir plugins) w = (w', Returned r) ∧
    trace w' = trace w ++ map (pair t) evs ∧
    Forall (reads_matching_entry E config dir) evs ∧
    Store_plugins w' = Store_plugins w ∧ cMap w' = cMap w ∧
    controllers w' = controllers w ∧ closed w' = closed w ∧
    mu_readers w' = mu_readers w ∧
    (∀ p v, plugin_objs w !! p = Some v → plugin_objs w' !! p = Some v) ∧
    match r with
    | inl err =>
        ∃ v, v ∈ dir ∧ validFullID v = true ∧ config_json E config v = inl err
    | inr m =>
        (∀ v, v ∈ dir → validFullID v = true → ∃ plugin, config_json E config v = inr plugin) ∧
        dom m = dom plugins ∪ list_to_set (loaded_ids E config dir) ∧
        (∀ id p, m !! id = Some p →
           plugins !! id = Some p ∨
           ∃ v plugin, v ∈ dir ∧ validFullID v = true ∧
             config_json E config v = inr plugin ∧ v2.GetID plugin = id ∧
             plugin_objs w' !! p = Some plugin)
    end.
Proof.
  induction dir as [|v dir IH]; intros plugins w.
  - exists w, (inr plugins), []. cbn. rewrite app_nil_r.
    repeat split; try done.
    + intros v Hv. by apply elem_of_nil in Hv.
    + set_solver.
    + intros id p Hp. by left.
  - cbn [reload_range_dir]. destruct (validFullID v) eqn:Hvalid.
    + rewrite exec_bind, exec_loadPlugin. cbn zeta.
      destruct (config_json E config v) as [err|plugin] eqn:Hload.
      * eexists _, (inl err), [_]. cbn. repeat split; try done.
        -- constructor; [|done]. exists v. split; [left|done].
        -- exists v. split; [left|done].
      * cbn. set (a := fresh (dom (plugin_objs w))).
        assert (plugin_objs w !! a = None) as Hfresh.
        { apply not_elem_of_dom. apply is_fresh. }
        rewrite lookup_total_insert_eq.
        match goal with |- context [exec E par t _ ?w1] =>
          destruct (IH (<[v2.GetID plugin := a]> plugins) w1)
            as (w' & r & evs & Hrun & Htr & Hevs & Hst & Hcm & Hct & Hcl & Hmu & Hheap & Hr)
        end.
        cbn in Htr, Hst, Hcm, Hct, Hcl, Hmu, Hheap.
        exists w', r, (EvReadFile (config_path E config v)
                         (reply_ReadFile E (config_path E config v)) :: evs).
        split; [exact Hrun|]. split; [by rewrite Htr, <- app_assoc|].
        split.
        { constructor.
          - exists v. split; [left|done].
          - eapply Forall_impl; [exact Hevs|].
            intros ev (v' & Hin & Hv' & ->). exists v'. split; [by right|done]. }
        repeat (split; [done|]).
        split.
        { intros p pv Hp. apply Hheap. rewrite lookup_insert_ne; [done|congruence]. }
        destruct r as [err|m].
        -- destruct Hr as (v' & Hin & Hv' & Hl). exists v'. split; [by right|done].
        -- destruct Hr as (Hall & Hdom & Hm). split; [|split].
           ++ intros v' Hin Hv'. apply elem_of_cons in Hin as [->|Hin]; [eauto|by apply Hall].
           ++ rewrite Hdom, dom_insert_L. unfold loaded_ids. cbn.
              rewrite Hvalid, Hload. cbn. set_solver.
           ++ intros id p Hp. destruct (Hm id p Hp) as [Hins|(v' & pl & Hin & Hv' & Hl & Hid & Hobj)].
              ** destruct (decide (v2.GetID plugin = id)) as [<-|Hne].
                 --- rewrite lookup_insert_eq in Hins. injection Hins as <-.
                     right. exists v, plugin. repeat split; try done; [left|].
                     apply Hheap. by rewrite lookup_insert_eq.
                 --- rewrite lookup_insert_ne in Hins by done. by left.
              ** right. exists v', pl. repeat split; try done. by right.
    + destruct (IH plugins w)
        as (w' & r & evs & Hrun & Htr & Hevs & Hst & Hcm & Hct & Hcl & Hmu & Hheap & Hr).
      exists w', r, evs. split; [exact Hrun|]. split; [done|]. split.
      { eapply Forall_impl; [exact Hevs|].
        intros ev (v' & Hin & Hv' & ->). exists v'. split; [by right|done]. }
      repeat (split; [done|]).
      destruct r as [err|m].
      * destruct Hr as (v' & Hin & Hv' & Hl). exists v'. split; [by right|done].
      * destruct Hr as (Hall & Hdom & Hm). split; [|split].
        -- intros v' Hin Hv'. apply elem_of_cons in Hin as [->|Hin]; [congruence|by apply Hall].
        -- rewrite Hdom. unfold loaded_ids. cbn. by rewrite Hvalid.
        -- intros id p Hp. destruct (Hm id p Hp) as [?|(v' & pl & Hin & ?)]; [by left|].
           right. exists v', pl. split; [by right|done].
Qed.

Lemma exec_reload_range_dir_result {S} par t (dir : list string) :
  ∀ (plugins : gmap string ptr) (w : World) r,
  (exec (S:=S) E par t (reload_range_dir E config dir plugins) w).2 = Returned r →
  first_load_error E config dir =
    match r with inl err => Some err | inr _ => None end.
Proof.
  induction dir as [|v dir IH]; intros plugins w r; cbn [reload_range_dir first_load_error].
  - cbn. by intros [= <-].
  - destruct (validFullID v); [|apply IH].
    rewrite exec_bind, exec_loadPlugin. cbn zeta.
    destruct (config_json E config v) as [err|plugin]; [by intros [= <-]|].
    cbn. apply IH.
Qed.
End Phase1.

(** ** What every operation keeps *)

Section Preserved.
Variable E : Env.
Variable Rel : World → World → Prop.
Hypothesis Rel_refl : ∀ w, Rel w w.
Hypothesis Rel_trans : ∀ w1 w2 w3, Rel w1 w2 → Rel w2 w3 → Rel w1 w3.
Hypothesis Rel_perform : ∀ R t (op : Op R) w, Rel w (perform E t op w).1.

Lemma exec_preserved {S A} par t (m : Prog S A) :
  (∀ ts w, Rel w (par ts w).1) →
  ∀ w, Rel w (exec E par t m w).1.
Proof.
  intros Hpar. induction m as [a|x|R op k IH|ts k IH]; intros w; simpl; try done.
  - specialize (Rel_perform R t op w). destruct (perform E t op w) as [w' r].
    eapply Rel_trans; [exact Rel_perform|apply IH].
  - specialize (Hpar ts w). destruct (par ts w) as [w' [x|]]; [done|].
    eapply Rel_trans; [exact Hpar|apply IH].
Qed.

Lemma run_preserved {A} t (m : Prog Empty_set A) w : Rel w (run E t m w).1.
Proof. apply exec_preserved. intros ts w0. apply Rel_refl. Qed.

Lemma step_preserved tk w : Rel w (step E tk w).1.
Proof.
  destruct tk as [t [a|x|R op k|ts k]]; simpl; try done.
  specialize (Rel_perform R t op w). by destruct (perform E t op w).
Qed.

Lemma drain_preserved pool : ∀ w, Rel w (drain E pool w).1.
Proof.
  induction pool as [|[t m] pool IH]; intros w; simpl; [done|].
  pose proof (run_preserved t m w) as Hrun.
  destruct (run E t m w) as [w' [a|x]]; [|done].
  eapply Rel_trans; [exact Hrun|apply IH].
Qed.

Lemma interleave_preserved sched : ∀ pool w, Rel w (interleave E sched pool w).1.
Proof.
  induction sched as [|i sched IH]; intros pool w; simpl; [apply drain_preserved|].
  destruct (pool !! i) as [[t m]|]; [|apply IH].
  pose proof (step_preserved (t, m) w) as Hstep.
  destruct m as [a|x|R op k|ts k]; try done;
    destruct (step E _ w) as [w' tk']; (eapply Rel_trans; [exact Hstep|apply IH]).
Qed.

Lemma exec_go_preserved {A} sched t (m : Prog Task A) w :
  Rel w (exec_go E sched t m w).1.
Proof. apply exec_preserved. intros ts w0. apply interleave_preserved. Qed.
End Preserved.

Section Frames.
Variable E : Env.

(** The identity and the declared configuration of a record are never
    written. *)
Lemma perform_same_PluginObj {R} t (op : Op R) w : same_PluginObj w (perform E t op w).1.
Proof.
  unfold perform. destruct (effect E op w) as [w' r] eqn:He. cbn [fst].
  assert (same_PluginObj w w') as Hw.
  { destruct op; simpl in He;
      try (injection He as <- <-; by intros q pv Hq; eauto).
    - injection He as <- <-. intros q pv Hq. cbn. exists pv. split; [|done].
      rewrite lookup_insert_ne; [done|]. intros <-.
      pose proof (is_fresh (dom (plugin_objs w))) as Hf.
      apply Hf. apply elem_of_dom. eauto.
    - injection He as <- <-. intros q pv Hq. cbn.
      destruct (decide (p = q)) as [->|Hne].
      + rewrite lookup_insert_eq. eexists. split; [done|].
        by rewrite (lookup_total_correct _ _ _ Hq).
      + rewrite lookup_insert_ne by done. eauto.
    - injection He as <- <-. intros q pv Hq. cbn.
      destruct (decide (p = q)) as [->|Hne].
      + rewrite lookup_insert_eq. eexists. split; [done|].
        by rewrite (lookup_total_correct _ _ _ Hq).
      + rewrite lookup_insert_ne by done. eauto.
    - destruct (decide _); injection He as <- <-; by intros q pv Hq; eauto. }
  intros q pv Hq. destruct (Hw q pv Hq) as (v' & Hq' & Hv').
  exists v'. split; [|done]. unfold record. by destruct (emit op r).
Qed.

Lemma exec_go_same_PluginObj {A} sched t (m : Prog Task A) w :
  same_PluginObj w (exec_go E sched t m w).1.
Proof.
  apply exec_go_preserved.
  - intros w0 q v Hq. eauto.
  - intros w1 w2 w3 H12 H23 q v Hq. destruct (H12 q v Hq) as (v2 & Hq2 & Hv2).
    destruct (H23 q v2 Hq2) as (v3 & Hq3 & Hv3). exists v3. split; [done|congruence].
  - intros R t0 op w0. apply perform_same_PluginObj.
Qed.

(** The history only grows. *)
Lemma exec_go_trace {A} sched t (m : Prog Task A) w :
  ∃ evs, trace (exec_go E sched t m w).1 = trace w ++ evs.
Proof.
  apply (exec_go_preserved E (λ w w', ∃ evs, trace w' = trace w ++ evs)).
  - intros w0. exists []. by rewrite app_nil_r.
  - intros w1 w2 w3 [e1 H1] [e2 H2]. exists (e1 ++ e2). by rewrite H2, H1, app_assoc.
  - intros R t0 op w0. eexists. apply perform_trace.
Qed.
End Frames.

(** ** The recovery task *)

Section Task.
Variable E : Env.
Variable config : ManagerConfig.

(** The loop over the declared capabilities: [k] rounds when every
    directory creation succeeds, fewer and a log entry when one fails.
    Once a round has run, the record carries the propagated mount. *)
Lemma exec_reload_range_Types {S} par t (p : ptr) (typs : list types.PluginInterfaceType) :
  ∀ w : World,
  let v := deref w p in
  let path := filepath_Join E [v2.Rootfs v; mount_path v] in
  let k := propagation_rounds v typs in
  ∃ w' b evs,
    exec (S:=S) E par t (reload_range_Types E p typs) w = (w', Returned b) ∧
    trace w' = trace w ++ map (pair t) evs ∧
    Store_plugins w' = Store_plugins w ∧ cMap w' = cMap w ∧
    controllers w' = controllers w ∧ closed w' = closed w ∧
    mu_readers w' = mu_readers w ∧
    plugin_objs w' =
      (if k is 0 then plugin_objs w
       else <[p := v2.with_PropagatedMount path v]> (plugin_objs w)) ∧
    ((b = true ∧ evs = concat (replicate k (round_ok p path))) ∨
     (b = false ∧ ∃ n err, n < k ∧
        evs = concat (replicate n (round_ok p path)) ++ round_failed p path err)).
Proof.
  induction typs as [|typ typs IH]; intros w; cbn zeta.
  - exists w, true, []. cbn. rewrite app_nil_r. unfold propagation_rounds.
    destruct (mount_path _ =? ""); cbn; repeat split; try done; by left.
  - cbn [reload_range_Types]. unfold propagation_rounds. cbn [List.filter].
    destruct (enables_rootfs_propagation typ) eqn:Htyp; [|apply IH].
    cbn. fold (mount_path (plugin_objs w !!! p)).
    destruct (mount_path (plugin_objs w !!! p) =? "") eqn:Hmnt; cbn.
    { specialize (IH w). cbn zeta in IH. unfold propagation_rounds in IH.
      cbn in IH. by rewrite Hmnt in IH. }
    set (v := plugin_objs w !!! p) in *.
    set (path := filepath_Join E [v2.Rootfs v; mount_path v]).
    destruct (reply_MkdirAll E _ path mode_0755) as [err|] eqn:Hmk; cbn.
    + eexists _, false, _. split; [reflexivity|]. cbn.
      split; [|repeat (split; [done|])].
      * instantiate (1 := round_failed p path err). by rewrite <- ?app_assoc.
      * right. split; [done|]. exists 0, err. split; [lia|done].
    + match goal with |- context [exec E par t _ ?w2] =>
        destruct (IH w2) as (w' & b & evs & Hrun & Htr & Hst & Hcm & Hct & Hcl & Hmu & Hheap & Hb)
      end.
      cbn in Htr, Hst, Hcm, Hct, Hcl, Hmu, Hheap, Hb.
      rewrite lookup_total_insert_eq in Hheap, Hb. cbn in Hheap, Hb.
      unfold propagation_rounds, mount_path in Hheap, Hb. cbn in Hheap, Hb.
      fold (mount_path v) in Hheap, Hb. fold v in Hheap, Hb.
      rewrite Hmnt in Hheap, Hb. fold path in Hheap, Hb.
      exists w', b, (round_ok p path ++ evs).
      split; [exact Hrun|]. split.
      { rewrite Htr. cbn. by rewrite <- ?app_assoc. }
      repeat (split; [done|]). split.
      * rewrite Hheap. destruct (length _); [done|]. by rewrite insert_insert_eq.
      * destruct Hb as [[-> ->]|(-> & n & err & Hn & ->)]; [left; by split|].
        right. split; [done|]. exists (Datatypes.S n), err. split; [lia|].
        cbn. by rewrite <- ?app_assoc.
Qed.

Lemma exec_restorePlugin {S} par t (p : ptr) w :
  exec (S:=S) E par t (restorePlugin config p) w =
  let r := if v2.IsEnabled (deref w p)
           then reply_restore E (record t [EvRestore p (ExecRoot config)] w) p
           else None in
  (record t (restore_events config p (deref w p) r) w, Returned r).
Proof.
  unfold restorePlugin, Plugin_IsEnabled, restore_events. cbn.
  destruct (v2.IsEnabled (plugin_objs w !!! p)); cbn; [|done].
  by rewrite <- app_assoc.
Qed.

Lemma rewritten_PluginObj v : v2.PluginObj (rewritten E config v) = v2.PluginObj v.
Proof. unfold rewritten. by destruct (v2.Rootfs v =? ""). Qed.

Lemma propagated_PluginObj v : v2.PluginObj (propagated E config v) = v2.PluginObj v.
Proof. unfold propagated. cbn. apply rewritten_PluginObj. Qed.

(** Step 2 of the task. *)
Lemma exec_rewrite_Rootfs {S} par t (p : ptr) w :
  let v := deref w p in
  ∃ w2,
    exec (S:=S) E par t
      (if negb (v2.Rootfs v =? "")
       then call (store_Rootfs p (rootfs_path E config v))
       else Ret ()) w = (w2, Returned ()) ∧
    trace w2 = trace w ++ map (pair t) (rootfs_events E config p v) ∧
    Store_plugins w2 = Store_plugins w ∧ cMap w2 = cMap w ∧
    controllers w2 = controllers w ∧ closed w2 = closed w ∧
    mu_readers w2 = mu_readers w ∧
    deref w2 p = rewritten E config v ∧
    (∀ q, q ≠ p → plugin_objs w2 !! q = plugin_objs w !! q).
Proof.
  cbn zeta. unfold rootfs_events, rewritten, deref.
  destruct (v2.Rootfs (plugin_objs w !!! p) =? ""); cbn.
  - exists w. by rewrite app_nil_r.
  - eexists. split; [reflexivity|]. cbn. rewrite lookup_total_insert_eq.
    repeat (split; [done|]). intros q Hq. by rewrite lookup_insert_ne.
Qed.

(** Steps 4 and 5 of the task. *)
Lemma exec_publish {S} par t (c : cptr) (p : ptr) w :
  let v := deref w p in
  ∃ w' r,
    exec (S:=S) E par t
      (call (Store_Update p);;
       requiresManualRestore <-
         (if LiveRestoreEnabled config then Ret false else Plugin_IsEnabled p);;
       if requiresManualRestore : bool then
         err <- call (pm_enable p c true);;
         match err with
         | Some err =>
             name <- Plugin_Name p;;
             logrus_Errorf "failed to enable plugin '%s': %s" [ArgStr name; ArgErr err]
         | None => Ret ()
         end
       else Ret ()) w = (w', Returned ()) ∧
    trace w' = trace w ++ map (pair t) ([EvUpdate p] ++ enable_events config c p v r) ∧
    Store_plugins w' = <[v2.GetID v := p]> (Store_plugins w) ∧ cMap w' = cMap w ∧
    controllers w' = controllers w ∧ closed w' = closed w ∧
    mu_readers w' = mu_readers w ∧ plugin_objs w' = plugin_objs w.
Proof.
  cbn zeta. unfold enable_events, Plugin_IsEnabled, Plugin_Name, deref. cbn.
  destruct (LiveRestoreEnabled config); cbn.
  { eexists _, None. split; [reflexivity|]. done. }
  destruct (v2.IsEnabled (plugin_objs w !!! p)); cbn.
  - destruct (reply_enable E _ p c true) as [err|] eqn:Hr; cbn.
    + eexists _, (Some err). split; [reflexivity|]. cbn.
      by rewrite <- ?app_assoc.
    + eexists _, None. split; [reflexivity|]. cbn. by rewrite <- ?app_assoc.
  - eexists _, None. split; [reflexivity|]. done.
Qed.

(** What a recovery task does, from any world: it returns, it touches
    no record but its own and nothing of the Controllers, and it ends in
    one of the three ways of [task_outcome]. *)
Lemma exec_reload_func_body {S} par t (c : cptr) (p : ptr) (w : World) :
  ∃ w' evs,
    exec (S:=S) E par t (reload_func_body E config c p) w = (w', Returned tt) ∧
    trace w' = trace w ++ map (pair t) evs ∧
    cMap w' = cMap w ∧ controllers w' = controllers w ∧
    closed w' = closed w ∧ mu_readers w' = mu_readers w ∧
    (∀ q, q ≠ p → plugin_objs w' !! q = plugin_objs w !! q) ∧
    task_outcome E config c p (deref w p) w w' evs.
Proof.
  unfold reload_func_body. rewrite exec_bind, exec_restorePlugin. cbn zeta.
  unfold deref. remember (plugin_objs w !!! p) as v eqn:Hv.
  destruct (if v2.IsEnabled v then _ else None) as [err|] eqn:Hre.
  - destruct (v2.IsEnabled v) eqn:Hen; [|done].
    unfold Plugin_Name. cbn. rewrite <- Hv. eexists _, _. split; [reflexivity|]. cbn.
    split; [|repeat (split; [done|])].
    + instantiate (1 := restore_events config p v (Some err) ++ [_]).
      unfold restore_events. rewrite Hen. cbn. by rewrite <- ?app_assoc.
    + eapply reattach_failed; [done|reflexivity|done|done].
  - clear Hre.
    set (w1 := record t (restore_events config p v None) w).
    assert (trace w1 = trace w ++ map (pair t) (restore_events config p v None)
            ∧ plugin_objs w1 = plugin_objs w ∧ Store_plugins w1 = Store_plugins w
            ∧ cMap w1 = cMap w ∧ controllers w1 = controllers w
            ∧ closed w1 = closed w ∧ mu_readers w1 = mu_readers w)
      as (Htr1 & Hh1 & Hst1 & Hcm1 & Hct1 & Hcl1 & Hmu1) by done.
    clearbody w1.
    (* step 2 *)
    rewrite exec_bind. cbn [exec call perform effect emit record fst snd].
    cbn beta iota. unfold deref. rewrite Hh1, <- Hv.
    rewrite exec_bind.
    destruct (exec_rewrite_Rootfs par t p w1)
      as (w2 & Hrun2 & Htr2 & Hst2 & Hcm2 & Hct2 & Hcl2 & Hmu2 & Hp2 & Hh2).
    unfold deref, rootfs_path in Hrun2, Htr2, Hp2. rewrite Hh1, <- Hv in Hrun2, Htr2, Hp2.
    rewrite Hrun2.
    (* step 3 *)
    rewrite exec_bind. cbn [exec call perform effect emit record fst snd].
    cbn beta iota. unfold deref. rewrite Hp2, rewritten_PluginObj.
    rewrite exec_bind.
    destruct (exec_reload_range_Types par t p
                (types.Types (types.Interface (types.Config (v2.PluginObj v)))) w2)
      as (w3 & b & evs & Hrun3 & Htr3 & Hst3 & Hcm3 & Hct3 & Hcl3 & Hmu3 & Hh3 & Hb).
    rewrite Hrun3. unfold deref in Hh3, Hb. rewrite Hp2 in Hh3, Hb.
    assert (propagation_rounds (rewritten E config v)
              (types.Types (types.Interface (types.Config (v2.PluginObj v))))
            = propagation_rounds v (declared_types v)) as Hk.
    { unfold propagation_rounds, mount_path. by rewrite rewritten_PluginObj. }
    assert (filepath_Join E [v2.Rootfs (rewritten E config v);
                             mount_path (rewritten E config v)]
            = propagated_path E config v) as Hpath.
    { unfold propagated_path, mount_path. by rewrite rewritten_PluginObj. }
    rewrite Hk, Hpath in Hh3, Hb.
    assert (∀ q, q ≠ p → plugin_objs w3 !! q = plugin_objs w !! q) as Hframe.
    { intros q Hq. rewrite Hh3. destruct (propagation_rounds _ _).
      - rewrite Hh2 by done. by rewrite Hh1.
      - rewrite lookup_insert_ne by done. rewrite Hh2 by done. by rewrite Hh1. }
    destruct Hb as [[-> ->]|(-> & n & err & Hn & ->)].
    + (* steps 4 and 5 *)
      destruct (exec_publish par t c p w3)
        as (w' & r & Hrun4 & Htr4 & Hst4 & Hcm4 & Hct4 & Hcl4 & Hmu4 & Hh4).
      unfold Plugin_IsEnabled, Plugin_Name in Hrun4 |- *. rewrite Hrun4.
      assert (plugin_objs w3 !!! p =
              if propagation_rounds v (declared_types v) is 0
              then rewritten E config v else propagated E config v) as Hp3.
      { rewrite Hh3. destruct (propagation_rounds _ _); [done|].
        by rewrite lookup_total_insert_eq. }
      assert (v2.PluginObj (plugin_objs w3 !!! p) = v2.PluginObj v) as Hobj.
      { rewrite Hp3. destruct (propagation_rounds _ _);
          [apply rewritten_PluginObj|apply propagated_PluginObj]. }
      exists w', (restore_events config p v None ++ rootfs_events E config p v
                  ++ concat (replicate (propagation_rounds v (declared_types v))
                               (round_ok p (propagated_path E config v)))
                  ++ [EvUpdate p] ++ enable_events config c p v r).
      split; [done|]. split.
      { assert (enable_events config c p (deref w3 p) r = enable_events config c p v r)
          as Hev.
        { unfold enable_events, deref, v2.IsEnabled, v2.Name. by rewrite Hobj. }
        rewrite Htr4, Hev, Htr3, Htr2, Htr1. by rewrite !map_app, <- !app_assoc. }
      split; [congruence|]. split; [congruence|]. split; [congruence|].
      split; [congruence|]. split; [intros q Hq; rewrite Hh4; by apply Hframe|].
      apply (published _ _ _ _ _ _ _ _ r); [done| |].
      * unfold deref. by rewrite Hh4.
      * rewrite Hst4, Hst3, Hst2, Hst1. unfold deref, v2.GetID. by rewrite Hobj.
    + cbn [exec].
      exists w3, (restore_events config p v None ++ rootfs_events E config p v
                  ++ concat (replicate n (round_ok p (propagated_path E config v)))
                  ++ round_failed p (propagated_path E config v) err).
      split; [done|]. split.
      { rewrite Htr3, Htr2, Htr1. by rewrite !map_app, <- !app_assoc. }
      split; [congruence|]. split; [congruence|]. split; [congruence|].
      split; [congruence|]. split; [done|].
      apply (mkdir_failed _ _ _ _ _ _ _ _ n err); [done|done| |congruence].
      unfold deref. rewrite Hh3. destruct (propagation_rounds _ _); [lia|].
      by rewrite lookup_total_insert_eq.
Qed.
End Task.

(** ** Goroutines under a schedule *)

Section Leads.
Variable E : Env.

Lemma leads_bind {S A B} P (Q' : A → Prop) (Q : B → Prop) (m : Prog S A) (f : A → Prog S B) :
  leads P Q' m → (∀ a, Q' a → leads P Q (f a)) → leads P Q (bind m f).
Proof.
  intros Hm Hf. induction Hm as [a Ha|R op k Hk|R op k Hk IH|ts k Hk IH]; simpl.
  - by apply Hf.
  - by apply leads_now.
  - apply leads_later. intros r. apply IH.
  - by apply leads_Go.
Qed.

Lemma leads_Do_inv {S A R} P (Q : A → Prop) (op : Op R) (k : R → Prog S A) :
  leads P Q (Do op k) →
  (∀ r, Exists P (emit op r)) ∨ (∀ r, leads P Q (k r)).
Proof.
  intros H.
  refine (match H in leads _ _ m
                return match m with
                       | Do op k => (∀ r, Exists P (emit op r)) ∨ (∀ r, leads P Q (k r))
                       | _ => True
                       end
          with
          | leads_Ret _ _ _ _ => I
          | leads_now _ _ _ _ Hk => or_introl Hk
          | leads_later _ _ _ _ Hk => or_intror Hk
          | leads_Go _ _ _ _ _ => I
          end).
Qed.

Lemma leads_call {S R} (P : Event → Prop) (Q : R → Prop) (op : Op R) :
  (∀ r, Q r) → leads (S:=S) P Q (call op).
Proof. intros H. apply leads_later. intros r. by apply leads_Ret. Qed.

Lemma run_Do {A R} t (op : Op R) (k : R → Prog Empty_set A) w :
  run E t (Do op k) w = run E t (k (perform E t op w).2) (perform E t op w).1.
Proof. unfold run. simpl. by destruct (perform E t op w). Qed.

(** The history of a goroutine is its own. *)
Lemma run_trace {A} t (m : Prog Empty_set A) :
  ∀ w, ∃ evs, trace (run E t m w).1 = trace w ++ map (pair t) evs.
Proof.
  induction m as [a|x|R op k IH|ts k IH]; intros w.
  - exists []. simpl. by rewrite app_nil_r.
  - exists []. simpl. by rewrite app_nil_r.
  - rewrite run_Do. destruct (IH (perform E t op w).2 (perform E t op w).1) as [evs Hevs].
    exists (emit op (perform E t op w).2 ++ evs).
    by rewrite Hevs, perform_trace, map_app, app_assoc.
  - apply IH.
Qed.

Lemma run_leads {A} t P (Q : A → Prop) (m : Prog Empty_set A) :
  leads P Q m →
  ∀ w, ∃ evs,
    trace (run E t m w).1 = trace w ++ map (pair t) evs ∧
    ((∃ ev, ev ∈ evs ∧ P ev) ∨ ∃ a, (run E t m w).2 = Returned a ∧ Q a).
Proof.
  induction 1 as [a Ha|R op k Hk|R op k Hk IH|ts k Hk IH]; intros w.
  - exists []. simpl. rewrite app_nil_r. split; [done|]. right. eauto.
  - rewrite run_Do.
    destruct (run_trace t (k (perform E t op w).2) (perform E t op w).1) as [evs Hevs].
    exists (emit op (perform E t op w).2 ++ evs).
    rewrite Hevs, perform_trace, map_app, app_assoc. split; [done|]. left.
    destruct (proj1 (Exists_exists _ _) (Hk (perform E t op w).2)) as (ev & Hin & Hev).
    exists ev. split; [|done]. apply elem_of_app. by left.
  - rewrite run_Do.
    destruct (IH (perform E t op w).2 (perform E t op w).1) as (evs & Hevs & Hres).
    exists (emit op (perform E t op w).2 ++ evs).
    rewrite Hevs, perform_trace, map_app, app_assoc. split; [done|].
    destruct Hres as [(ev & Hin & Hev)|Hret]; [left|by right].
    exists ev. split; [|done]. apply elem_of_app. by right.
  - apply IH.
Qed.

Lemma run_safe {A} t (m : Prog Empty_set A) w :
  safe m → ∃ a, (run E t m w).2 = Returned a.
Proof.
  intros Hs. destruct (run_leads t _ _ m Hs w) as (evs & _ & [(ev & _ & [])|(a & Ha & _)]).
  eauto.
Qed.

Lemma owed_mono P evs evs' tk : owed P evs tk → owed P (evs ++ evs') tk.
Proof.
  intros [(ev & Hin & Hev)|Hl]; [left|by right].
  exists ev. split; [|done]. apply elem_of_app. by left.
Qed.

Lemma paid_mono P evs evs' t : paid P evs t → paid P (evs ++ evs') t.
Proof.
  intros (ev & Hin & Hev). exists ev. split; [|done]. apply elem_of_app. by left.
Qed.

Lemma drain_leads P (pool : list (tid * Task)) :
  ∀ w evs0,
  Forall (λ tk, safe tk.2) pool →
  Forall (owed P evs0) pool →
  ∃ evs,
    (drain E pool w).2 = None ∧
    trace (drain E pool w).1 = trace w ++ evs ∧
    Forall (paid P (evs0 ++ evs)) pool.*1.
Proof.
  induction pool as [|[t m] pool IH]; intros w evs0 Hsafe Howed; simpl.
  - exists []. by rewrite app_nil_r.
  - apply Forall_cons in Hsafe as [Hs Hsafe]. apply Forall_cons in Howed as [Ho Howed].
    cbn in Hs, Ho.
    destruct (run_safe t m w Hs) as [a Ha].
    assert (∃ evs1, trace (run E t m w).1 = trace w ++ map (pair t) evs1 ∧
                    paid P (evs0 ++ map (pair t) evs1) t) as (evs1 & Htr1 & Hpaid).
    { destruct Ho as [Hdone|Hl].
      - destruct (run_trace t m w) as [evs1 Htr1]. exists evs1. split; [done|].
        by apply paid_mono.
      - destruct (run_leads t _ _ m Hl w) as (evs1 & Htr1 & [(ev & Hin & Hev)|(? & _ & [])]).
        exists evs1. split; [done|]. exists ev. split; [|done].
        apply elem_of_app. right. apply list_elem_of_fmap. by exists ev. }
    destruct (run E t m w) as [w1 o]. cbn in Ha, Htr1. subst o.
    destruct (IH w1 (evs0 ++ map (pair t) evs1) Hsafe) as (evs & Hnone & Htr & Hall).
    { eapply Forall_impl; [exact Howed|]. intros tk. apply owed_mono. }
    exists (map (pair t) evs1 ++ evs). split; [done|]. split.
    + by rewrite Htr, Htr1, app_assoc.
    + rewrite app_assoc. constructor; [by apply paid_mono|done].
Qed.

Lemma step_leads P (tk : tid * Task) w evs0 :
  safe tk.2 → owed P evs0 tk →
  ∃ evs,
    trace (step E tk w).1 = trace w ++ evs ∧
    (step E tk w).2.1 = tk.1 ∧
    safe (step E tk w).2.2 ∧
    owed P (evs0 ++ evs) (step E tk w).2.
Proof.
  destruct tk as [t m]. cbn. intros Hs Ho.
  destruct m as [a|x|R op k|ts k]; cbn.
  - exists []. rewrite !app_nil_r. done.
  - exists []. rewrite !app_nil_r. done.
  - pose proof (perform_trace E t op w) as Hp.
    destruct (perform E t op w) as [w1 r]. cbn in Hp |- *.
    exists (map (pair t) (emit op r)). split; [done|]. split; [done|]. split.
    + destruct (leads_Do_inv _ _ _ _ Hs) as [Hk|Hk]; [|apply Hk].
      destruct (proj1 (Exists_exists _ _) (Hk r)) as (? & _ & []).
    + destruct Ho as [Hdone|Hl]; [by apply owed_mono; left|].
      destruct (leads_Do_inv _ _ _ _ Hl) as [Hk|Hk].
      * left. destruct (proj1 (Exists_exists _ _) (Hk r)) as (ev & Hin & Hev).
        exists ev. split; [|done].
        apply elem_of_app. right. apply list_elem_of_fmap. exists ev.
        done.
      * right. apply Hk.
  - exists []. rewrite !app_nil_r. split; [done|]. split; [done|]. split.
    + by inversion Hs.
    + destruct Ho as [Hdone|Hl]; [by left|]. right. by inversion Hl.
Qed.

Lemma safe_Fault {S A} (x : panic) : ¬ safe (S:=S) (A:=A) (Fault x).
Proof. intros H. inversion H. Qed.

(** Under every schedule the goroutines of a pool that never panic all
    return, and each has then left the entry it owed. *)
Lemma interleave_leads P (sched : list nat) :
  ∀ (pool : list (tid * Task)) w evs0,
  Forall (λ tk, safe tk.2) pool →
  Forall (owed P evs0) pool →
  ∃ evs,
    (interleave E sched pool w).2 = None ∧
    trace (interleave E sched pool w).1 = trace w ++ evs ∧
    Forall (paid P (evs0 ++ evs)) pool.*1.
Proof.
  induction sched as [|i sched IH]; intros pool w evs0 Hsafe Howed.
  - by apply drain_leads.
  - cbn [interleave]. destruct (pool !! i) as [[t m]|] eqn:Hi; [|by apply IH].
    pose proof (Forall_lookup_1 _ _ _ _ Hsafe Hi) as Hs.
    pose proof (Forall_lookup_1 _ _ _ _ Howed Hi) as Ho.
    destruct (step_leads P (t, m) w evs0 Hs Ho) as (evs1 & Htr1 & Ht & Hs' & Ho').
    assert (interleave E sched (<[i := (step E (t, m) w).2]> pool) (step E (t, m) w).1
            = (let '(w', tk') := step E (t, m) w in
               interleave E sched (<[i := tk']> pool) w')) as Heq
      by (by destruct (step E (t, m) w)).
    assert (∃ evs,
      (interleave E sched (<[i := (step E (t, m) w).2]> pool) (step E (t, m) w).1).2 = None ∧
      trace (interleave E sched (<[i := (step E (t, m) w).2]> pool) (step E (t, m) w).1).1
        = trace w ++ evs ∧
      Forall (paid P (evs0 ++ evs)) pool.*1) as Hgoal.
    { destruct (IH (<[i := (step E (t, m) w).2]> pool) (step E (t, m) w).1 (evs0 ++ evs1))
        as (evs & Hnone & Htr & Hpaid).
      - apply Forall_insert; [done|exact Hs'].
      - apply Forall_insert; [|exact Ho'].
        eapply Forall_impl; [exact Howed|]. intros tk. apply owed_mono.
      - exists (evs1 ++ evs). split; [done|]. split.
        + by rewrite Htr, Htr1, app_assoc.
        + rewrite app_assoc. rewrite list_fmap_insert in Hpaid.
          rewrite list_insert_id in Hpaid; [done|].
          rewrite list_lookup_fmap, Hi. cbn in Ht |- *. by rewrite Ht. }
    rewrite Heq in Hgoal.
    destruct m as [a|x|R op k|ts k]; try exact Hgoal.
    by destruct (safe_Fault x Hs).
Qed.
End Leads.

Section Threads.
Variable E : Env.

Lemma since_app w w' evs : trace w' = trace w ++ evs → since w w' = evs.
Proof. intros H. unfold since. by rewrite H, drop_app_length. Qed.

(** Every entry that a pool of goroutines adds is by one of them. *)
Lemma drain_tids (pool : list (tid * Task)) :
  ∀ w, ∃ evs, trace (drain E pool w).1 = trace w ++ evs ∧
              Forall (λ te, te.1 ∈ pool.*1) evs.
Proof.
  induction pool as [|[t m] pool IH]; intros w; simpl.
  - exists []. by rewrite app_nil_r.
  - destruct (run_trace E t m w) as [evs1 Htr1].
    destruct (run E t m w) as [w1 [a|x]]; cbn in Htr1.
    + destruct (IH w1) as (evs & Htr & Hall). exists (map (pair t) evs1 ++ evs).
      split; [by rewrite Htr, Htr1, app_assoc|]. apply Forall_app. split.
      * apply Forall_fmap, Forall_true. intros ev. cbn. left.
      * eapply Forall_impl; [exact Hall|]. intros te Hin. by right.
    + exists (map (pair t) evs1). split; [done|].
      apply Forall_fmap, Forall_true. intros ev. cbn. left.
Qed.

Lemma interleave_tids (sched : list nat) :
  ∀ (pool : list (tid * Task)) w,
  ∃ evs, trace (interleave E sched pool w).1 = trace w ++ evs ∧
         Forall (λ te, te.1 ∈ pool.*1) evs.
Proof.
  induction sched as [|i sched IH]; intros pool w; [apply drain_tids|].
  cbn [interleave]. destruct (pool !! i) as [[t m]|] eqn:Hi; [|apply IH].
  assert (t ∈ pool.*1) as Ht.
  { apply list_elem_of_fmap. exists (t, m). split; [done|].
    by eapply list_elem_of_lookup_2. }
  destruct m as [a|x|R op k|ts k]; cbn [step].
  - destruct (IH (<[i := (t, Ret a)]> pool) w) as (evs & Htr & Hall).
    exists evs. split; [done|]. rewrite list_insert_id in Hall; done.
  - exists []. cbn. by rewrite app_nil_r.
  - pose proof (perform_trace E t op w) as Hp.
    destruct (perform E t op w) as [w1 r]. cbn in Hp.
    destruct (IH (<[i := (t, k r)]> pool) w1) as (evs & Htr & Hall).
    exists (map (pair t) (emit op r) ++ evs).
    split; [by rewrite Htr, Hp, app_assoc|]. apply Forall_app. split.
    + apply Forall_fmap, Forall_true. by intros ev.
    + rewrite list_fmap_insert in Hall. rewrite list_insert_id in Hall; [done|].
      by rewrite list_lookup_fmap, Hi.
  - destruct (IH (<[i := (t, k)]> pool) w) as (evs & Htr & Hall).
    exists evs. split; [done|].
    rewrite list_fmap_insert in Hall. rewrite list_insert_id in Hall; [done|].
    by rewrite list_lookup_fmap, Hi.
Qed.

Lemma only_bind {S A B} P (m : Prog S A) (f : A → Prog S B) :
  only P m → (∀ a, only P (f a)) → only P (bind m f).
Proof.
  intros Hm Hf. induction Hm as [a|x|R op k Hop Hk IH|ts k Hk IH]; simpl.
  - apply Hf.
  - apply only_Fault.
  - by apply only_Do.
  - by apply only_Go.
Qed.

Lemma only_Do_inv {S A R} P (op : Op R) (k : R → Prog S A) :
  only P (Do op k) → (∀ r, Forall P (emit op r)) ∧ (∀ r, only P (k r)).
Proof.
  intros H.
  refine (match H in only _ m
                return match m with
                       | Do op k => (∀ r, Forall P (emit op r)) ∧ (∀ r, only P (k r))
                       | _ => True
                       end
          with
          | only_Ret _ _ => I
          | only_Fault _ _ => I
          | only_Do _ _ _ Hop Hk => conj Hop Hk
          | only_Go _ _ _ _ => I
          end).
Qed.

Lemma run_only {A} t P (m : Prog Empty_set A) :
  only P m →
  ∀ w, ∃ evs, trace (run E t m w).1 = trace w ++ map (pair t) evs ∧ Forall P evs.
Proof.
  induction 1 as [a|x|R op k Hop Hk IH|ts k Hk IH]; intros w.
  - exists []. simpl. by rewrite app_nil_r.
  - exists []. simpl. by rewrite app_nil_r.
  - rewrite run_Do.
    destruct (IH (perform E t op w).2 (perform E t op w).1) as (evs & Hevs & Hall).
    exists (emit op (perform E t op w).2 ++ evs).
    rewrite Hevs, perform_trace, map_app, app_assoc. split; [done|].
    apply Forall_app. split; [apply Hop|done].
  - apply IH.
Qed.

Lemma drain_only P (pool : list (tid * Task)) :
  Forall (λ tk, only P tk.2) pool →
  ∀ w, ∃ evs, trace (drain E pool w).1 = trace w ++ evs ∧ Forall (λ te, P te.2) evs.
Proof.
  induction pool as [|[t m] pool IH]; intros Hpool w; simpl.
  - exists []. by rewrite app_nil_r.
  - apply Forall_cons in Hpool as [Hm Hpool].
    destruct (run_only t P m Hm w) as (evs1 & Htr1 & Hall1).
    assert (Forall (λ te : tid * Event, P te.2) (map (pair t) evs1)) as Hall1'
      by (by apply Forall_fmap).
    destruct (run E t m w) as [w1 [a|x]]; cbn in Htr1.
    + destruct (IH Hpool w1) as (evs & Htr & Hall). exists (map (pair t) evs1 ++ evs).
      split; [by rewrite Htr, Htr1, app_assoc|]. by apply Forall_app.
    + by exists (map (pair t) evs1).
Qed.

(** Under every schedule, the entries that a pool of goroutines adds are
    entries that its programs can leave. *)
Lemma interleave_only P (sched : list nat) :
  ∀ (pool : list (tid * Task)) w,
  Forall (λ tk, only P tk.2) pool →
  ∃ evs, trace (interleave E sched pool w).1 = trace w ++ evs ∧
         Forall (λ te, P te.2) evs.
Proof.
  induction sched as [|i sched IH]; intros pool w Hpool; [by apply drain_only|].
  cbn [interleave]. destruct (pool !! i) as [[t m]|] eqn:Hi; [|by apply IH].
  pose proof (Forall_lookup_1 _ _ _ _ Hpool Hi) as Hm. cbn in Hm.
  destruct m as [a|x|R op k|ts k]; cbn [step].
  - destruct (IH (<[i := (t, Ret a)]> pool) w) as (evs & Htr & Hall); [|by exists evs].
    by apply Forall_insert.
  - exists []. cbn. by rewrite app_nil_r.
  - destruct (only_Do_inv _ _ _ Hm) as [Hop Hk].
    pose proof (perform_trace E t op w) as Hp.
    destruct (perform E t op w) as [w1 r]. cbn in Hp.
    destruct (IH (<[i := (t, k r)]> pool) w1) as (evs & Htr & Hall).
    { apply Forall_insert; [done|apply Hk]. }
    exists (map (pair t) (emit op r) ++ evs).
    split; [by rewrite Htr, Hp, app_assoc|]. apply Forall_app. split; [|done].
    apply Forall_fmap. apply Hop.
  - destruct (IH (<[i := (t, k)]> pool) w) as (evs & Htr & Hall); [|by exists evs].
    apply Forall_insert; [done|]. by inversion Hm.
Qed.
End Threads.

(** ** What every recovery task comes to *)

Section Tasks_lead.
Variable E : Env.
Variable config : ManagerConfig.

Lemma leads_weaken {S A} (P P' : Event → Prop) (Q Q' : A → Prop) (m : Prog S A) :
  (∀ ev, P ev → P' ev) → (∀ a, Q a → Q' a) → leads P Q m → leads P' Q' m.
Proof.
  intros HP HQ. induction 1 as [a Ha|R op k Hk|R op k Hk IH|ts k Hk IH].
  - apply leads_Ret. by apply HQ.
  - apply leads_now. intros r. eapply Exists_impl; [apply Hk|done].
  - by apply leads_later.
  - by apply leads_Go.
Qed.

Ltac leads_step :=
  match goal with
  | |- leads _ _ (Ret _) => apply leads_Ret
  | |- leads _ _ (call _) => unfold call
  | |- leads _ _ (logrus_Errorf _ _) => unfold logrus_Errorf, call
  | |- leads _ _ (Do (Store_Update _) _) =>
      first [ apply leads_now; intros ?; apply Exists_cons_hd; by left
            | apply leads_later; intros ? ]
  | |- leads _ _ (Do (logrus_Logf _ _ _) _) =>
      first [ apply leads_now; intros ?; apply Exists_cons_hd;
              first [ by (right; left; eexists _, _)
                    | by (right; right; eexists _, _) ]
            | apply leads_later; intros ? ]
  | |- leads _ _ (Do _ _) =>
      apply leads_later; let r := fresh "r" in
      intros r;
      match type of r with
      | option _ => destruct r
      | bool => destruct r
      | _ => idtac
      end
  | |- leads _ _ (bind (reload_range_Types _ _ _) _) => fail 1
  | |- leads _ _ (bind ?m _) =>
      match m with
      | context [if ?b then _ else _] => destruct b
      end
  | |- leads _ _ (if ?b then _ else _) => destruct b
  | |- leads _ _ (match ?x with Some _ => _ | None => _ end) => destruct x
  end.

(** The loop over the capabilities returns [true], or has logged the
    failure of a directory creation. *)
Lemma leads_reload_range_Types {S} (P : Event → Prop) (Q : bool → Prop) p typs :
  Q true →
  (Q false ∨ ∀ ev, mkdir_failure_log ev → P ev) →
  leads (S:=S) P Q (reload_range_Types E p typs).
Proof.
  intros Htrue Hfalse. induction typs as [|typ typs IH]; cbn.
  - by apply leads_Ret.
  - destruct (enables_rootfs_propagation typ); [|done].
    apply leads_later. intros v. destruct (negb _); [|done].
    cbn. apply leads_later. intros ?. apply leads_later. intros [err|]; [|done].
    cbn. destruct Hfalse as [Hfalse|Hlog].
    + apply leads_later. intros ?. by apply leads_Ret.
    + apply leads_now. intros ?. apply Exists_cons_hd. apply Hlog. by eexists _, _.
Qed.

Lemma safe_reload_func_body {S} c p : safe (reload_func_body (S:=S) E config c p).
Proof.
  unfold safe, reload_func_body, restorePlugin, Plugin_IsEnabled, Plugin_Name.
  cbn. repeat (leads_step; cbn); try done.
  all: eapply leads_bind;
    [apply (leads_reload_range_Types _ (λ _, True)); [done|by left]|].
  all: intros b _; cbn; repeat (leads_step; cbn); done.
Qed.

Lemma safe_reload_func c p : safe (reload_func E config c p).
Proof.
  unfold safe, reload_func. eapply leads_bind; [apply safe_reload_func_body|].
  intros _ _. by apply leads_call.
Qed.

(** A recovery task always reaches its deferred [wg.Done()]. *)
Lemma reload_func_done c p :
  leads (λ ev, ev = EvWgDone) (λ _, False) (reload_func E config c p).
Proof.
  unfold reload_func. eapply (leads_bind _ (λ _, True)).
  - eapply leads_weaken; [| |apply safe_reload_func_body]; done.
  - intros _ _. apply leads_now. intros ?. by apply Exists_cons_hd.
Qed.

(** A recovery task publishes its record or logs why it gave up. *)
Lemma reload_func_settles c p :
  leads (settles p) (λ _, False) (reload_func E config c p).
Proof.
  unfold reload_func. eapply (leads_bind _ (λ _, False)); [|done].
  unfold reload_func_body, restorePlugin, Plugin_IsEnabled, Plugin_Name, settles.
  cbn. repeat (leads_step; cbn); try done.
  all: eapply leads_bind;
    [apply (leads_reload_range_Types _ (λ b, b = true));
       [done|right; intros ev Hev; by right; right]|].
  all: intros b ->; cbn; repeat (leads_step; cbn); done.
Qed.

Lemma safe_reload_range_plugins p : safe (reload_range_plugins E config p).2.
Proof.
  cbn. apply leads_later. intros c. apply leads_later. intros ?.
  apply safe_reload_func.
Qed.

Lemma reload_range_plugins_done p :
  leads (λ ev, ev = EvWgDone) (λ _, False) (reload_range_plugins E config p).2.
Proof.
  cbn. apply leads_later. intros c. apply leads_later. intros ?.
  apply reload_func_done.
Qed.

Lemma reload_range_plugins_settles p :
  leads (settles p) (λ _, False) (reload_range_plugins E config p).2.
Proof.
  cbn. apply leads_later. intros c. apply leads_later. intros ?.
  apply reload_func_settles.
Qed.

(** A recovery task reads no file and calls no [SetAll]: its entries are
    those of [task_event]. *)
Lemma only_reload_range_Types {S} p typs :
  only (S:=S) task_event (reload_range_Types E p typs).
Proof.
  induction typs as [|typ typs IH]; cbn; [apply only_Ret|].
  destruct (enables_rootfs_propagation typ); [|done].
  apply only_Do; [done|]. intros v. destruct (negb _); [|done].
  cbn. apply only_Do; [by repeat constructor|]. intros ?.
  apply only_Do; [by repeat constructor|]. intros [err|]; [|done].
  cbn. apply only_Do; [by repeat constructor|]. intros ?. apply only_Ret.
Qed.

Ltac only_step :=
  match goal with
  | |- only _ (Ret _) => apply only_Ret
  | |- only _ (call _) => unfold call
  | |- only _ (logrus_Errorf _ _) => unfold logrus_Errorf, call
  | |- only _ (Do _ _) =>
      apply only_Do; [by repeat constructor|];
      let r := fresh "r" in
      intros r;
      match type of r with
      | option _ => destruct r
      | bool => destruct r
      | _ => idtac
      end
  | |- only _ (bind (reload_range_Types _ _ _) _) =>
      apply only_bind; [apply only_reload_range_Types|intros ?]
  | |- only _ (bind ?m _) =>
      match m with
      | context [if ?b then _ else _] => destruct b
      end
  | |- only _ (if ?b then _ else _) => destruct b
  end.

Lemma only_call {S R} (op : Op R) :
  (∀ r, Forall task_event (emit op r)) → only (S:=S) task_event (call op).
Proof. intros H. apply only_Do; [done|]. intros r. apply only_Ret. Qed.

Lemma only_reload_func_body {S} c p :
  only (S:=S) task_event (reload_func_body E config c p).
Proof.
  unfold reload_func_body, restorePlugin, Plugin_IsEnabled, Plugin_Name.
  cbn. repeat (only_step; cbn).
Qed.

Lemma only_reload_range_plugins p :
  only task_event (reload_range_plugins E config p).2.
Proof.
  unfold reload_range_plugins, reload_func. cbn [snd].
  apply only_bind; [by apply only_call|]. intros c.
  apply only_bind; [by apply only_call|]. intros ?.
  apply only_bind; [apply only_reload_func_body|]. intros ?.
  apply only_call. by repeat constructor.
Qed.
End Tasks_lead.

(** ** reload *)

Section Reload.
Variable E : Env.
Variable config : ManagerConfig.

(** The result of [reload] is what Phase 1 finds on the disk: nothing a
    recovery task meets changes it. *)
Lemma exec_go_reload_result sched w :
  (exec_go E sched Caller (reload E config) w).2 = Returned (phase1_result E config).
Proof.
  unfold exec_go, reload, phase1_result. cbn.
  destruct (reply_ReadDir E (Root config)) as [err|dir]; cbn; [done|].
  rewrite exec_bind.
  match goal with |- context [exec E ?par Caller (reload_range_dir E config dir ∅) ?w0] =>
    destruct (exec_reload_range_dir E config par Caller dir ∅ w0)
      as (w1 & r & evs1 & Hrun & _);
    pose proof (exec_reload_range_dir_result E config par Caller dir ∅ w0 r) as Hres
  end.
  rewrite Hrun in Hres |- *. rewrite (Hres eq_refl). destruct r as [err|m]; [done|].
  cbn.
  match goal with |- context [interleave E sched ?pool ?w3] =>
    destruct (interleave_leads E task_done sched pool w3 []) as (evs & Hnone & _)
  end.
  - apply Forall_fmap, Forall_true. intros p. apply safe_reload_range_plugins.
  - apply Forall_fmap, Forall_true. intros p. right. apply reload_range_plugins_done.
  - destruct (interleave E sched _ _) as [w' o]. cbn in Hnone. by subst o.
Qed.

(** When Phase 1 fails, [reload] has only read the disk. *)
Lemma exec_go_reload_failed sched w err :
  phase1_result E config = Some err →
  let w' := (exec_go E sched Caller (reload E config) w).1 in
  Store_plugins w' = Store_plugins w ∧ cMap w' = cMap w ∧
  controllers w' = controllers w ∧ closed w' = closed w ∧
  mu_readers w' = mu_readers w ∧
  ∃ evs, since w w' = map (pair Caller) evs ∧
         Forall (λ ev, (∃ r, ev = EvReadDir (Root config) r) ∨
                       ∃ dir, reply_ReadDir E (Root config) = inr dir ∧
                              reads_matching_entry E config dir ev) evs.
Proof.
  unfold exec_go, reload, phase1_result. cbn.
  destruct (reply_ReadDir E (Root config)) as [err'|dir] eqn:Hdir; cbn.
  - intros _. repeat (split; [done|]). exists [EvReadDir (Root config) (inl err')].
    split; [by apply since_app|]. constructor; [|done]. left. eauto.
  - intros Hfail. rewrite exec_bind.
    match goal with |- context [exec E ?par Caller (reload_range_dir E config dir ∅) ?w0] =>
      destruct (exec_reload_range_dir E config par Caller dir ∅ w0)
        as (w1 & r & evs1 & Hrun & Htr & Hevs & Hst & Hcm & Hct & Hcl & Hmu & _);
      pose proof (exec_reload_range_dir_result E config par Caller dir ∅ w0 r) as Hres
    end.
    rewrite Hrun in Hres |- *. specialize (Hres eq_refl). rewrite Hfail in Hres.
    destruct r as [err'|m]; [|done]. cbn in *.
    repeat (split; [done|]). exists (EvReadDir (Root config) (inr dir) :: evs1).
    split.
    + apply since_app. rewrite Htr. by rewrite <- app_assoc.
    + constructor; [left; eauto|]. eapply Forall_impl; [exact Hevs|].
      intros ev Hev. right. eauto.
Qed.

(** When Phase 1 succeeds: the history of [reload] is the scan of the
    directory, one [SetAll] with the map [m] of the records, and then
    the entries of the recovery tasks of the records of [m], each of
    which has reached its [wg.Done()] and has published its record or
    logged why it gave up. *)
Lemma exec_go_reload_ok sched w dir :
  reply_ReadDir E (Root config) = inr dir →
  first_load_error E config dir = None →
  let w' := (exec_go E sched Caller (reload E config) w).1 in
  ∃ m evs1 evs2,
    since w w' =
      map (pair Caller)
        (EvReadDir (Root config) (inr dir) :: evs1 ++ [EvSetAll m; EvWgAdd (size m)])
      ++ evs2 ∧
    Forall (reads_matching_entry E config dir) evs1 ∧
    dom m = list_to_set (loaded_ids E config dir) ∧
    (∀ id p, m !! id = Some p →
       ∃ v plugin pv, v ∈ dir ∧ validFullID v = true ∧
         config_json E config v = inr plugin ∧ v2.GetID plugin = id ∧
         plugin_objs w' !! p = Some pv ∧ v2.PluginObj pv = v2.PluginObj plugin) ∧
    Forall (λ te, (∃ id p, m !! id = Some p ∧ te.1 = Recovery p) ∧ task_event te.2) evs2 ∧
    (∀ id p, m !! id = Some p →
       paid task_done evs2 (Recovery p) ∧ paid task_settles evs2 (Recovery p)).
Proof.
  intros Hdir Hok. unfold exec_go, reload. cbn. rewrite Hdir. cbn.
  rewrite exec_bind.
  match goal with |- context [exec E ?par Caller (reload_range_dir E config dir ∅) ?w0] =>
    destruct (exec_reload_range_dir E config par Caller dir ∅ w0)
      as (w1 & r & evs1 & Hrun & Htr & Hevs & Hst & Hcm & Hct & Hcl & Hmu & Hheap & Hr);
    pose proof (exec_reload_range_dir_result E config par Caller dir ∅ w0 r) as Hres
  end.
  rewrite Hrun in Hres |- *. specialize (Hres eq_refl). rewrite Hok in Hres.
  destruct r as [err'|m]; [done|]. destruct Hr as (_ & Hdom & Hm). cbn in Htr |- *.
  match goal with |- context [interleave E sched ?pool ?w0] =>
    set (ts := pool); set (w3 := w0);
    destruct (interleave_leads E task_done sched ts w3 []) as (evs & Hnone & Htr2 & Hdone);
    [apply Forall_fmap, Forall_true; intros p; apply safe_reload_range_plugins
    |apply Forall_fmap, Forall_true; intros p; right; apply reload_range_plugins_done|];
    destruct (interleave_leads E task_settles sched ts w3 []) as (evs' & _ & Htr2' & Hset);
    [apply Forall_fmap, Forall_true; intros p; apply safe_reload_range_plugins
    |apply Forall_fmap, Forall_true; intros p; right; apply reload_range_plugins_settles|];
    destruct (interleave_tids E sched ts w3) as (evs'' & Htr2'' & Htids);
    destruct (interleave_only E task_event sched ts w3) as (evs3 & Htr3 & Honly);
    [apply Forall_fmap, Forall_true; intros p; apply only_reload_range_plugins|];
    pose proof (interleave_preserved E same_PluginObj (same_PluginObj_refl)
                  (same_PluginObj_trans) (λ R, perform_same_PluginObj E) sched ts w3) as Hobj
  end.
  rewrite Htr2 in Htr2', Htr2'', Htr3. apply app_inv_head in Htr2', Htr2'', Htr3.
  subst evs' evs'' evs3.
  destruct (interleave E sched ts w3) as [w' o]. cbn in Hnone, Htr2, Hobj. subst o.
  cbn [fst]. exists m, evs1, evs. split; [|split; [done|split]].
  - apply since_app. rewrite Htr2. subst w3. cbn. rewrite Htr.
    rewrite map_app. cbn. by rewrite <- !app_assoc.
  - rewrite Hdom. set_solver.
  - assert (ts.*1 = Recovery <$> (map_to_list m).*2) as Hts.
    { subst ts. rewrite <- list_fmap_compose. apply list_fmap_ext. by intros i p _. }
    assert (∀ p, Recovery p ∈ ts.*1 ↔ ∃ id, m !! id = Some p) as Hin.
    { intros p. rewrite Hts. rewrite list_elem_of_fmap. split.
      - intros (q & [= <-] & Hq). apply list_elem_of_fmap in Hq as ([id q] & -> & Hq).
        exists id. by apply elem_of_map_to_list.
      - intros (id & Hid). exists p. split; [done|]. apply list_elem_of_fmap.
        exists (id, p). split; [done|]. by apply elem_of_map_to_list. }
    split; [|split].
    + intros id p Hp. destruct (Hm id p Hp) as [Hemp|(v & plugin & Hv & Hvalid & Hl & Hid & Hpv)];
        [by rewrite lookup_empty in Hemp|].
      destruct (Hobj p plugin) as (pv & Hpv' & Hpo); [by subst w3|].
      exists v, plugin, pv. done.
    + apply Forall_and. split; [|done].
      eapply Forall_impl; [exact Htids|]. intros [t ev] Ht. cbn in Ht |- *.
      rewrite Hts in Ht. apply list_elem_of_fmap in Ht as (p & -> & Hp).
      assert (Recovery p ∈ ts.*1) as Hp' by (rewrite Hts; by apply list_elem_of_fmap_2).
      apply Hin in Hp' as (id & Hid). eauto.
    + intros id p Hp. assert (Recovery p ∈ ts.*1) as Hp' by (apply Hin; eauto).
      rewrite Forall_forall in Hdone, Hset. split; [by apply Hdone|by apply Hset].
Qed.
End Reload.

(** ** The claims about a recovery task *)

Section Task_claims.
Variable E : Env.
Variable config : ManagerConfig.

(** The goroutine of a recovery task: the body, then [wg.Done()]. *)
Lemma run_reload_func (c : cptr) (p : ptr) (w : World) :
  ∃ w' evs,
    run E (Recovery p) (reload_func E config c p) w = (w', Returned tt) ∧
    since w w' = map (pair (Recovery p)) (evs ++ [EvWgDone]) ∧
    cMap w' = cMap w ∧ controllers w' = controllers w ∧
    closed w' = closed w ∧ mu_readers w' = mu_readers w ∧
    (∀ q, q ≠ p → plugin_objs w' !! q = plugin_objs w !! q) ∧
    task_outcome E config c p (deref w p) w w' evs.
Proof.
  unfold reload_func. rewrite run_bind.
  destruct (exec_reload_func_body E config (S:=Empty_set) (λ _ w, (w, None)) (Recovery p) c p w)
    as (w1 & evs & Hrun & Htr & Hcm & Hct & Hcl & Hmu & Hframe & Hout).
  unfold run. rewrite Hrun. cbn.
  eexists _, evs. split; [reflexivity|]. cbn. split.
  { apply since_app. cbn. rewrite Htr, map_app. by rewrite <- app_assoc. }
  repeat (split; [done|]).
  destruct Hout as [err Hen Hevs Hh Hst|n err Hn Hevs Hh Hst|r Hevs Hh Hst].
  - by eapply reattach_failed.
  - by eapply mkdir_failed.
  - by eapply published.
Qed.

Lemma elem_of_concat_replicate {A} (x : A) n l : x ∈ concat (replicate n l) → x ∈ l.
Proof.
  induction n as [|n IH]; cbn; [by intros ?%elem_of_nil|].
  intros [?|?]%elem_of_app; [done|by apply IH].
Qed.

Lemma prefix_append (s1 : string) :
  ∀ s2, String.prefix s1 s2 = true ↔ ∃ rest, s2 = s1 +:+ rest.
Proof.
  induction s1 as [|a s1 IH]; intros [|b s2]; simpl.
  - split; [by exists ""|done].
  - split; [by eexists|done].
  - split; [done|]. by intros [rest [=]].
  - destruct (Ascii.ascii_dec a b) as [<-|Hab].
    + rewrite IH. split; intros [rest Hrest]; exists rest.
      * by rewrite Hrest.
      * change (String a s2 = String a (s1 +:+ rest)) in Hrest. by injection Hrest.
    + split; [done|]. intros [rest [=]]. congruence.
Qed.

Lemma enables_rootfs_propagation_qualifies typ :
  enables_rootfs_propagation typ = true ↔ qualifies typ.
Proof.
  unfold enables_rootfs_propagation, qualifies, strings_HasPrefix.
  rewrite !andb_true_iff, orb_true_iff, !String.eqb_eq, prefix_append. tauto.
Qed.

Lemma propagation_rounds_pos v :
  0 < propagation_rounds v (declared_types v) →
  mount_path v ≠ "" ∧ ∃ typ, typ ∈ declared_types v ∧ qualifies typ.
Proof.
  unfold propagation_rounds. destruct (mount_path v =? "") eqn:Hm; [lia|].
  apply String.eqb_neq in Hm. intros Hlen. split; [done|].
  destruct (List.filter _ _) as [|typ l] eqn:Hf; [cbn in Hlen; lia|].
  assert (In typ (List.filter enables_rootfs_propagation (declared_types v))) as Hin
    by (rewrite Hf; by left).
  apply filter_In in Hin as [Hin Htyp]. exists typ. split.
  - by apply list_elem_of_In.
  - by apply enables_rootfs_propagation_qualifies.
Qed.

Lemma propagation_rounds_none v :
  (∀ typ, typ ∈ declared_types v → ¬ qualifies typ) →
  propagation_rounds v (declared_types v) = 0.
Proof.
  intros Hnone. destruct (propagation_rounds v (declared_types v)) eqn:Hk; [done|].
  destruct (propagation_rounds_pos v) as (_ & typ & Hin & Hq); [lia|].
  by destruct (Hnone typ Hin).
Qed.

Ltac elem H :=
  unfold restore_events, rootfs_events, enable_events, round_ok, round_failed in H;
  repeat match type of H with
    | _ ∈ _ ++ _ => apply elem_of_app in H as [H|H]
    | _ ∈ _ :: _ => apply elem_of_cons in H as [H|H]
    | _ ∈ [] => by apply elem_of_nil in H
    | _ ∈ concat (replicate _ _) => apply elem_of_concat_replicate in H
    | _ ∈ (if ?b then _ else _) => destruct b eqn:?
    | _ ∈ match ?r with Some _ => _ | None => _ end => destruct r eqn:?
    end;
  try discriminate H.

(** C10 (as amended). A recovery task that fails before its publish
    step performs neither the Store update nor the enable call and
    leaves the index of the Store as it is.  After a reattach failure it
    has written nothing to the record.  After a failure to create the
    PropagatedMount directory, the record, which the Store shares,
    already carries the rewritten [Rootfs] and the computed
    [PropagatedMount]. *)
Theorem failed_task_does_not_publish (c : cptr) (p : ptr) (w : World) :
  ∃ w' evs,
    run E (Recovery p) (reload_func E config c p) w = (w', Returned tt) ∧
    since w w' = map (pair (Recovery p)) evs ∧
    ((∃ err, EvPmRestore p (Some err) ∈ evs) →
       (∀ q, EvUpdate q ∉ evs) ∧ (∀ q c' force r, EvPmEnable q c' force r ∉ evs) ∧
       Store_plugins w' = Store_plugins w ∧ plugin_objs w' = plugin_objs w) ∧
    ((∃ path perm err, EvMkdirAll path perm (Some err) ∈ evs) →
       (∀ q, EvUpdate q ∉ evs) ∧ (∀ q c' force r, EvPmEnable q c' force r ∉ evs) ∧
       Store_plugins w' = Store_plugins w ∧
       deref w' p = propagated E config (deref w p)).
Proof.
  destruct (run_reload_func c p w)
    as (w' & evs & Hrun & Hsince & _ & _ & _ & _ & _ & Hout).
  exists w', (evs ++ [EvWgDone]). split; [done|]. split; [done|].
  destruct Hout as [err Hen -> Hh Hst|n err Hn -> Hh Hst|r -> Hh Hst].
  - split.
    + intros _. repeat split; try done.
      * intros q Hq. elem Hq.
      * intros q c' force r Hq. elem Hq.
    + intros (path & perm & err' & Hin). elem Hin.
  - split.
    + intros (err' & Hin). elem Hin.
    + intros _. repeat split; try done.
      * intros q Hq. elem Hq.
      * intros q c' force r Hq. elem Hq.
  - split.
    + intros (err' & Hin). elem Hin.
    + intros (path & perm & err' & Hin). elem Hin.
Qed.


Lemma rewritten_PropagatedMount v :
  v2.PropagatedMount (rewritten E config v) = v2.PropagatedMount v.
Proof. unfold rewritten. by destruct (v2.Rootfs v =? ""). Qed.

(** C3. In a recovery task, [PropagatedMount] is written and a directory
    is created only for a record that declares a capability of type
    volumedriver or graphdriver with prefix docker and a version that
    begins with "1." and whose mount-propagation path is not empty; the
    value written and the directory created (mode 0755) are the join of
    [Rootfs] and that path.  For a record none of whose capabilities
    meets the three conditions the task leaves [PropagatedMount] as it is
    (empty when it was empty) and creates no directory. *)
Theorem PropagatedMount_only_for_qualifying_capability (c : cptr) (p : ptr) (w : World) :
  let v := deref w p in
  ∃ w' evs,
    run E (Recovery p) (reload_func E config c p) w = (w', Returned tt) ∧
    since w w' = map (pair (Recovery p)) evs ∧
    (∀ q path, EvSetPropagatedMount q path ∈ evs →
       q = p ∧ path = filepath_Join E [v2.Rootfs (deref w' p); mount_path v] ∧
       v2.PropagatedMount (deref w' p) = path ∧
       mount_path v ≠ "" ∧ ∃ typ, typ ∈ declared_types v ∧ qualifies typ) ∧
    (∀ path perm r, EvMkdirAll path perm r ∈ evs →
       perm = mode_0755 ∧ path = filepath_Join E [v2.Rootfs (deref w' p); mount_path v] ∧
       v2.PropagatedMount (deref w' p) = path ∧
       mount_path v ≠ "" ∧ ∃ typ, typ ∈ declared_types v ∧ qualifies typ) ∧
    ((∀ typ, typ ∈ declared_types v → ¬ qualifies typ) →
       v2.PropagatedMount (deref w' p) = v2.PropagatedMount v ∧
       (v2.PropagatedMount v = "" → v2.PropagatedMount (deref w' p) = "") ∧
       (∀ q path, EvSetPropagatedMount q path ∉ evs) ∧
       (∀ path perm r, EvMkdirAll path perm r ∉ evs)).
Proof.
  cbn zeta.
  destruct (run_reload_func c p w)
    as (w' & evs & Hrun & Hsince & _ & _ & _ & _ & _ & Hout).
  exists w', (evs ++ [EvWgDone]). split; [done|]. split; [done|].
  set (v := deref w p) in *.
  assert (0 < propagation_rounds v (declared_types v) →
          deref w' p = propagated E config v →
          ∀ path, path = propagated_path E config v →
          path = filepath_Join E [v2.Rootfs (deref w' p); mount_path v] ∧
          v2.PropagatedMount (deref w' p) = path ∧
          mount_path v ≠ "" ∧ ∃ typ, typ ∈ declared_types v ∧ qualifies typ) as Hpos.
  { intros Hk Hp path ->. rewrite Hp. split; [done|]. split; [done|].
    by apply propagation_rounds_pos. }
  destruct Hout as [err Hen -> Hh Hst|n err Hn -> Hh Hst|r -> Hh Hst].
  - split; [|split].
    + intros q path Hq. elem Hq.
    + intros path perm r Hq. elem Hq.
    + intros _. unfold deref. rewrite Hh. split; [done|]. split; [done|].
      split; [intros q path Hq|intros path perm r Hq]; elem Hq.
  - split; [|split].
    + intros q path Hq. elem Hq; injection Hq as -> ->;
        (split; [done|]); apply Hpos; (done || lia).
    + intros path perm r Hq. elem Hq; injection Hq as -> -> ->;
        (split; [done|]); apply Hpos; (done || lia).
    + intros Hnone. rewrite (propagation_rounds_none v Hnone) in Hn. lia.
  - destruct (propagation_rounds v (declared_types v)) as [|k] eqn:Hk.
    + cbn [replicate concat] in *. split; [|split].
      * intros q path Hq. elem Hq.
      * intros path perm r' Hq. elem Hq.
      * intros _. rewrite Hh, rewritten_PropagatedMount. split; [done|]. split; [done|].
        split; [intros q path Hq|intros path perm r' Hq]; elem Hq.
    + split; [|split].
      * intros q path Hq. elem Hq; injection Hq as -> ->;
          (split; [done|]); apply Hpos; (done || lia).
      * intros path perm r' Hq. elem Hq; injection Hq as -> -> ->;
          (split; [done|]); apply Hpos; (done || lia).
      * intros Hnone. rewrite (propagation_rounds_none v Hnone) in Hk. lia.
Qed.


End Task_claims.

(** ** The claims about reload and NewManager *)

Section Manager_claims.
Variable E : Env.
Variable config : ManagerConfig.

Lemma first_load_error_Some dir v err :
  v ∈ dir → validFullID v = true → config_json E config v = inl err →
  ∃ err', first_load_error E config dir = Some err'.
Proof.
  induction dir as [|v' dir IH]; [by intros ?%elem_of_nil|].
  intros [->|Hin]%elem_of_cons Hv Hl; cbn.
  - rewrite Hv, Hl. eauto.
  - destruct (validFullID v'); [|by apply IH].
    destruct (config_json E config v'); [eauto|by apply IH].
Qed.

Lemma first_load_error_None dir :
  (∀ v, v ∈ dir → validFullID v = true → ∃ plugin, config_json E config v = inr plugin) →
  first_load_error E config dir = None.
Proof.
  induction dir as [|v dir IH]; intros Hall; cbn; [done|].
  assert (first_load_error E config dir = None) as Hrec.
  { apply IH. intros v' Hin. apply Hall. by right. }
  destruct (validFullID v) eqn:Hv; [|done].
  destruct (Hall v) as [plugin ->]; [left|done|done].
Qed.

Lemma loaded_ids_length dir :
  first_load_error E config dir = None →
  length (loaded_ids E config dir) = length (List.filter validFullID dir).
Proof.
  unfold loaded_ids. induction dir as [|v dir IH]; cbn; [done|].
  destruct (validFullID v); [|done].
  destruct (config_json E config v); [done|]. cbn. intros H. by rewrite IH.
Qed.

Lemma since_trans w w1 w2 evs1 evs2 :
  trace w1 = trace w ++ evs1 → trace w2 = trace w1 ++ evs2 →
  since w w2 = evs1 ++ evs2 ∧ since w1 w2 = evs2.
Proof.
  intros H1 H2. split; apply since_app; [|done]. by rewrite H2, H1, app_assoc.
Qed.

(** What [NewManager] does before [reload]. *)
Lemma setup_spec w :
  Store_plugins (setup E config w).1 = Store_plugins w ∧
  plugin_objs (setup E config w).1 = plugin_objs w ∧
  ∃ evs, trace (setup E config w).1 = trace w ++ map (pair Caller) evs ∧
         Forall (λ ev, (∃ path r, ev = EvMkdirAll path mode_0700 r) ∨
                       ∃ r, ev = EvExecutorClient r) evs.
Proof.
  unfold setup.
  assert (∀ path r, (∃ path' r', EvMkdirAll path mode_0700 r = EvMkdirAll path' mode_0700 r')
                    ∨ ∃ r', EvMkdirAll path mode_0700 r = EvExecutorClient r') as Hm
    by (intros; left; eauto).
  assert (∀ r, (∃ path' r', EvExecutorClient r = EvMkdirAll path' mode_0700 r')
               ∨ ∃ r', EvExecutorClient r = EvExecutorClient r') as Hc
    by (intros; right; eauto).
  destruct (reply_MkdirAll E w _ _) as [e1|] eqn:H1; cbn.
  { repeat (split; [done|]). eexists [_]. split; [done|]. by repeat apply Forall_cons_2. }
  rewrite ?H1. destruct (reply_MkdirAll E _ (ExecRoot config) _) as [e2|] eqn:H2; cbn.
  { repeat (split; [done|]). eexists [_; _]. cbn. rewrite <- app_assoc.
    split; [done|]. by repeat apply Forall_cons_2. }
  rewrite ?H2. destruct (reply_Client E _) as [e3|] eqn:H3; cbn.
  { repeat (split; [done|]). eexists [_; _; _]. cbn. rewrite <- !app_assoc.
    split; [done|]. by repeat apply Forall_cons_2. }
  repeat (split; [done|]). eexists [_; _; _]. cbn. rewrite <- !app_assoc.
  split; [done|]. by repeat apply Forall_cons_2.
Qed.

Local Arguments reload : simpl never.

Lemma exec_go_NewManager sched w :
  exec_go E sched Caller (NewManager E config) w =
  match setup E config w with
  | (w0, Some err) => (w0, Returned (Some err))
  | (w0, None) =>
      match exec_go E sched Caller (reload E config) w0 with
      | (w', Returned (Some err)) =>
          (w', Returned (Some (errors_Wrap err "failed to restore plugins")))
      | (w', o) => (w', o)
      end
  end.
Proof.
  unfold exec_go, NewManager, setup. cbn.
  destruct (reply_MkdirAll E w _ _) as [e1|] eqn:H1; cbn; [done|].
  rewrite ?H1. destruct (reply_MkdirAll E _ (ExecRoot config) _) as [e2|] eqn:H2; cbn; [done|].
  rewrite ?H2. destruct (reply_Client E _) as [e3|] eqn:H3; cbn; [done|].
  rewrite ?H3. rewrite exec_bind.
  match goal with |- context [exec E ?par Caller (reload E config) ?w0] =>
    by destruct (exec E par Caller (reload E config) w0) as [w' [[err|]|x]]
  end.
Qed.

Lemma elem_of_map_pair (t t' : tid) (ev : Event) evs :
  (t', ev) ∈ map (pair t) evs ↔ t' = t ∧ ev ∈ evs.
Proof.
  rewrite list_elem_of_fmap. split.
  - intros (ev' & [= -> ->] & Hin). done.
  - intros [-> Hin]. eauto.
Qed.

(** C1. When an entry of the root directory in the full-ID format has a
    [config.json] that cannot be read or does not decode, [NewManager]
    returns an error, whatever else the directory holds; [SetAll] is not
    called (nor is [Update]) and the index of the Plugin Store is as it
    was. *)
Theorem NewManager_all_or_nothing (sched : list nat) (w : World) (dir : list string)
    (v : string) :
  reply_ReadDir E (Root config) = inr dir →
  v ∈ dir → validFullID v = true →
  ((∃ err, reply_ReadFile E (config_path E config v) = inl err) ∨
   (∃ dt err, reply_ReadFile E (config_path E config v) = inr dt ∧
              json_Unmarshal E dt = inl err)) →
  ∃ w' err,
    exec_go E sched Caller (NewManager E config) w = (w', Returned (Some err)) ∧
    Store_plugins w' = Store_plugins w ∧
    (∀ t m, (t, EvSetAll m) ∉ since w w') ∧
    (∀ t p, (t, EvUpdate p) ∉ since w w').
Proof.
  intros Hdir Hin Hvalid Hbad.
  assert (∃ err, config_json E config v = inl err) as [err0 Hload].
  { unfold config_json. destruct Hbad as [[err ->]|(dt & err & -> & ->)]; eauto. }
  destruct (first_load_error_Some dir v err0 Hin Hvalid Hload) as [err1 Hfirst].
  assert (phase1_result E config = Some err1) as Hphase.
  { unfold phase1_result. by rewrite Hdir. }
  rewrite exec_go_NewManager.
  destruct (setup_spec w) as (Hst0 & _ & evs0 & Htr0 & Hevs0).
  destruct (setup E config w) as [w0 [err|]]; cbn in Hst0, Htr0.
  - exists w0, err. split; [done|]. split; [done|].
    rewrite (since_app _ _ _ Htr0).
    split; intros t x [_ Hx]%elem_of_map_pair;
      rewrite Forall_forall in Hevs0;
      destruct (Hevs0 _ Hx) as [(? & ? & [=])|(? & [=])].
  - pose proof (exec_go_reload_result E config sched w0) as Hres.
    destruct (exec_go_reload_failed E config sched w0 err1 Hphase)
      as (Hst & _ & _ & _ & _ & evs & Hsince & Hevs).
    destruct (exec_go_trace E sched Caller (reload E config) w0) as [evs' Htr].
    destruct (exec_go E sched Caller (reload E config) w0) as [w' o].
    cbn in Hres, Hst, Hsince, Htr. subst o. rewrite Hphase.
    rewrite (since_app _ _ _ Htr) in Hsince. subst evs'.
    destruct (since_trans _ _ _ _ _ Htr0 Htr) as [Hs _].
    eexists _, _. split; [done|]. split; [congruence|]. rewrite Hs.
    rewrite Forall_forall in Hevs0. rewrite Forall_forall in Hevs.
    split; intros t x [[_ Hx]%elem_of_map_pair|[_ Hx]%elem_of_map_pair]%elem_of_app.
    + destruct (Hevs0 _ Hx) as [(? & ? & [=])|(? & [=])].
    + destruct (Hevs _ Hx) as [(? & [=])|(? & _ & ? & _ & _ & [=])].
    + destruct (Hevs0 _ Hx) as [(? & ? & [=])|(? & [=])].
    + destruct (Hevs _ Hx) as [(? & [=])|(? & _ & ? & _ & _ & [=])].
Qed.

Lemma elem_of_loaded_ids dir v plugin :
  v ∈ dir → validFullID v = true → config_json E config v = inr plugin →
  v2.GetID plugin ∈ loaded_ids E config dir.
Proof.
  intros Hin Hv Hl. unfold loaded_ids. apply list_elem_of_omap. exists v.
  split; [done|]. by rewrite Hv, Hl.
Qed.

(** C8 (as amended). [reload] reads the [config.json] of the entries of
    the root directory whose name is in the full-ID format and of no
    other entry, and every record that it hands to the Plugin Store is the
    record of such an entry.  When every such entry loads, [SetAll] is
    called once, with a map that holds, for each of these entries, one
    record under the identity that its [config.json] carries, which is
    the identity of that record; when these identities are pairwise
    distinct, the map has as many records as there are such entries. *)
Theorem reload_loads_matching_entries (sched : list nat) (w : World) (dir : list string) :
  reply_ReadDir E (Root config) = inr dir →
  let w' := (exec_go E sched Caller (reload E config) w).1 in
  (∀ t path r, (t, EvReadFile path r) ∈ since w w' →
     ∃ v, v ∈ dir ∧ validFullID v = true ∧ path = config_path E config v) ∧
  (∀ t m id p, (t, EvSetAll m) ∈ since w w' → m !! id = Some p →
     ∃ v plugin pv, v ∈ dir ∧ validFullID v = true ∧
       config_json E config v = inr plugin ∧ v2.GetID plugin = id ∧
       plugin_objs w' !! p = Some pv ∧ v2.PluginObj pv = v2.PluginObj plugin) ∧
  ((∀ v, v ∈ dir → validFullID v = true → ∃ plugin, config_json E config v = inr plugin) →
     ∃ m, (Caller, EvSetAll m) ∈ since w w' ∧
       (∀ t m', (t, EvSetAll m') ∈ since w w' → m' = m) ∧
       (∀ v plugin, v ∈ dir → validFullID v = true →
          config_json E config v = inr plugin →
          ∃ p pv, m !! v2.GetID plugin = Some p ∧
            plugin_objs w' !! p = Some pv ∧ v2.GetID pv = v2.GetID plugin) ∧
       (NoDup (loaded_ids E config dir) →
          size m = length (List.filter validFullID dir))).
Proof.
  intros Hdir. cbn zeta.
  destruct (first_load_error E config dir) as [err|] eqn:Hfirst.
  - assert (phase1_result E config = Some err) as Hphase.
    { unfold phase1_result. by rewrite Hdir. }
    destruct (exec_go_reload_failed E config sched w err Hphase)
      as (_ & _ & _ & _ & _ & evs & Hsince & Hevs).
    cbn zeta in Hsince. rewrite Hsince. rewrite Forall_forall in Hevs.
    split; [|split].
    + intros t path r [_ Hx]%elem_of_map_pair.
      destruct (Hevs _ Hx) as [(? & [=])|(dir' & Hdir' & v & Hin & Hv & [= -> _])].
      rewrite Hdir in Hdir'. injection Hdir' as <-. eauto.
    + intros t m id p [_ Hx]%elem_of_map_pair.
      destruct (Hevs _ Hx) as [(? & [=])|(? & _ & ? & _ & _ & [=])].
    + intros Hall. by rewrite (first_load_error_None dir Hall) in Hfirst.
  - destruct (exec_go_reload_ok E config sched w dir Hdir Hfirst)
      as (m & evs1 & evs2 & Hsince & Hevs1 & Hdom & Hm & Hevs2 & _).
    cbn zeta in Hsince, Hm. rewrite Hsince.
    rewrite Forall_forall in Hevs1. rewrite Forall_forall in Hevs2.
    assert (∀ t m', (t, EvSetAll m') ∈
              map (pair Caller)
                (EvReadDir (Root config) (inr dir) :: evs1 ++ [EvSetAll m; EvWgAdd (size m)])
              ++ evs2 → m' = m) as Hone.
    { intros t m' [[_ Hx]%elem_of_map_pair|Hx]%elem_of_app;
        [|by destruct (Hevs2 _ Hx) as [_ []]].
      apply elem_of_cons in Hx as [[=]|Hx].
      apply elem_of_app in Hx as [Hx|Hx].
      - by destruct (Hevs1 _ Hx) as (? & _ & _ & [=]).
      - apply elem_of_cons in Hx as [[= ->]|Hx]; [done|].
        apply list_elem_of_singleton in Hx. done. }
    split; [|split].
    + intros t path r [[_ Hx]%elem_of_map_pair|Hx]%elem_of_app;
        [|by destruct (Hevs2 _ Hx) as [_ []]].
      apply elem_of_cons in Hx as [[=]|Hx].
      apply elem_of_app in Hx as [Hx|Hx].
      * destruct (Hevs1 _ Hx) as (v & Hin & Hv & [= -> _]). eauto.
      * apply elem_of_cons in Hx as [[=]|Hx].
        by apply list_elem_of_singleton in Hx.
    + intros t m' id p Hx Hp. rewrite (Hone t m' Hx) in Hp. by apply Hm.
    + intros Hall. exists m. split; [|split; [done|split]].
      * apply elem_of_app. left. apply elem_of_map_pair. split; [done|].
        right. apply elem_of_app. right. left.
      * intros v plugin Hin Hv Hl.
        assert (v2.GetID plugin ∈ dom m) as [p Hp]%elem_of_dom.
        { rewrite Hdom. apply elem_of_list_to_set. by eapply elem_of_loaded_ids. }
        destruct (Hm _ _ Hp) as (v' & plugin' & pv & _ & _ & _ & Hid & Hpv & Hobj).
        exists p, pv. split; [done|]. split; [done|].
        unfold v2.GetID in *. by rewrite Hobj.
      * intros Hnodup. rewrite <- (loaded_ids_length dir Hfirst).
        rewrite <- size_dom, Hdom. by rewrite size_list_to_set.
Qed.

(** C4. When Phase 1 has loaded its records, [reload] returns nil under
    every schedule and whatever the recovery tasks meet.  It returns
    after every task has reached its [wg.Done()], and every task has
    then published its record with [Update] or has logged the failure of
    its own reattach or of its own directory creation: the failure of a
    task ends that task only.  [NewManager] then returns nil as well. *)
Theorem reload_isolates_task_failures (sched : list nat) (w : World) (dir : list string) :
  reply_ReadDir E (Root config) = inr dir →
  (∀ v, v ∈ dir → validFullID v = true → ∃ plugin, config_json E config v = inr plugin) →
  (∃ w' m,
     exec_go E sched Caller (reload E config) w = (w', Returned None) ∧
     (Caller, EvSetAll m) ∈ since w w' ∧
     ∀ id p, m !! id = Some p →
       (Recovery p, EvWgDone) ∈ since w w' ∧
       ((Recovery p, EvUpdate p) ∈ since w w' ∨
        ∃ ev, (Recovery p, ev) ∈ since w w' ∧
              (restore_failure_log ev ∨ mkdir_failure_log ev))) ∧
  ((setup E config w).2 = None →
     (exec_go E sched Caller (NewManager E config) w).2 = Returned None).
Proof.
  intros Hdir Hall. pose proof (first_load_error_None dir Hall) as Hfirst.
  assert (phase1_result E config = None) as Hphase.
  { unfold phase1_result. by rewrite Hdir. }
  split.
  - pose proof (exec_go_reload_result E config sched w) as Hres.
    destruct (exec_go_reload_ok E config sched w dir Hdir Hfirst)
      as (m & evs1 & evs2 & Hsince & _ & _ & _ & _ & Hpaid).
    destruct (exec_go E sched Caller (reload E config) w) as [w' o].
    cbn [fst snd] in Hres, Hsince. subst o. rewrite Hphase.
    exists w', m. split; [done|]. rewrite Hsince. split.
    + apply elem_of_app. left. apply elem_of_map_pair. split; [done|].
      right. apply elem_of_app. right. left.
    + intros id p Hp. destruct (Hpaid id p Hp) as [(ev1 & Hin1 & ->) (ev2 & Hin2 & Hev2)].
      split; [apply elem_of_app; by right|].
      destruct Hev2 as [->|Hlog].
      * left. apply elem_of_app. by right.
      * right. exists ev2. split; [apply elem_of_app; by right|done].
  - intros Hsetup. rewrite exec_go_NewManager.
    destruct (setup E config w) as [w0 o]. cbn in Hsetup. subst o.
    pose proof (exec_go_reload_result E config sched w0) as Hres.
    destruct (exec_go E sched Caller (reload E config) w0) as [w' o].
    cbn in Hres. subst o. by rewrite Hphase.
Qed.

End Manager_claims.

Section Enable_failures.
Variable E : Env.
Variable config : ManagerConfig.


End Enable_failures.

(** ** The claims on concrete scenarios *)

Section Scenarios.
Import Scenario.

Ltac not_among H :=
  repeat (apply elem_of_cons in H as [H|H]; [discriminate H|]);
  by apply elem_of_nil in H.

Example ids_are_full_ids :
  validFullID idA = true ∧ validFullID idB = true ∧ validFullID "tmp" = false.
Proof. vm_compute. done. Qed.

(** The end-to-end scenario: one enabled record on the disk and no
    live-restore; after [NewManager] the Store holds the record and an
    enable was attempted. *)
Example NewManager_end_to_end :
  let r := exec_go only_B [] Caller (NewManager only_B config) empty_world in
  r.2 = Returned None ∧
  Store_plugins r.1 !! idB = Some 1%positive ∧
  v2.IsEnabled (deref r.1 1%positive) = true ∧
  (Recovery 1%positive, EvPmEnable 1%positive 1%positive true None) ∈ trace r.1.
Proof. vm_compute. repeat split. repeat constructor. Qed.

(** A record with a qualifying capability and a mount-propagation path:
    [Rootfs] is rewritten, [PropagatedMount] is their join and its
    directory is created with mode 0755 before the record is published. *)
Example propagated_mount_is_created :
  let E := env [idA] [(config_of idA, "A")] [("A", recordA)]
             (λ _, None) (λ _, None) (λ _, None) in
  let r := exec_go E [] Caller (NewManager E config) empty_world in
  r.2 = Returned None ∧
  v2.Rootfs (deref r.1 1%positive) = join ["/plugins"; idA; "rootfs"] ∧
  v2.PropagatedMount (deref r.1 1%positive) = join ["/plugins"; idA; "rootfs"; "data"] ∧
  since empty_world r.1 !! 9%nat =
    Some (Recovery 1%positive,
          EvSetRootfs 1%positive (join ["/plugins"; idA; "rootfs"])) ∧
  since empty_world r.1 !! 11%nat =
    Some (Recovery 1%positive,
          EvMkdirAll (join ["/plugins"; idA; "rootfs"; "data"]) mode_0755 None) ∧
  since empty_world r.1 !! 12%nat = Some (Recovery 1%positive, EvUpdate 1%positive).
Proof. vm_compute. done. Qed.

(** A second exit notification for a Controller whose exit signal is
    already closed panics, and the read lock stays held. *)
Example closed_exit_signal_panics :
  let w := set_closed (λ _, {[7%positive]}) (tracked open_signal) in
  let r := run quiet Caller (StateChanged idA exit) w in
  r.2 = Panicked close_of_closed_channel ∧ mu_readers r.1 = 1.
Proof. vm_compute. done. Qed.

Lemma StateChanged_unknown_identity_witness :
  ∃ w' err,
    run quiet Caller (StateChanged "unknown" exit) empty_world = (w', Returned (Some err)) ∧
    controllers w' = controllers empty_world ∧ cMap w' = cMap empty_world ∧
    mu_readers w' = mu_readers empty_world ∧ closed w' = closed empty_world ∧
    plugin_objs w' = plugin_objs empty_world ∧
    Store_plugins w' = Store_plugins empty_world ∧
    trace w' = trace empty_world ++
      [(Caller, debug_entry "unknown" exit); (Caller, EvGetByID "unknown" (inl err))].
Proof.
  apply (StateChanged_unknown_identity quiet "unknown" exit empty_world); reflexivity.
Defined.

Lemma StateChanged_needs_controller_witness :
  ((run quiet Caller (StateChanged idA exit) untracked).2 = Panicked nil_pointer_dereference
     ↔ cMap untracked !! 1%positive = None) ∧
  (cMap untracked !! 1%positive = None →
     let w' := (run quiet Caller (StateChanged idA exit) untracked).1 in
     trace w' = trace untracked ++
       [(Caller, debug_entry idA exit); (Caller, EvGetByID idA (inr 1%positive))] ∧
     mu_readers w' = Datatypes.S (mu_readers untracked) ∧
     controllers w' = controllers untracked ∧ closed w' = closed untracked).
Proof.
  apply (StateChanged_needs_controller quiet idA exit untracked 1%positive);
    vm_compute; reflexivity.
Defined.

Lemma StateChanged_exit_order_witness :
  ∃ w' r_unmount r_enable,
    run quiet Caller (StateChanged idA exit) (tracked open_signal) = (w', Returned None) ∧
    trace w' = trace (tracked open_signal) ++ map (pair Caller)
      ([debug_entry idA exit; EvGetByID idA (inr 1%positive)]
         ++ closing (controllers (tracked open_signal) !!! 1%positive)
         ++ [EvRemoveFromDisk 1%positive]
         ++ unmounting (deref (tracked open_signal) 1%positive) r_unmount
         ++ enabling 1%positive 1%positive
              (controllers (tracked open_signal) !!! 1%positive) r_enable) ∧
    mu_readers w' = mu_readers (tracked open_signal).
Proof.
  apply (StateChanged_exit_order quiet idA exit (tracked open_signal) 1%positive 1%positive).
  - reflexivity.
  - vm_compute. reflexivity.
  - vm_compute. reflexivity.
  - intros ch _ Hin. vm_compute in Hin. discriminate Hin.
Defined.

(** The claim C2 at a Controller as [reload] makes it, with a nil exit
    signal: the record resolves and has its Controller, the handler
    returns nil, removes the on-disk state, unmounts and enables, and
    closes nothing. *)
Lemma nil_exit_signal_is_not_closed :
  let w := tracked nil_signal in
  let r := run quiet Caller (StateChanged idA exit) w in
  Store_plugins w !! idA = Some 1%positive ∧ cMap w !! 1%positive = Some 1%positive ∧
  r.2 = Returned None ∧
  (Caller, EvRemoveFromDisk 1%positive) ∈ since w r.1 ∧
  (Caller, EvPmEnable 1%positive 1%positive true None) ∈ since w r.1 ∧
  ¬ ∃ ch, (Caller, EvClose ch) ∈ since w r.1.
Proof.
  vm_compute. split; [done|]. split; [done|]. split; [done|].
  split; [repeat constructor|]. split; [repeat constructor|].
  intros [ch H]. not_among H.
Qed.

Lemma NewManager_all_or_nothing_witness :
  ∃ w' err,
    exec_go missing_B [] Caller (NewManager missing_B config) empty_world
      = (w', Returned (Some err)) ∧
    Store_plugins w' = Store_plugins empty_world ∧
    (∀ t m, (t, EvSetAll m) ∉ since empty_world w') ∧
    (∀ t p, (t, EvUpdate p) ∉ since empty_world w').
Proof.
  apply (NewManager_all_or_nothing missing_B config [] empty_world [idA; idB] idB).
  - reflexivity.
  - repeat constructor.
  - vm_compute. reflexivity.
  - left. eexists. vm_compute. reflexivity.
Defined.

(** The claim C8 on a directory with two entries in the full-ID format,
    of which the first decodes and the second has no [config.json]:
    [reload] fails, [SetAll] is not called and the entry that decodes has
    no record in the Store. *)
Lemma unreadable_sibling_blocks_valid_entry :
  let r := exec_go missing_B [] Caller (reload missing_B config) empty_world in
  reply_ReadDir missing_B (Root config) = inr [idA; idB] ∧
  validFullID idA = true ∧
  config_json missing_B config idA = inr recordA ∧
  (∃ err, r.2 = Returned (Some err)) ∧
  Store_plugins r.1 !! idA = None ∧
  ¬ ∃ t m, (t, EvSetAll m) ∈ since empty_world r.1.
Proof.
  vm_compute. split; [done|]. split; [done|]. split; [done|].
  split; [eauto|]. split; [done|]. intros (t & m & H). not_among H.
Qed.

Lemma reload_loads_matching_entries_witness :
  let w' := (exec_go reattach_fails [1; 0; 0; 1]%nat Caller
               (reload reattach_fails config) empty_world).1 in
  (∀ t path r, (t, EvReadFile path r) ∈ since empty_world w' →
     ∃ v, v ∈ [idA; "tmp"; idB] ∧ validFullID v = true ∧
          path = config_path reattach_fails config v) ∧
  (∀ t m id p, (t, EvSetAll m) ∈ since empty_world w' → m !! id = Some p →
     ∃ v plugin pv, v ∈ [idA; "tmp"; idB] ∧ validFullID v = true ∧
       config_json reattach_fails config v = inr plugin ∧ v2.GetID plugin = id ∧
       plugin_objs w' !! p = Some pv ∧ v2.PluginObj pv = v2.PluginObj plugin) ∧
  ((∀ v, v ∈ [idA; "tmp"; idB] → validFullID v = true →
      ∃ plugin, config_json reattach_fails config v = inr plugin) →
     ∃ m, (Caller, EvSetAll m) ∈ since empty_world w' ∧
       (∀ t m', (t, EvSetAll m') ∈ since empty_world w' → m' = m) ∧
       (∀ v plugin, v ∈ [idA; "tmp"; idB] → validFullID v = true →
          config_json reattach_fails config v = inr plugin →
          ∃ p pv, m !! v2.GetID plugin = Some p ∧
            plugin_objs w' !! p = Some pv ∧ v2.GetID pv = v2.GetID plugin) ∧
       (NoDup (loaded_ids reattach_fails config [idA; "tmp"; idB]) →
          size m = length (List.filter validFullID [idA; "tmp"; idB]))).
Proof.
  apply (reload_loads_matching_entries reattach_fails config [1; 0; 0; 1]%nat empty_world
           [idA; "tmp"; idB]).
  reflexivity.
Defined.

Lemma reload_isolates_task_failures_witness :
  (∃ w' m,
     exec_go reattach_fails [1; 0; 0; 1]%nat Caller (reload reattach_fails config) empty_world
       = (w', Returned None) ∧
     (Caller, EvSetAll m) ∈ since empty_world w' ∧
     ∀ id p, m !! id = Some p →
       (Recovery p, EvWgDone) ∈ since empty_world w' ∧
       ((Recovery p, EvUpdate p) ∈ since empty_world w' ∨
        ∃ ev, (Recovery p, ev) ∈ since empty_world w' ∧
              (restore_failure_log ev ∨ mkdir_failure_log ev))) ∧
  ((setup reattach_fails config empty_world).2 = None →
     (exec_go reattach_fails [1; 0; 0; 1]%nat Caller
        (NewManager reattach_fails config) empty_world).2 = Returned None).
Proof.
  apply (reload_isolates_task_failures reattach_fails config [1; 0; 0; 1]%nat empty_world
           [idA; "tmp"; idB]).
  - reflexivity.
  - intros v Hin Hv.
    apply elem_of_cons in Hin as [->|Hin]; [eexists; vm_compute; reflexivity|].
    apply elem_of_cons in Hin as [->|Hin]; [vm_compute in Hv; discriminate Hv|].
    apply elem_of_cons in Hin as [->|Hin]; [eexists; vm_compute; reflexivity|].
    by apply elem_of_nil in Hin.
Defined.

(** The scenario of the spec for C4: of two records the reattach of the
    first fails; [NewManager] returns nil, the failure is logged and the
    second record is published. *)
Example one_reattach_failure_of_two :
  let r := exec_go reattach_fails [1; 0; 0; 1]%nat Caller
             (NewManager reattach_fails config) empty_world in
  r.2 = Returned None ∧
  (Recovery 1%positive, EvPmRestore 1%positive (Some (errors_New "reattach failed")))
    ∈ trace r.1 ∧
  (Recovery 2%positive, EvUpdate 2%positive) ∈ trace r.1 ∧
  ¬ (Recovery 1%positive, EvUpdate 1%positive) ∈ trace r.1.
Proof.
  vm_compute. split; [done|]. split; [repeat constructor|]. split; [repeat constructor|].
  intros H. not_among H.
Qed.


(** The claim C10 on a record whose PropagatedMount directory cannot be
    created: the task publishes nothing and enables nothing, and yet the
    record that the Store holds for the identity is not the record as
    Phase 1 installed it: its [Rootfs] is rewritten and its
    [PropagatedMount] is set. *)
Lemma mkdir_failure_leaves_rewritten_record :
  let r := exec_go mkdir_fails [] Caller (NewManager mkdir_fails config) empty_world in
  config_json mkdir_fails config idA = inr recordA ∧
  r.2 = Returned None ∧
  (∃ path err, (Recovery 1%positive, EvMkdirAll path mode_0755 (Some err))
                 ∈ since empty_world r.1) ∧
  (¬ ∃ t p, (t, EvUpdate p) ∈ since empty_world r.1) ∧
  (¬ ∃ t p c force e, (t, EvPmEnable p c force e) ∈ since empty_world r.1) ∧
  Store_plugins r.1 !! idA = Some 1%positive ∧
  deref r.1 1%positive ≠ recordA ∧
  v2.Rootfs recordA = "/var/lib/old/rootfs" ∧
  v2.Rootfs (deref r.1 1%positive) = join ["/plugins"; idA; "rootfs"] ∧
  v2.PropagatedMount recordA = "" ∧
  v2.PropagatedMount (deref r.1 1%positive) = join ["/plugins"; idA; "rootfs"; "data"].
Proof.
  vm_compute. split; [done|]. split; [done|].
  split; [eexists _, _; repeat constructor|].
  split; [intros (t & p & H); not_among H|].
  split; [intros (t & p & c & force & e & H); not_among H|].
  split; [done|]. split; [discriminate|]. done.
Qed.
End Scenarios.

(** ** More on StateChanged *)

Section StateChanged_more.
Variable E : Env.

(** X1. A notification of any state but exit is logged and ignored: the
    handler returns nil without asking the Plugin Store and without
    taking the lock, whether the identity is known or not. *)
Theorem StateChanged_ignores_other_states (id : string) (e : StateInfo) (w : World) :
  StateInfo_State e ≠ StateExit →
  run E Caller (StateChanged id e) w = (record Caller [debug_entry id e] w, Returned None).
Proof.
  intros He. unfold StateChanged, run. by destruct (StateInfo_State e).
Qed.

(** X2. An exit notification for a record whose Controller has an exit
    signal that is already closed makes the handler panic on the close.
    The panic comes after the lookup and under the read lock, which is
    still held; nothing has been removed, unmounted or enabled. *)
Theorem StateChanged_closed_exit_signal (id : string) (e : StateInfo) (w : World)
    (p : ptr) (c : cptr) (ch : chan) :
  StateInfo_State e = StateExit →
  Store_plugins w !! id = Some p →
  cMap w !! p = Some c →
  exitChan (controllers w !!! c) = Some ch →
  ch ∈ closed w →
  ∃ w',
    run E Caller (StateChanged id e) w = (w', Panicked close_of_closed_channel) ∧
    trace w' = trace w ++ [(Caller, debug_entry id e); (Caller, EvGetByID id (inr p))] ∧
    mu_readers w' = Datatypes.S (mu_readers w) ∧
    closed w' = closed w ∧ controllers w' = controllers w ∧ cMap w' = cMap w ∧
    plugin_objs w' = plugin_objs w ∧ Store_plugins w' = Store_plugins w.
Proof.
  intros He Hs Hc Hch Hin. unfold StateChanged, run. rewrite He. cbn.
  rewrite Hs. cbn. rewrite Hc. cbn. rewrite Hch. cbn.
  rewrite perform_chan_close. cbn.
  destruct (decide (ch ∈ closed w)) as [_|Hout]; [|done]. cbn.
  eexists. split; [reflexivity|]. cbn. by rewrite <- app_assoc.
Qed.

(** X3. Two exit notifications for the same record: when the Controller has
    an open exit signal and no restart intent (so that the first
    notification does not reach enable), the first notification is
    handled and the second one panics on the close of the signal that the
    first has closed. *)
Theorem StateChanged_second_exit_panics (id : string) (e e' : StateInfo) (w : World)
    (p : ptr) (c : cptr) (ch : chan) :
  StateInfo_State e = StateExit →
  StateInfo_State e' = StateExit →
  Store_plugins w !! id = Some p →
  cMap w !! p = Some c →
  exitChan (controllers w !!! c) = Some ch →
  ch ∉ closed w →
  restart (controllers w !!! c) = false →
  ∃ w1 w2,
    run E Caller (StateChanged id e) w = (w1, Returned None) ∧
    (∀ t q c' force r, (t, EvPmEnable q c' force r) ∉ since w w1) ∧
    run E Caller (StateChanged id e') w1 = (w2, Panicked close_of_closed_channel).
Proof.
  intros He He' Hs Hc Hch Hopen Hre.
  assert (∀ w1 : World,
            Store_plugins w1 = Store_plugins w → cMap w1 = cMap w →
            controllers w1 = controllers w → ch ∈ closed w1 →
            ∃ w2, run E Caller (StateChanged id e') w1
                  = (w2, Panicked close_of_closed_channel)) as Hsecond.
  { intros w1 Hs1 Hc1 Hct1 Hin. unfold StateChanged, run. rewrite He'. cbn.
    rewrite Hs1, Hs. cbn. rewrite Hc1, Hc. cbn. rewrite Hct1, Hch. cbn.
    rewrite perform_chan_close. cbn.
    destruct (decide (ch ∈ closed w1)) as [_|Hout]; [|done]. cbn. eauto. }
  unfold StateChanged at 1, run at 1. rewrite He. cbn.
  rewrite Hs. cbn. rewrite Hc. cbn. rewrite Hch. cbn.
  rewrite perform_chan_close. cbn.
  destruct (decide (ch ∈ closed w)) as [Hin|_]; [done|]. cbn. rewrite Hre.
  destruct (negb (v2.PropagatedMount (plugin_objs w !!! p) =? "")); cbn.
  - destruct (reply_Unmount _ _ _) as [err|]; cbn.
    + match goal with |- ∃ _ _, (?w1, _) = _ ∧ _ =>
        destruct (Hsecond w1) as [w2 Hw2]; try done; [cbn; set_solver|];
        exists w1, w2
      end.
      split; [done|]. split; [|done]. intros t q c' force r.
      unfold since. cbn. rewrite <- !app_assoc, drop_app_length. cbn.
      rewrite !elem_of_cons, elem_of_nil. naive_solver.
    + match goal with |- ∃ _ _, (?w1, _) = _ ∧ _ =>
        destruct (Hsecond w1) as [w2 Hw2]; try done; [cbn; set_solver|];
        exists w1, w2
      end.
      split; [done|]. split; [|done]. intros t q c' force r.
      unfold since. cbn. rewrite <- !app_assoc, drop_app_length. cbn.
      rewrite !elem_of_cons, elem_of_nil. naive_solver.
  - match goal with |- ∃ _ _, (?w1, _) = _ ∧ _ =>
      destruct (Hsecond w1) as [w2 Hw2]; try done; [cbn; set_solver|];
      exists w1, w2
    end.
    split; [done|]. split; [|done]. intros t q c' force r.
    unfold since. cbn. rewrite <- !app_assoc, drop_app_length. cbn.
    rewrite !elem_of_cons, elem_of_nil. naive_solver.
Qed.

Local Ltac untouched := repeat split; try done; by left.

(** X4. Whatever the notification and the world, the handler itself writes
    no record, no Controller, no entry of the Controller table and
    nothing to the Plugin Store; it closes at most the exit signal of the
    Controller of the record, and closes no channel twice. *)
Theorem StateChanged_frame (id : string) (e : StateInfo) (w : World) :
  let w' := (run E Caller (StateChanged id e) w).1 in
  plugin_objs w' = plugin_objs w ∧ controllers w' = controllers w ∧
  cMap w' = cMap w ∧ Store_plugins w' = Store_plugins w ∧
  (closed w' = closed w ∨
   ∃ p c ch, Store_plugins w !! id = Some p ∧ cMap w !! p = Some c ∧
             exitChan (controllers w !!! c) = Some ch ∧ (ch ∉ closed w) ∧
             closed w' = ({[ch]} ∪ closed w)).
Proof.
  cbn zeta. unfold StateChanged, run.
  destruct (StateInfo_State e); cbn; try untouched.
  destruct (Store_plugins w !! id) as [p|] eqn:Hs; cbn; [|untouched].
  destruct (cMap w !! p) as [c|] eqn:Hc; cbn; [|untouched].
  destruct (exitChan (controllers w !!! c)) as [ch|] eqn:Hch; cbn.
  - rewrite perform_chan_close. cbn.
    destruct (decide (ch ∈ closed w)) as [Hin|Hout]; cbn; [untouched|].
    destruct (negb (v2.PropagatedMount (plugin_objs w !!! p) =? "")); cbn.
    + destruct (reply_Unmount _ _ _); cbn; destruct (restart _); cbn;
        (repeat split; try done; right; by exists p, c, ch).
    + destruct (restart _); cbn;
        (repeat split; try done; right; by exists p, c, ch).
  - destruct (negb (v2.PropagatedMount (plugin_objs w !!! p) =? "")); cbn.
    + destruct (reply_Unmount _ _ _); cbn; destruct (restart _); cbn; untouched.
    + destruct (restart _); cbn; untouched.
Qed.

(** X5. The read lock of the handler: it is released when the handler
    returns, with nil or with an error, and it is still held when the
    handler panics, since both panics come between [RLock] and
    [RUnlock] and the unlock is not deferred. *)
Theorem StateChanged_read_lock (id : string) (e : StateInfo) (w : World) :
  match run E Caller (StateChanged id e) w with
  | (w', Returned _) => mu_readers w' = mu_readers w
  | (w', Panicked _) => mu_readers w' = Datatypes.S (mu_readers w)
  end.
Proof.
  unfold StateChanged, run.
  destruct (StateInfo_State e); cbn; try done.
  destruct (Store_plugins w !! id) as [p|] eqn:Hs; cbn; [|done].
  destruct (cMap w !! p) as [c|] eqn:Hc; cbn; [|done].
  destruct (exitChan (controllers w !!! c)) as [ch|] eqn:Hch; cbn.
  - rewrite perform_chan_close. cbn.
    destruct (decide (ch ∈ closed w)) as [Hin|Hout]; cbn; [done|].
    destruct (negb (v2.PropagatedMount (plugin_objs w !!! p) =? "")); cbn.
    + destruct (reply_Unmount _ _ _); cbn; by destruct (restart _).
    + by destruct (restart _).
  - destruct (negb (v2.PropagatedMount (plugin_objs w !!! p) =? "")); cbn.
    + destruct (reply_Unmount _ _ _); cbn; by destruct (restart _).
    + by destruct (restart _).
Qed.
End StateChanged_more.

(** ** More on NewManager and on Phase 1 of reload *)

Section NewManager_more.
Variable E : Env.
Variable config : ManagerConfig.

Lemma exec_reload_range_dir_scanned {S} par t (dir : list string) :
  ∀ (plugins : gmap string ptr) (w : World),
  trace (exec (S:=S) E par t (reload_range_dir E config dir plugins) w).1
  = trace w ++ map (pair t) (read_of E config <$> scanned E config dir).
Proof.
  induction dir as [|v dir IH]; intros plugins w; cbn [reload_range_dir scanned].
  - cbn. by rewrite app_nil_r.
  - destruct (validFullID v); [|apply IH].
    rewrite exec_bind, exec_loadPlugin. cbn zeta.
    destruct (config_json E config v) as [err|plugin]; cbn; [done|].
    rewrite IH. cbn. by rewrite <- app_assoc.
Qed.

Lemma scanned_first_failure (l1 l2 : list string) (v : string) (err : error) :
  (∀ v', v' ∈ l1 → validFullID v' = true → ∃ plugin, config_json E config v' = inr plugin) →
  validFullID v = true → config_json E config v = inl err →
  scanned E config (l1 ++ v :: l2) = List.filter validFullID l1 ++ [v] ∧
  first_load_error E config (l1 ++ v :: l2) = Some err.
Proof.
  intros Hl1 Hv Herr. induction l1 as [|v' l1 IH]; cbn.
  - by rewrite Hv, Herr.
  - destruct IH as [IH1 IH2]; [intros v'' Hin; apply Hl1; by right|].
    destruct (validFullID v') eqn:Hv'; [|done].
    destruct (Hl1 v') as [plugin ->]; [left|done|]. cbn. by rewrite IH1.
Qed.

(** The history of [reload] starts with the listing of the root
    directory; what follows are reads of [config.json] files, the
    hand-over to the Store and the entries of the recovery tasks. *)
Lemma exec_go_reload_events sched w :
  ∃ evs,
    since w (exec_go E sched Caller (reload E config) w).1
    = (Caller, EvReadDir (Root config) (reply_ReadDir E (Root config))) :: evs ∧
    Forall (λ te, after_listing te.2) evs.
Proof.
  destruct (reply_ReadDir E (Root config)) as [err|dir] eqn:Hdir.
  - unfold exec_go, reload. cbn. rewrite Hdir. cbn. exists []. split; [|done].
    by apply since_app.
  - destruct (first_load_error E config dir) as [err|] eqn:Hfirst.
    + unfold exec_go, reload. cbn. rewrite Hdir. cbn. rewrite exec_bind.
      match goal with |- context [exec E ?par Caller (reload_range_dir E config dir ∅) ?w0] =>
        pose proof (exec_reload_range_dir_scanned par Caller dir ∅ w0) as Htr;
        pose proof (exec_reload_range_dir_result E config par Caller dir ∅ w0) as Hres;
        destruct (exec_reload_range_dir E config par Caller dir ∅ w0)
          as (w1 & r & evs1 & Hrun & _)
      end.
      rewrite Hrun in Htr, Hres |- *. specialize (Hres r eq_refl). rewrite Hfirst in Hres.
      destruct r as [err'|m]; [|done]. cbn in Htr |- *.
      exists (map (pair Caller) (read_of E config <$> scanned E config dir)). split.
      * apply since_app. rewrite Htr. by rewrite <- app_assoc.
      * apply Forall_fmap, Forall_fmap, Forall_true. by intros v.
    + destruct (exec_go_reload_ok E config sched w dir Hdir Hfirst)
        as (m & evs1 & evs2 & Hsince & Hevs1 & _ & _ & Hevs2 & _).
      cbn zeta in Hsince. rewrite Hsince. cbn.
      eexists. split; [reflexivity|]. rewrite map_app. cbn.
      rewrite !Forall_app. split; [split|].
      * apply Forall_fmap. eapply Forall_impl; [exact Hevs1|].
        by intros ev (v & _ & _ & ->).
      * by repeat constructor.
      * eapply Forall_impl; [exact Hevs2|]. intros [t ev] [_ Hev]. cbn in Hev |- *.
        by destruct ev.
Qed.

Lemma after_listing_not_refused ev err : after_listing ev → ¬ refused err ev.
Proof. intros Hev [[path ->]| ->]; [|done]. cbn in Hev. done. Qed.

(** What [NewManager] returns when every call that leaves manager.go
    returns, as the replies of an [Env] do: the error of the first
    refused setup call, else the error of Phase 1 wrapped as a failure
    to restore the plugins, else nil, under every schedule of the
    recovery tasks. *)
Lemma NewManager_returns (sched : list nat) (w : World) :
  (exec_go E sched Caller (NewManager E config) w).2 =
  Returned match (setup E config w).2 with
           | Some err => Some err
           | None =>
               match phase1_result E config with
               | Some err => Some (errors_Wrap err "failed to restore plugins")
               | None => None
               end
           end.
Proof.
  rewrite (exec_go_NewManager E config).
  destruct (setup E config w) as [w0 [err|]]; cbn [snd]; [done|].
  pose proof (exec_go_reload_result E config sched w0) as Hres.
  destruct (exec_go E sched Caller (reload E config) w0) as [w' o].
  cbn in Hres. subst o. by destruct (phase1_result E config).
Qed.

(** X7. [NewManager] lists the root directory only after it has created the
    root directory and the runtime directory with mode 0700 and has got
    the client of the executor, in this order; it lists no other
    directory and lists the root once. *)
Theorem NewManager_setup_comes_first (sched : list nat) (w : World)
    (t : tid) (path : string) (r : error + list string) :
  let w' := (exec_go E sched Caller (NewManager E config) w).1 in
  (t, EvReadDir path r) ∈ since w w' →
  ∃ evs,
    since w w' = map (pair Caller) (setup_done config ++ [EvReadDir (Root config) r]) ++ evs ∧
    t = Caller ∧ path = Root config ∧
    ∀ t' path' r', (t', EvReadDir path' r') ∉ evs.
Proof.
  cbn zeta. rewrite (exec_go_NewManager E config). unfold setup.
  destruct (reply_MkdirAll E w _ _) as [e1|] eqn:H1.
  { unfold since. cbn. rewrite drop_app_length. cbn.
    by rewrite elem_of_cons, elem_of_nil; intros [|]. }
  destruct (reply_MkdirAll E _ (ExecRoot config) _) as [e2|] eqn:H2.
  { unfold since. cbn. rewrite <- app_assoc, drop_app_length. cbn.
    by rewrite !elem_of_cons, elem_of_nil; intros [|[|]]. }
  destruct (reply_Client E _) as [e3|] eqn:H3.
  { unfold since. cbn. rewrite <- !app_assoc, drop_app_length. cbn.
    by rewrite !elem_of_cons, elem_of_nil; intros [|[|[|]]]. }
  match goal with |- context [exec_go E sched Caller (reload E config) ?w0] =>
    set (w3 := w0);
    destruct (exec_go_reload_events sched w3) as (evs & Hsince & Hevs);
    destruct (exec_go_trace E sched Caller (reload E config) w3) as [evs' Htr]
  end.
  assert (trace w3 = trace w ++ map (pair Caller) (setup_done config)) as Htr3.
  { subst w3. cbn. by rewrite <- !app_assoc. }
  assert (since w (exec_go E sched Caller (reload E config) w3).1
          = map (pair Caller) (setup_done config)
            ++ (Caller, EvReadDir (Root config) (reply_ReadDir E (Root config))) :: evs)
    as Hall.
  { rewrite <- Hsince. apply since_app. rewrite Htr, Htr3.
    rewrite <- app_assoc. f_equal. f_equal. symmetry. by apply since_app. }
  assert (∀ t' path' r', (t', EvReadDir path' r') ∉ evs) as Hno.
  { intros t' path' r' Hin. rewrite Forall_forall in Hevs. by apply Hevs in Hin. }
  assert (since w (match exec_go E sched Caller (reload E config) w3 with
                   | (w', Returned (Some err)) =>
                       (w', Returned (Some (errors_Wrap err "failed to restore plugins")))
                   | (w', o) => (w', o)
                   end).1
          = since w (exec_go E sched Caller (reload E config) w3).1) as ->.
  { by destruct (exec_go E sched Caller (reload E config) w3) as [w' [[err|]|x]]. }
  rewrite Hall. intros Hin.
  apply elem_of_app in Hin as [Hin|Hin].
  { cbn in Hin. rewrite !elem_of_cons, elem_of_nil in Hin. naive_solver. }
  apply elem_of_cons in Hin as [[= -> -> ->]|Hin]; [|by apply Hno in Hin].
  exists evs. split; [|done]. rewrite map_app. cbn. by rewrite <- ?app_assoc.
Qed.

(** X8. A refused setup call ends [NewManager]: the refused call is the last
    thing that [NewManager] does, its error comes back wrapped, the root
    directory is not listed, and the Store, the Controller table and the
    records are as they were. *)
Theorem NewManager_refused_setup (sched : list nat) (w : World)
    (t : tid) (ev : Event) (err : error) :
  let w' := (exec_go E sched Caller (NewManager E config) w).1 in
  (t, ev) ∈ since w w' → refused err ev →
  ∃ evs msg,
    since w w' = evs ++ [(Caller, ev)] ∧
    (exec_go E sched Caller (NewManager E config) w).2
      = Returned (Some (errors_Wrap err msg)) ∧
    (∀ t' path r, (t', EvReadDir path r) ∉ since w w') ∧
    Store_plugins w' = Store_plugins w ∧ cMap w' = cMap w ∧
    plugin_objs w' = plugin_objs w.
Proof.
  cbn zeta. rewrite (exec_go_NewManager E config). unfold setup.
  destruct (reply_MkdirAll E w _ _) as [e1|] eqn:H1.
  { unfold since. cbn. rewrite drop_app_length. cbn.
    intros Hin Href. apply list_elem_of_singleton in Hin. injection Hin as -> ->.
    destruct Href as [[path Hp]|Hp]; [|done]. injection Hp as <- <-.
    exists [], ("failed to create " +:+ Root config). repeat split; try done.
    intros t' path' r'. by rewrite elem_of_cons, elem_of_nil; intros [|]. }
  destruct (reply_MkdirAll E _ (ExecRoot config) _) as [e2|] eqn:H2.
  { unfold since. cbn. rewrite <- app_assoc, drop_app_length. cbn.
    intros Hin Href. rewrite !elem_of_cons, elem_of_nil in Hin.
    destruct Hin as [Hin|[Hin|[]]]; injection Hin as -> ->;
      (destruct Href as [[path Hp]|Hp]; [|done]); [done|]. injection Hp as <- <-.
    eexists [_], ("failed to create " +:+ ExecRoot config). repeat split; try done.
    intros t' path' r'. by rewrite !elem_of_cons, elem_of_nil; intros [|[|]]. }
  destruct (reply_Client E _) as [e3|] eqn:H3.
  { unfold since. cbn. rewrite <- !app_assoc, drop_app_length. cbn.
    intros Hin Href. rewrite !elem_of_cons, elem_of_nil in Hin.
    destruct Hin as [Hin|[Hin|[Hin|[]]]]; injection Hin as -> ->;
      (destruct Href as [[path Hp]|Hp]; try done). injection Hp as <-.
    eexists [_; _], "failed to create containerd client". repeat split; try done.
    intros t' path' r'. by rewrite !elem_of_cons, elem_of_nil; intros [|[|[|]]]. }
  match goal with |- context [exec_go E sched Caller (reload E config) ?w0] =>
    set (w3 := w0);
    destruct (exec_go_reload_events sched w3) as (evs & Hsince & Hevs);
    destruct (exec_go_trace E sched Caller (reload E config) w3) as [evs' Htr]
  end.
  assert (trace w3 = trace w ++ map (pair Caller) (setup_done config)) as Htr3.
  { subst w3. cbn. by rewrite <- !app_assoc. }
  assert (since w (exec_go E sched Caller (reload E config) w3).1
          = map (pair Caller) (setup_done config)
            ++ (Caller, EvReadDir (Root config) (reply_ReadDir E (Root config))) :: evs)
    as Hall.
  { rewrite <- Hsince. apply since_app. rewrite Htr, Htr3.
    rewrite <- app_assoc. f_equal. f_equal. symmetry. by apply since_app. }
  assert (since w (match exec_go E sched Caller (reload E config) w3 with
                   | (w', Returned (Some err)) =>
                       (w', Returned (Some (errors_Wrap err "failed to restore plugins")))
                   | (w', o) => (w', o)
                   end).1
          = since w (exec_go E sched Caller (reload E config) w3).1) as ->.
  { by destruct (exec_go E sched Caller (reload E config) w3) as [w' [[err'|]|x]]. }
  rewrite Hall. intros Hin Href. exfalso.
  apply elem_of_app in Hin as [Hin|Hin].
  { cbn in Hin. rewrite !elem_of_cons, elem_of_nil in Hin.
    destruct Href as [[path ->]| ->]; naive_solver. }
  apply elem_of_cons in Hin as [[= -> ->]|Hin].
  { by destruct Href as [[path [=]]|[=]]. }
  rewrite Forall_forall in Hevs. apply Hevs in Hin.
  by apply (after_listing_not_refused ev err).
Qed.

(** X10. Phase 1 is fail-fast in the order of the listing: when the entries
    before [v] that are in the full-ID format all load and [v], in that
    format, does not, [reload] returns the error of [v], has read the
    [config.json] of these entries and of [v] in that order, and reads
    nothing of what comes after [v]; the Store is not called. *)
Theorem reload_stops_at_first_failure (sched : list nat) (w : World)
    (l1 l2 : list string) (v : string) (err : error) :
  reply_ReadDir E (Root config) = inr (l1 ++ v :: l2) →
  (∀ v', v' ∈ l1 → validFullID v' = true → ∃ plugin, config_json E config v' = inr plugin) →
  validFullID v = true →
  config_json E config v = inl err →
  ∃ w',
    exec_go E sched Caller (reload E config) w = (w', Returned (Some err)) ∧
    since w w' =
      map (pair Caller)
        (EvReadDir (Root config) (inr (l1 ++ v :: l2))
           :: (read_of E config <$> (List.filter validFullID l1 ++ [v]))) ∧
    Store_plugins w' = Store_plugins w.
Proof.
  intros Hdir Hl1 Hv Herr.
  destruct (scanned_first_failure l1 l2 v err Hl1 Hv Herr) as [Hscan Hfirst].
  assert (phase1_result E config = Some err) as Hphase.
  { unfold phase1_result. by rewrite Hdir. }
  pose proof (exec_go_reload_result E config sched w) as Hres.
  destruct (exec_go_reload_failed E config sched w err Hphase) as (Hst & _).
  rewrite Hphase in Hres.
  assert (since w (exec_go E sched Caller (reload E config) w).1 =
          map (pair Caller)
            (EvReadDir (Root config) (inr (l1 ++ v :: l2))
               :: (read_of E config <$> (List.filter validFullID l1 ++ [v])))) as Hsince.
  { unfold exec_go, reload. cbn. rewrite Hdir. cbn. rewrite exec_bind.
    match goal with |- context [exec E ?par Caller (reload_range_dir E config ?dir ∅) ?w0] =>
      pose proof (exec_reload_range_dir_scanned par Caller dir ∅ w0) as Htr;
      pose proof (exec_reload_range_dir_result E config par Caller dir ∅ w0) as Hres';
      destruct (exec_reload_range_dir E config par Caller dir ∅ w0)
        as (w1 & r & evs1 & Hrun & _)
    end.
    rewrite Hrun in Htr, Hres' |- *. specialize (Hres' r eq_refl).
    rewrite Hfirst in Hres'. destruct r as [err'|m]; [|done]. cbn in Htr |- *.
    apply since_app. rewrite Htr, Hscan. by rewrite <- app_assoc. }
  destruct (exec_go E sched Caller (reload E config) w) as [w' o].
  cbn [fst snd] in *. subst o. by exists w'.
Qed.

Lemma scanned_last (dir : list string) (err : error) :
  first_load_error E config dir = Some err →
  ∃ l v, scanned E config dir = l ++ [v] ∧ config_json E config v = inl err.
Proof.
  induction dir as [|v dir IH]; cbn; [done|].
  destruct (validFullID v); [|apply IH].
  destruct (config_json E config v) as [err'|plugin] eqn:Hv.
  - intros [= ->]. by exists [], v.
  - intros (l & v' & -> & Hv')%IH. by exists (v :: l), v'.
Qed.

(** X9. Where an error of [NewManager] comes from: the call that failed is
    the last entry of the history, and the error that [NewManager]
    returns wraps the error of that call: once for a refused setup call,
    and for a failure of Phase 1 twice, first with the name of the root
    directory or the path of the [config.json] that could not be read or
    decoded and then as a failure to restore the plugins. *)
Theorem NewManager_error_provenance (sched : list nat) (w : World) (err : error) :
  let w' := (exec_go E sched Caller (NewManager E config) w).1 in
  (exec_go E sched Caller (NewManager E config) w).2 = Returned (Some err) →
  ∃ evs last cause msg,
    since w w' = evs ++ [(Caller, last)] ∧
    ((refused cause last ∧ err = errors_Wrap cause msg) ∨
     (err = errors_Wrap (errors_Wrap cause msg) "failed to restore plugins" ∧
      ((last = EvReadDir (Root config) (inl cause) ∧
        msg = "failed to read " +:+ Root config) ∨
       (∃ path, last = EvReadFile path (inl cause) ∧ msg = "error reading " +:+ path) ∨
       (∃ path dt, last = EvReadFile path (inr dt) ∧ json_Unmarshal E dt = inl cause ∧
                   msg = "error decoding " +:+ path)))).
Proof.
  cbn zeta. rewrite (exec_go_NewManager E config). unfold setup.
  destruct (reply_MkdirAll E w _ _) as [e1|] eqn:H1.
  { cbn. intros [= <-]. unfold since. cbn. rewrite drop_app_length.
    exists [], (EvMkdirAll (Root config) mode_0700 (Some e1)), e1,
      ("failed to create " +:+ Root config).
    split; [done|]. left. split; [left; eauto|done]. }
  destruct (reply_MkdirAll E _ (ExecRoot config) _) as [e2|] eqn:H2.
  { cbn. intros [= <-]. unfold since. cbn. rewrite <- app_assoc, drop_app_length.
    eexists [_], (EvMkdirAll (ExecRoot config) mode_0700 (Some e2)), e2,
      ("failed to create " +:+ ExecRoot config).
    split; [done|]. left. split; [left; eauto|done]. }
  destruct (reply_Client E _) as [e3|] eqn:H3.
  { cbn. intros [= <-]. unfold since. cbn. rewrite <- !app_assoc, drop_app_length.
    eexists [_; _], (EvExecutorClient (Some e3)), e3, "failed to create containerd client".
    split; [done|]. left. split; [by right|done]. }
  match goal with |- context [exec_go E sched Caller (reload E config) ?w0] =>
    set (w3 := w0);
    pose proof (exec_go_reload_result E config sched w3) as Hres;
    destruct (exec_go_trace E sched Caller (reload E config) w3) as [evs' Htr]
  end.
  assert (trace w3 = trace w ++ map (pair Caller) (setup_done config)) as Htr3.
  { subst w3. cbn. by rewrite <- !app_assoc. }
  clearbody w3.
  assert ((∃ evs last cause msg,
            since w3 (exec_go E sched Caller (reload E config) w3).1
            = evs ++ [(Caller, last)] ∧
            phase1_result E config = Some (errors_Wrap cause msg) ∧
            ((last = EvReadDir (Root config) (inl cause) ∧
              msg = "failed to read " +:+ Root config) ∨
             (∃ path, last = EvReadFile path (inl cause) ∧ msg = "error reading " +:+ path) ∨
             (∃ path dt, last = EvReadFile path (inr dt) ∧ json_Unmarshal E dt = inl cause ∧
                         msg = "error decoding " +:+ path)))
          ∨ phase1_result E config = None) as Hphase.
  { unfold phase1_result.
    destruct (reply_ReadDir E (Root config)) as [e|dir] eqn:Hdir.
    - left. exists [], (EvReadDir (Root config) (inl e)), e, ("failed to read " +:+ Root config).
      split; [|split; [done|by left]].
      unfold exec_go, reload. cbn. rewrite Hdir. cbn. by apply since_app.
    - destruct (first_load_error E config dir) as [e|] eqn:Hfirst; [|by right]. left.
      destruct (scanned_last dir e Hfirst) as (l & v & Hscan & Hv).
      assert (since w3 (exec_go E sched Caller (reload E config) w3).1 =
              map (pair Caller) (EvReadDir (Root config) (inr dir) :: (read_of E config <$> l))
              ++ [(Caller, read_of E config v)]) as Hsince.
      { unfold exec_go, reload. cbn. rewrite Hdir. cbn. rewrite exec_bind.
        match goal with |- context [exec E ?par Caller (reload_range_dir E config dir ∅) ?w0] =>
          pose proof (exec_reload_range_dir_scanned par Caller dir ∅ w0) as Htr';
          pose proof (exec_reload_range_dir_result E config par Caller dir ∅ w0) as Hres';
          destruct (exec_reload_range_dir E config par Caller dir ∅ w0)
            as (w1 & r & evs1 & Hrun & _)
        end.
        rewrite Hrun in Htr', Hres' |- *. specialize (Hres' r eq_refl).
        rewrite Hfirst in Hres'. destruct r as [err'|m]; [|done]. cbn in Htr' |- *.
        apply since_app. rewrite Htr', Hscan. rewrite fmap_app, map_app. cbn.
        by rewrite <- !app_assoc. }
      unfold config_json in Hv. unfold read_of in Hsince.
      destruct (reply_ReadFile E (config_path E config v)) as [e'|dt] eqn:Hread.
      + injection Hv as <-. eexists _, _, e', _. split; [exact Hsince|].
        split; [done|]. right. left. eauto.
      + destruct (json_Unmarshal E dt) as [e'|plugin] eqn:Hdec; [|done].
        injection Hv as <-. eexists _, _, e', _. split; [exact Hsince|].
        split; [done|]. right. right. eauto. }
  destruct (exec_go E sched Caller (reload E config) w3) as [w' o].
  cbn [fst snd] in *. subst o.
  destruct Hphase as [(evs & last & cause & msg & Hsince & -> & Hlast)| ->]; [|done].
  cbn [fst snd]. intros [= <-]. exists (map (pair Caller) (setup_done config) ++ evs), last, cause, msg.
  split; [|by right].
  unfold since in Hsince |- *. rewrite Htr, Htr3 in Hsince |- *.
  rewrite drop_app_length in Hsince. rewrite <- !app_assoc, drop_app_length.
  by rewrite Hsince.
Qed.
End NewManager_more.

(** ** Goroutines that keep to their own part of the world *)

Section Local_lemmas.
Variable E : Env.
Context {X : Type}.
Variable own : tid → World → X.
Variable guar : tid → World → World → Prop.
Variable member : tid → Prop.
Variable frame : World → World → Prop.

Hypothesis rely : ∀ t t' w w',
  member t → member t' → t ≠ t' → guar t' w w' → own t w' = own t w.
Hypothesis frame_refl : ∀ w, frame w w.
Hypothesis frame_trans : ∀ w1 w2 w3, frame w1 w2 → frame w2 w3 → frame w1 w3.
Hypothesis guar_frame : ∀ t w w', member t → guar t w w' → frame w w'.

Lemma local_inv {A} t (Q : A → X → Prop) x (m : Prog Empty_set A) :
  local E own guar t Q x m →
  match m with
  | Ret a => Q a x
  | Do op k =>
      (∀ w, own t w = x → guar t w (perform E t op w).1) ∧
      (∀ w, own t w = x →
         local E own guar t Q (own t (perform E t op w).1) (k (perform E t op w).2))
  | _ => False
  end.
Proof. by destruct 1. Qed.

Lemma local_weaken {A} t (Q Q' : A → X → Prop) x (m : Prog Empty_set A) :
  (∀ a x', Q a x' → Q' a x') →
  local E own guar t Q x m → local E own guar t Q' x m.
Proof.
  intros HQ. induction 1 as [x a Ha|R x op k Hg Hk IH].
  - apply local_Ret. by apply HQ.
  - apply local_Do; [done|]. intros w Hw. by apply IH.
Qed.

Lemma local_bind {A B} t (Q : A → X → Prop) (Q' : B → X → Prop) x
    (m : Prog Empty_set A) (f : A → Prog Empty_set B) :
  local E own guar t Q x m →
  (∀ a x', Q a x' → local E own guar t Q' x' (f a)) →
  local E own guar t Q' x (bind m f).
Proof.
  intros Hm Hf. induction Hm as [x a Ha|R x op k Hg Hk IH]; cbn.
  - by apply Hf.
  - apply local_Do; [done|]. intros w Hw. by apply IH.
Qed.

(** A goroutine that runs alone to its end. *)
Lemma run_local {A} t (Q : A → X → Prop) (m : Prog Empty_set A) :
  member t →
  ∀ x w, local E own guar t Q x m → own t w = x →
  ∃ w' a,
    run E t m w = (w', Returned a) ∧ Q a (own t w') ∧ frame w w' ∧
    ∀ t', member t' → t' ≠ t → own t' w' = own t' w.
Proof.
  intros Ht x w Hm. revert w. induction Hm as [x a Ha|R x op k Hg Hk IH]; intros w Hw.
  - exists w, a. subst x. by repeat split.
  - unfold run. cbn [exec].
    specialize (Hg w Hw). specialize (IH w Hw).
    destruct (perform E t op w) as [w1 r]. cbn [fst snd] in *.
    destruct (IH w1 eq_refl) as (w' & a & Hrun & Ha & Hfr & Hothers).
    exists w', a. split; [exact Hrun|]. split; [done|]. split.
    + eapply frame_trans; [|exact Hfr]. by eapply guar_frame.
    + intros t' Ht' Hne. rewrite Hothers by done. exact (rely t' t w w1 Ht' Ht Hne Hg).
Qed.

Section Pool.
Variable Φ : tid → X → Prop.

Local Abbreviation locally := (locally E own guar member Φ).

Lemma locally_rely w w' t tk :
  member t → tk.1 ≠ t → guar t w w' → locally w tk → locally w' tk.
Proof.
  intros Ht Hne Hg [Hm Hl]. split; [done|]. by rewrite (rely tk.1 t w w').
Qed.

Lemma locally_others w w' (pool : list (tid * Task)) :
  (∀ t', member t' → t' ∈ pool.*1 → own t' w' = own t' w) →
  Forall (locally w) pool → Forall (locally w') pool.
Proof.
  intros Hsame Hpool. apply Forall_forall. intros tk Hin.
  rewrite Forall_forall in Hpool. destruct (Hpool tk Hin) as [Hm Hl].
  split; [done|]. rewrite Hsame; [done..|]. by apply list_elem_of_fmap_2.
Qed.

Lemma drain_local (pool : list (tid * Task)) :
  ∀ w, NoDup pool.*1 → Forall (locally w) pool →
  ∃ w',
    drain E pool w = (w', None) ∧ frame w w' ∧
    Forall (λ t, Φ t (own t w')) pool.*1 ∧
    ∀ t, member t → t ∉ pool.*1 → own t w' = own t w.
Proof.
  induction pool as [|[t m] pool IH]; intros w Hnd Hpool.
  - exists w. by repeat split.
  - cbn in Hnd. apply NoDup_cons in Hnd as [Hnotin Hnd].
    apply Forall_cons in Hpool as [[Ht Hl] Hpool]. cbn in Ht, Hl.
    destruct (run_local t _ m Ht _ w Hl eq_refl) as (w1 & a & Hrun & Ha & Hfr & Hothers).
    destruct (IH w1 Hnd) as (w' & Hdrain & Hfr' & Hall & Hrest).
    { apply (locally_others w); [|done]. intros t' Ht' Hin. apply Hothers; [done|].
      by intros ->. }
    exists w'. cbn [drain]. rewrite Hrun, Hdrain. split; [done|]. split.
    { by eapply frame_trans. }
    split.
    + cbn. constructor; [|done]. by rewrite Hrest.
    + intros t' Ht' Hnot. cbn in Hnot. apply not_elem_of_cons in Hnot as [Hne Hnot].
      rewrite Hrest by done. by apply Hothers.
Qed.

(** Under every schedule, goroutines with distinct names that keep to
    their own part of the world all return, and each leaves what it
    would leave alone. *)
Lemma interleave_local (sched : list nat) :
  ∀ (pool : list (tid * Task)) w,
  NoDup pool.*1 → Forall (locally w) pool →
  ∃ w',
    interleave E sched pool w = (w', None) ∧ frame w w' ∧
    Forall (λ t, Φ t (own t w')) pool.*1 ∧
    ∀ t, member t → t ∉ pool.*1 → own t w' = own t w.
Proof.
  induction sched as [|i sched IH]; intros pool w Hnd Hpool; [by apply drain_local|].
  cbn [interleave]. destruct (pool !! i) as [[t m]|] eqn:Hi; [|by apply IH].
  pose proof (Forall_lookup_1 _ _ _ _ Hpool Hi) as [Ht Hl]. cbn in Ht, Hl.
  assert (pool.*1 !! i = Some t) as Hti by (by rewrite list_lookup_fmap, Hi).
  pose proof (local_inv _ _ _ _ Hl) as Hinv.
  destruct m as [a|x|R op k|ts k]; try done.
  - cbn. rewrite list_insert_id by done. by apply IH.
  - destruct Hinv as [Hg Hk]. specialize (Hg w eq_refl). specialize (Hk w eq_refl).
    cbn [step]. destruct (perform E t op w) as [w1 r]. cbn [fst snd] in *.
    assert ((<[i := (t, k r)]> pool).*1 = pool.*1) as Hnames.
    { rewrite list_fmap_insert. by apply list_insert_id. }
    destruct (IH (<[i := (t, k r)]> pool) w1) as (w' & Hrun & Hfr & Hall & Hrest).
    { by rewrite Hnames. }
    { apply Forall_lookup_2. intros j tk Hj.
      destruct (decide (i = j)) as [<-|Hij].
      - rewrite list_lookup_insert_eq in Hj by (by eapply lookup_lt_Some).
        injection Hj as <-. by split.
      - rewrite list_lookup_insert_ne in Hj by done.
        pose proof (Forall_lookup_1 _ _ _ _ Hpool Hj) as Htk.
        apply (locally_rely w w1 t); try done. intros Heq. apply Hij.
        eapply NoDup_lookup; [exact Hnd|exact Hti|].
        by rewrite list_lookup_fmap, Hj; cbn; f_equal. }
    exists w'. rewrite Hnames in Hall, Hrest. split; [done|]. split.
    { eapply frame_trans; [|exact Hfr]. by eapply guar_frame. }
    split; [done|]. intros t' Ht' Hnot. rewrite Hrest by done.
    apply (rely t' t); try done. intros ->. apply Hnot.
    by eapply list_elem_of_lookup_2.
Qed.
End Pool.
End Local_lemmas.

(** ** The recovery tasks under a schedule *)

Section Task_local.
Variable E : Env.
Variable config : ManagerConfig.
Variable id_of : ptr → string.
Variable ptrs : gset ptr.
Hypothesis id_of_inj : ∀ p q, p ∈ ptrs → q ∈ ptrs → id_of p = id_of q → p = q.

Local Abbreviation recovers := (recovers ptrs).

Lemma own_events_app t t' tr evs :
  own_events t (tr ++ map (pair t') evs)
  = own_events t tr ++ (if decide (t' = t) then evs else []).
Proof.
  unfold own_events. rewrite omap_app. f_equal.
  induction evs as [|ev evs IH]; cbn; [by destruct (decide _)|].
  rewrite IH. by destruct (decide (t' = t)).
Qed.

Lemma record_fields t evs w :
  plugin_objs (record t evs w) = plugin_objs w ∧
  controllers (record t evs w) = controllers w ∧
  Store_plugins (record t evs w) = Store_plugins w ∧
  cMap (record t evs w) = cMap w ∧
  mu_readers (record t evs w) = mu_readers w ∧
  closed (record t evs w) = closed w ∧
  trace (record t evs w) = trace w ++ map (pair t) evs.
Proof. destruct evs; cbn; by rewrite ?app_nil_r. Qed.

Lemma task_rely t t' w w' :
  recovers t → recovers t' → t ≠ t' → task_guar id_of t' w w' →
  task_view id_of t w' = task_view id_of t w.
Proof.
  intros (p & -> & Hp) (q & -> & Hq) Hne (Hobj & Hst & Hcm & _ & _ & _ & evs & Htr).
  assert (p ≠ q) as Hpq by congruence.
  unfold task_view. rewrite Hobj, Hcm by done. rewrite Hst.
  - rewrite Htr, own_events_app. rewrite decide_False by congruence.
    by rewrite app_nil_r.
  - intros Heq. apply Hpq. by apply id_of_inj.
Qed.

Lemma tasks_frame_refl w : tasks_frame id_of ptrs w w.
Proof. by repeat split. Qed.

Lemma tasks_frame_trans w1 w2 w3 :
  tasks_frame id_of ptrs w1 w2 → tasks_frame id_of ptrs w2 w3 →
  tasks_frame id_of ptrs w1 w3.
Proof.
  intros (Ho1 & Hs1 & Hc1 & Hk1 & Hcl1 & Hmu1) (Ho2 & Hs2 & Hc2 & Hk2 & Hcl2 & Hmu2).
  repeat split.
  - intros p Hp. by rewrite Ho2, Ho1.
  - intros id Hid. by rewrite Hs2, Hs1.
  - intros p Hp. by rewrite Hc2, Hc1.
  - by etrans.
  - congruence.
  - congruence.
Qed.

Lemma task_guar_frame t w w' :
  recovers t → task_guar id_of t w w' → tasks_frame id_of ptrs w w'.
Proof.
  intros (q & -> & Hq) (Hobj & Hst & Hcm & Hk & Hcl & Hmu & _). repeat split; try done.
  - intros p Hp. apply Hobj. by intros ->.
  - intros id Hid. apply Hst. intros ->. by apply (Hid q).
  - intros p Hp. apply Hcm. by intros ->.
Qed.

Section One_task.
Variable p : ptr.

Local Abbreviation L := (local E (task_view id_of) (task_guar id_of) (Recovery p)).

Lemma view_emit_nil x : view_emit [] x = x.
Proof. destruct x. unfold view_emit. cbn. by rewrite app_nil_r. Qed.

Lemma view_emit_emit evs1 evs2 x :
  view_emit evs2 (view_emit evs1 x) = view_emit (evs1 ++ evs2) x.
Proof. unfold view_emit. cbn. by rewrite app_assoc. Qed.

Lemma task_view_record evs w :
  task_view id_of (Recovery p) (record (Recovery p) evs w)
  = view_emit evs (task_view id_of (Recovery p) w).
Proof.
  destruct (record_fields (Recovery p) evs w) as (Ho & _ & Hs & Hc & _ & _ & Ht).
  unfold task_view, view_emit. cbn. rewrite Ho, Hs, Hc, Ht, own_events_app.
  by rewrite decide_True.
Qed.

Lemma task_guar_record evs w :
  task_guar id_of (Recovery p) w (record (Recovery p) evs w).
Proof.
  destruct (record_fields (Recovery p) evs w) as (Ho & Hk & Hs & Hc & Hmu & Hcl & Ht).
  cbn. rewrite Ho, Hk, Hs, Hc, Hmu, Hcl. repeat split; try done. by exists evs.
Qed.

(** An operation that changes nothing but the history. *)
Lemma local_quiet {A R} (Q : A → view → Prop) x (op : Op R) k :
  (∀ w, (effect E op w).1 = w) →
  (∀ r, L Q (view_emit (emit op r) x) (k r)) →
  L Q x (Do op k).
Proof.
  intros Hq Hk.
  assert (∀ w, perform E (Recovery p) op w
               = (record (Recovery p) (emit op (effect E op w).2) w, (effect E op w).2))
    as Hperf.
  { intros w. unfold perform. specialize (Hq w).
    destruct (effect E op w) as [w1 r]. cbn in Hq |- *. by subst w1. }
  apply local_Do; intros w Hw; rewrite Hperf; cbn [fst snd].
  - apply task_guar_record.
  - rewrite task_view_record, Hw. apply Hk.
Qed.

Lemma local_load_Plugin {A} (Q : A → view → Prop) x pv k :
  view_record x = Some pv →
  L Q x (k pv) → L Q x (Do (load_Plugin p) k).
Proof.
  intros Hx Hk.
  apply local_Do; intros w Hw;
    change (perform E (Recovery p) (load_Plugin p) w) with (w, deref w p); cbn [fst snd].
  - cbn. repeat split; try done. exists []; cbn; by rewrite app_nil_r.
  - assert (plugin_objs w !! p = Some pv) as Hp by (by rewrite <- Hx, <- Hw).
    unfold deref. rewrite (lookup_total_correct _ _ _ Hp). by rewrite Hw.
Qed.

Lemma local_store_Rootfs {A} (Q : A → view → Prop) x pv s k :
  view_record x = Some pv →
  L Q (view_emit [EvSetRootfs p s] (view_with_record (v2.with_Rootfs s pv) x)) (k tt) →
  L Q x (Do (store_Rootfs p s) k).
Proof.
  intros Hx Hk.
  apply local_Do; intros w Hw;
    change (perform E (Recovery p) (store_Rootfs p s) w)
      with (record (Recovery p) [EvSetRootfs p s]
              (set_plugin_objs (<[p := v2.with_Rootfs s (deref w p)]>) w), tt);
    cbn [fst snd].
  - cbn. repeat split; try done.
    + intros q Hq. by rewrite lookup_insert_ne.
    + by exists [EvSetRootfs p s].
  - assert (plugin_objs w !! p = Some pv) as Hp by (by rewrite <- Hx, <- Hw).
    rewrite task_view_record. unfold deref. rewrite (lookup_total_correct _ _ _ Hp).
    replace (task_view id_of (Recovery p) _)
      with (view_with_record (v2.with_Rootfs s pv) x); [done|].
    subst x. unfold task_view, view_with_record. cbn. by rewrite lookup_insert_eq.
Qed.

Lemma local_store_PropagatedMount {A} (Q : A → view → Prop) x pv s k :
  view_record x = Some pv →
  L Q (view_emit [EvSetPropagatedMount p s]
         (view_with_record (v2.with_PropagatedMount s pv) x)) (k tt) →
  L Q x (Do (store_PropagatedMount p s) k).
Proof.
  intros Hx Hk.
  apply local_Do; intros w Hw;
    change (perform E (Recovery p) (store_PropagatedMount p s) w)
      with (record (Recovery p) [EvSetPropagatedMount p s]
              (set_plugin_objs (<[p := v2.with_PropagatedMount s (deref w p)]>) w), tt);
    cbn [fst snd].
  - cbn. repeat split; try done.
    + intros q Hq. by rewrite lookup_insert_ne.
    + by exists [EvSetPropagatedMount p s].
  - assert (plugin_objs w !! p = Some pv) as Hp by (by rewrite <- Hx, <- Hw).
    rewrite task_view_record. unfold deref. rewrite (lookup_total_correct _ _ _ Hp).
    replace (task_view id_of (Recovery p) _)
      with (view_with_record (v2.with_PropagatedMount s pv) x); [done|].
    subst x. unfold task_view, view_with_record. cbn. by rewrite lookup_insert_eq.
Qed.

Lemma local_Store_Update {A} (Q : A → view → Prop) x pv k :
  view_record x = Some pv → v2.GetID pv = id_of p →
  L Q (view_emit [EvUpdate p] (view_with_index p x)) (k tt) →
  L Q x (Do (Store_Update p) k).
Proof.
  intros Hx Hid Hk.
  apply local_Do; intros w Hw;
    change (perform E (Recovery p) (Store_Update p) w)
      with (record (Recovery p) [EvUpdate p]
              (set_Store_plugins (<[v2.GetID (deref w p) := p]>) w), tt);
    cbn [fst snd];
    assert (plugin_objs w !! p = Some pv) as Hp by (by rewrite <- Hx, <- Hw);
    unfold deref; rewrite (lookup_total_correct _ _ _ Hp), Hid.
  - cbn. repeat split; try done.
    + intros id Hne. by rewrite lookup_insert_ne.
    + by exists [EvUpdate p].
  - rewrite task_view_record.
    replace (task_view id_of (Recovery p) _) with (view_with_index p x); [done|].
    subst x. unfold task_view, view_with_index. cbn. by rewrite lookup_insert_eq.
Qed.

Lemma local_new_controller {A} (Q : A → view → Prop) x ctl k :
  (∀ c, L Q x (k c)) → L Q x (Do (new_controller ctl) k).
Proof.
  intros Hk.
  apply local_Do; intros w Hw;
    change (perform E (Recovery p) (new_controller ctl) w)
      with (set_controllers (<[fresh (dom (controllers w)) := ctl]>) w,
            fresh (dom (controllers w)));
    cbn [fst snd].
  - cbn. repeat split; try done.
    + apply insert_subseteq. apply not_elem_of_dom. apply is_fresh.
    + exists []. cbn. by rewrite app_nil_r.
  - assert (task_view id_of (Recovery p)
              (set_controllers (<[fresh (dom (controllers w)) := ctl]>) w) = x) as ->
      by (by subst x).
    apply Hk.
Qed.

Lemma local_cMap_assign {A} (Q : A → view → Prop) x c k :
  L Q (view_with_cMap c x) (k tt) → L Q x (Do (cMap_assign p c) k).
Proof.
  intros Hk.
  apply local_Do; intros w Hw;
    change (perform E (Recovery p) (cMap_assign p c) w)
      with (set_cMap (<[p := c]>) w, tt);
    cbn [fst snd].
  - cbn. repeat split; try done.
    + intros q Hq. by rewrite lookup_insert_ne.
    + exists []. cbn. by rewrite app_nil_r.
  - replace (task_view id_of (Recovery p) _) with (view_with_cMap c x); [done|].
    subst x. unfold task_view, view_with_cMap. cbn. by rewrite lookup_insert_eq.
Qed.

(** The loop over the declared capabilities. *)
Lemma local_reload_range_Types (typs : list types.PluginInterfaceType) :
  ∀ x pv,
  view_record x = Some pv →
  let path := filepath_Join E [v2.Rootfs pv; mount_path pv] in
  let k := propagation_rounds pv typs in
  L (λ b x',
       (b = true ∧
        x' = view_emit (concat (replicate k (round_ok p path)))
               (if k is 0 then x
                else view_with_record (v2.with_PropagatedMount path pv) x)) ∨
       (b = false ∧ ∃ n err, n < k ∧
        x' = view_emit (concat (replicate n (round_ok p path)) ++ round_failed p path err)
               (view_with_record (v2.with_PropagatedMount path pv) x)))
    x (reload_range_Types E p typs).
Proof.
  induction typs as [|typ typs IH]; intros x pv Hx; cbn zeta.
  - apply local_Ret. left. split; [done|]. unfold propagation_rounds.
    destruct (mount_path pv =? ""); cbn; by rewrite view_emit_nil.
  - cbn [reload_range_Types]. unfold propagation_rounds. cbn [List.filter].
    destruct (enables_rootfs_propagation typ) eqn:Htyp; [|by apply IH].
    cbn [bind call]. apply (local_load_Plugin _ _ pv); [done|].
    fold (mount_path pv). destruct (mount_path pv =? "") eqn:Hmnt; cbn [negb].
    { specialize (IH x pv Hx). cbn zeta in IH. unfold propagation_rounds in IH.
      by rewrite Hmnt in IH. }
    set (path := filepath_Join E [v2.Rootfs pv; mount_path pv]).
    set (pv' := v2.with_PropagatedMount path pv).
    cbn [bind call]. apply (local_store_PropagatedMount _ _ pv); [done|]. fold pv'.
    apply local_quiet; [done|]. intros [err|]; cbn [emit].
    + cbn [bind call logrus_Errorf]. apply local_quiet; [done|]. intros [].
      apply local_Ret. right. split; [done|]. exists 0, err. split; [cbn; lia|].
      unfold view_emit, view_with_record, round_failed; cbn; f_equal.
      by rewrite <- ?app_assoc.
    + specialize (IH (view_emit [EvMkdirAll path mode_0755 None]
                        (view_emit [EvSetPropagatedMount p path]
                           (view_with_record pv' x))) pv' eq_refl).
      cbn zeta in IH. unfold propagation_rounds, mount_path in IH. cbn in IH.
      fold (mount_path pv) in IH. rewrite Hmnt in IH. fold path in IH. fold pv' in IH.
      eapply local_weaken; [|exact IH]. cbn beta.
      intros b x' [[-> ->]|(-> & n & err & Hn & ->)].
      * left. split; [done|]. subst pv'. cbn [length].
        destruct (length (List.filter enables_rootfs_propagation typs));
          unfold view_emit, view_with_record, round_ok; cbn; f_equal;
          by rewrite <- ?app_assoc.
      * right. split; [done|]. exists (Datatypes.S n), err. split; [cbn; lia|].
        subst pv'. unfold view_emit, view_with_record, round_ok; cbn; f_equal.
        by rewrite <- ?app_assoc.
Qed.

Lemma local_restorePlugin x v :
  view_record x = Some v →
  L (λ err x', x' = view_emit (restore_events config p v err) x ∧
               (v2.IsEnabled v = false → err = None))
    x (restorePlugin config p).
Proof.
  intros Hx. unfold restorePlugin, Plugin_IsEnabled, restore_events. cbn [bind call].
  apply local_quiet; [done|]. intros []. cbn [emit].
  apply (local_load_Plugin _ _ v); [done|].
  destruct (v2.IsEnabled v) eqn:Hen.
  - apply local_quiet; [done|]. intros r. apply local_Ret. cbn [emit].
    split; [|done]. by rewrite view_emit_emit.
  - apply local_Ret. by split.
Qed.

Lemma local_rewrite_Rootfs x v :
  view_record x = Some v →
  L (λ _ x', x' = view_emit (rootfs_events E config p v)
                    (view_with_record (rewritten E config v) x))
    x (if negb (v2.Rootfs v =? "")
       then call (store_Rootfs p (rootfs_path E config v))
       else Ret tt).
Proof.
  intros Hx. unfold rootfs_events, rewritten.
  destruct (v2.Rootfs v =? ""); cbn [negb call].
  - apply local_Ret. rewrite view_emit_nil. destruct x. cbn in Hx. by subst.
  - apply (local_store_Rootfs _ _ v); [done|]. by apply local_Ret.
Qed.

(** Steps 4 and 5 of the task, on the record [rec]. *)
Lemma local_publish (c : cptr) x rec :
  view_record x = Some rec → v2.GetID rec = id_of p →
  L (λ _ x', ∃ r, x' = view_emit ([EvUpdate p] ++ enable_events config c p rec r)
                         (view_with_index p x))
    x (call (Store_Update p);;
       requiresManualRestore <-
         (if LiveRestoreEnabled config then Ret false else Plugin_IsEnabled p);;
       if requiresManualRestore : bool then
         err <- call (pm_enable p c true);;
         match err with
         | Some err =>
             name <- Plugin_Name p;;
             logrus_Errorf "failed to enable plugin '%s': %s" [ArgStr name; ArgErr err]
         | None => Ret ()
         end
       else Ret ()).
Proof.
  intros Hx Hid. unfold enable_events, Plugin_IsEnabled, Plugin_Name, logrus_Errorf.
  cbn [bind call]. apply (local_Store_Update _ _ rec); [done..|].
  destruct (LiveRestoreEnabled config); cbn [bind call].
  { apply local_Ret. by exists None. }
  apply (local_load_Plugin _ _ rec); [done|].
  destruct (v2.IsEnabled rec); cbn [bind call].
  - apply local_quiet; [done|]. intros [err|]; cbn [bind call emit].
    + apply (local_load_Plugin _ _ rec); [done|].
      apply local_quiet; [done|]. intros []. apply local_Ret. exists (Some err).
      cbn [emit]. by rewrite !view_emit_emit.
    + apply local_Ret. exists None. by rewrite !view_emit_emit.
  - apply local_Ret. by exists None.
Qed.

(** The recovery task of [p]: what it leaves whatever the other tasks
    do in between. *)
Lemma local_reload_range_plugins (v : v2.Plugin) (i0 : option ptr) (cm0 : option cptr)
    (tr0 : list Event) :
  v2.GetID v = id_of p →
  L (λ _ x, ∃ c evs rec,
       view_cMap x = Some c ∧ view_trace x = tr0 ++ evs ∧ view_record x = Some rec ∧
       (view_index x = i0 ∨ view_index x = Some p) ∧
       task_result E config c p v evs rec)
    {| view_record := Some v; view_index := i0; view_cMap := cm0; view_trace := tr0 |}
    (reload_range_plugins E config p).2.
Proof.
  intros Hid. unfold reload_range_plugins, reload_func. cbn [snd bind call].
  apply local_new_controller. intros c. apply local_cMap_assign.
  unfold view_with_cMap. cbn [view_record view_index view_cMap view_trace].
  set (x1 := {| view_record := Some v; view_index := i0; view_cMap := Some c;
                view_trace := tr0 |}).
  apply (local_bind _ _ _ _
           (λ _ x, ∃ evs rec,
              view_cMap x = Some c ∧ view_trace x = tr0 ++ evs ∧
              view_record x = Some rec ∧
              (view_index x = i0 ∨ view_index x = Some p) ∧
              task_result E config c p v (evs ++ [EvWgDone]) rec)).
  2:{ intros [] x (evs & rec & Hc & Htr & Hrec & Hidx & Hres). cbn [call].
      apply local_quiet; [done|]. intros []. apply local_Ret.
      exists c, (evs ++ [EvWgDone]), rec. unfold view_emit. cbn.
      rewrite Htr, app_assoc. done. }
  unfold reload_func_body.
  eapply local_bind; [apply (local_restorePlugin x1 v); done|].
  cbn beta. intros [err|] x [-> Hen].
  { (* the reattach failed *)
    unfold Plugin_Name, logrus_Errorf. cbn [bind call].
    apply (local_load_Plugin _ _ v); [done|].
    apply local_quiet; [done|]. intros []. apply local_Ret.
    eexists _, v. unfold view_emit. cbn. split; [done|]. split.
    { rewrite <- app_assoc. reflexivity. }
    split; [done|]. split; [by left|].
    apply (result_reattach_failed _ _ _ _ _ _ _ err); [|by rewrite <- app_assoc|done].
    destruct (v2.IsEnabled v); [done|]. by specialize (Hen eq_refl). }
  clear Hen. cbn [bind call].
  apply (local_load_Plugin _ _ v); [done|].
  eapply local_bind; [apply (local_rewrite_Rootfs _ v); done|].
  cbn beta. intros [] x ->.
  apply (local_load_Plugin _ _ (rewritten E config v)); [done|].
  rewrite (rewritten_PluginObj E config v).
  assert (propagation_rounds (rewritten E config v) (declared_types v)
          = propagation_rounds v (declared_types v)) as Hk.
  { unfold propagation_rounds, mount_path. by rewrite rewritten_PluginObj. }
  assert (filepath_Join E [v2.Rootfs (rewritten E config v);
                           mount_path (rewritten E config v)]
          = propagated_path E config v) as Hpath.
  { unfold propagated_path, mount_path. by rewrite rewritten_PluginObj. }
  eapply local_bind;
    [apply (local_reload_range_Types (declared_types v) _ (rewritten E config v)); done|].
  cbn beta. rewrite Hk, Hpath. fold (propagated E config v).
  set (k := propagation_rounds v (declared_types v)).
  intros b x [[-> ->]|(-> & n & err & Hn & ->)].
  - (* published *)
    set (rec := if k is 0 then rewritten E config v else propagated E config v).
    assert (v2.PluginObj rec = v2.PluginObj v) as Hobj.
    { subst rec. destruct k; [apply rewritten_PluginObj|apply propagated_PluginObj]. }
    eapply local_weaken; [|apply (local_publish c _ rec)].
    + cbn beta. intros [] x [r ->].
      assert (enable_events config c p rec r = enable_events config c p v r) as ->.
      { unfold enable_events, v2.IsEnabled, v2.Name. by rewrite Hobj. }
      unfold view_emit, view_with_index, view_with_record. subst rec. fold k.
      destruct k eqn:Hkk; cbn; (eexists _, _); (split; [done|]);
        (split; [rewrite <- !app_assoc; reflexivity|]);
        (split; [done|]); (split; [by right|]);
        apply (result_published _ _ _ _ _ _ _ r); fold k; rewrite ?Hkk; try done;
        by rewrite <- ?app_assoc.
    + unfold rec. by destruct k.
    + unfold v2.GetID. rewrite Hobj. exact Hid.
  - (* a directory could not be made *)
    apply local_Ret. eexists _, (propagated E config v).
    unfold view_emit, view_with_record. cbn. split; [done|]. split.
    { rewrite <- !app_assoc. reflexivity. }
    split; [done|]. split; [by left|].
    apply (result_mkdir_failed _ _ _ _ _ _ _ n err); try done.
    by rewrite <- ?app_assoc.
Qed.
End One_task.
End Task_local.

(** ** The world that reload leaves *)

Section Reload_post.
Variable E : Env.
Variable config : ManagerConfig.

Lemma own_events_since t w w' evs :
  trace w' = trace w ++ evs →
  own_events t (trace w') = own_events t (trace w) ++ own_events t (since w w').
Proof.
  intros Htr. rewrite (since_app w w' evs Htr), Htr. unfold own_events. by rewrite omap_app.
Qed.

Lemma own_events_other t t' evs : t ≠ t' → own_events t (map (pair t') evs) = [].
Proof.
  intros Hne. unfold own_events. induction evs as [|ev evs IH]; cbn; [done|].
  rewrite decide_False; [done|congruence].
Qed.

(** When Phase 1 succeeds: the world [w3] in which the recovery tasks
    start, and what each of them has left in the world in which [reload]
    returns. *)
Lemma exec_go_reload_tasks sched w dir :
  reply_ReadDir E (Root config) = inr dir →
  first_load_error E config dir = None →
  let w' := (exec_go E sched Caller (reload E config) w).1 in
  ∃ m w3 evs0,
    trace w3 = trace w ++ map (pair Caller) evs0 ∧
    (EvSetAll m ∈ evs0 ∧ Forall scan_event evs0) ∧
    (∃ evs, trace w' = trace w3 ++ evs ∧
            Forall (λ te, ∃ id p, m !! id = Some p ∧ te.1 = Recovery p) evs) ∧
    Store_plugins w3 = m ∧ cMap w3 = cMap w ∧ controllers w3 = controllers w ∧
    closed w3 = closed w ∧ mu_readers w3 = mu_readers w ∧
    (∀ p v, plugin_objs w !! p = Some v → plugin_objs w3 !! p = Some v) ∧
    dom m = list_to_set (loaded_ids E config dir) ∧
    (∀ id p, m !! id = Some p →
       ∃ entry plugin, entry ∈ dir ∧ validFullID entry = true ∧
         config_json E config entry = inr plugin ∧ v2.GetID plugin = id ∧
         plugin_objs w3 !! p = Some plugin) ∧
    tasks_frame (λ p, v2.GetID (deref w3 p)) (list_to_set (map_to_list m).*2) w3 w' ∧
    ∀ id p, m !! id = Some p →
      ∃ c evs rec,
        cMap w' !! p = Some c ∧ own_events (Recovery p) (since w3 w') = evs ∧
        plugin_objs w' !! p = Some rec ∧ Store_plugins w' !! id = Some p ∧
        task_result E config c p (deref w3 p) evs rec.
Proof.
  intros Hdir Hok. unfold exec_go, reload. cbn. rewrite Hdir. cbn.
  rewrite exec_bind.
  match goal with |- context [exec E ?par Caller (reload_range_dir E config dir ∅) ?w0] =>
    destruct (exec_reload_range_dir E config par Caller dir ∅ w0)
      as (w1 & r & evs1 & Hrun & Htr & Hevs & Hst & Hcm & Hct & Hcl & Hmu & Hheap & Hr);
    pose proof (exec_reload_range_dir_result E config par Caller dir ∅ w0 r) as Hres
  end.
  rewrite Hrun in Hres |- *. specialize (Hres eq_refl). rewrite Hok in Hres.
  destruct r as [err'|m]; [done|]. destruct Hr as (_ & Hdom & Hm). cbn in Htr, Hheap |- *.
  match goal with |- context [interleave E sched ?pool ?w0] =>
    set (ts := pool); set (w3 := w0)
  end.
  set (id_of := λ p, v2.GetID (deref w3 p)).
  set (ptrs := list_to_set (map_to_list m).*2 : gset ptr).
  assert (∀ id p, m !! id = Some p →
            ∃ entry plugin, entry ∈ dir ∧ validFullID entry = true ∧
              config_json E config entry = inr plugin ∧ v2.GetID plugin = id ∧
              plugin_objs w3 !! p = Some plugin) as Hm3.
  { intros id p Hp. destruct (Hm id p Hp) as [Hemp|(v & plugin & ?)];
      [by rewrite lookup_empty in Hemp|]. by exists v, plugin. }
  assert (∀ id p, m !! id = Some p → id_of p = id) as Hidof.
  { intros id p Hp. destruct (Hm3 id p Hp) as (_ & plugin & _ & _ & _ & <- & Hobj).
    unfold id_of, deref. by rewrite (lookup_total_correct _ _ _ Hobj). }
  assert (∀ p, p ∈ ptrs ↔ ∃ id, m !! id = Some p) as Hptrs.
  { intros p. unfold ptrs. rewrite elem_of_list_to_set, list_elem_of_fmap. split.
    - intros ([id q] & -> & Hq). exists id. by apply elem_of_map_to_list.
    - intros [id Hid]. exists (id, p). split; [done|]. by apply elem_of_map_to_list. }
  assert (∀ p q, p ∈ ptrs → q ∈ ptrs → id_of p = id_of q → p = q) as Hinj.
  { intros p q [idp Hp]%Hptrs [idq Hq]%Hptrs Heq.
    rewrite (Hidof _ _ Hp), (Hidof _ _ Hq) in Heq. subst idq. congruence. }
  assert (ts.*1 = Recovery <$> (map_to_list m).*2) as Hts.
  { subst ts. rewrite <- list_fmap_compose. apply list_fmap_ext. by intros i p _. }
  assert (NoDup ts.*1) as Hnd.
  { rewrite Hts. apply NoDup_fmap_2; [by intros p q [= ->]|].
    apply NoDup_fmap_2_strong; [|apply NoDup_map_to_list].
    intros [id1 p1] [id2 p2] H1%elem_of_map_to_list H2%elem_of_map_to_list Heq.
    cbn in Heq. subst p2. f_equal. rewrite <- (Hidof _ _ H1). by apply Hidof. }
  set (Φ := λ (t : tid) (x : view),
         match t with
         | Recovery p =>
             ∃ c evs rec,
               view_cMap x = Some c ∧
               view_trace x = own_events t (trace w3) ++ evs ∧
               view_record x = Some rec ∧
               (view_index x = Store_plugins w3 !! id_of p ∨ view_index x = Some p) ∧
               task_result E config c p (deref w3 p) evs rec
         | Caller => True
         end).
  destruct (interleave_local E (task_view id_of) (task_guar id_of) (recovers ptrs)
              (tasks_frame id_of ptrs) (task_rely id_of ptrs Hinj)
              (tasks_frame_refl id_of ptrs) (tasks_frame_trans id_of ptrs)
              (task_guar_frame id_of ptrs) Φ sched ts w3 Hnd)
    as (w' & Hrun' & Hframe & Hall & _).
  { subst ts. apply Forall_fmap, Forall_forall. intros p Hp.
    assert (p ∈ ptrs) as Hpp by (by apply elem_of_list_to_set).
    destruct (proj1 (Hptrs p) Hpp) as [id Hid].
    destruct (Hm3 id p Hid) as (_ & plugin & _ & _ & _ & Hgid & Hobj).
    split; [by exists p|]. cbn [fst snd reload_range_plugins].
    assert (deref w3 p = plugin) as Hd by (by apply lookup_total_correct).
    pose proof (local_reload_range_plugins E config id_of p plugin
                  (Store_plugins w3 !! id_of p) (cMap w3 !! p)
                  (own_events (Recovery p) (trace w3))) as Hl.
    unfold task_view. rewrite Hobj. unfold Φ. rewrite Hd. apply Hl.
    by rewrite (Hidof _ _ Hid). }
  destruct (interleave_tids E sched ts w3) as (evs2 & Htr2 & Htids).
  rewrite Hrun' in Htr2 |- *. cbn [fst] in Htr2 |- *.
  exists m, w3, (EvReadDir (Root config) (inr dir) :: evs1 ++ [EvSetAll m; EvWgAdd (size m)]).
  split. { subst w3. cbn. rewrite Htr, map_app. cbn. by rewrite <- !app_assoc. }
  split.
  { split; [right; apply elem_of_app; right; left|].
    constructor; [done|]. apply Forall_app. split; [|by repeat constructor].
    eapply Forall_impl; [exact Hevs|]. by intros ev (v & _ & _ & ->). }
  split.
  { exists evs2. split; [done|]. eapply Forall_impl; [exact Htids|].
    intros [t ev] Ht. cbn in Ht |- *. rewrite Hts in Ht.
    apply list_elem_of_fmap in Ht as (p & -> & [[id q] [-> Hq]]%list_elem_of_fmap).
    exists id, q. split; [|done]. by apply elem_of_map_to_list. }
  split; [done|]. split; [done|]. split; [done|]. split; [done|]. split; [done|].
  split; [done|]. split. { rewrite Hdom. set_solver. }
  split; [exact Hm3|]. split; [exact Hframe|].
  intros id p Hp. rewrite Forall_forall in Hall.
  assert (Recovery p ∈ ts.*1) as Hin.
  { rewrite Hts. apply list_elem_of_fmap_2, list_elem_of_fmap. exists (id, p).
    split; [done|]. by apply elem_of_map_to_list. }
  destruct (Hall _ Hin) as (c & evs & rec & Hc & Hev & Hrec & Hidx & Hresult).
  cbn in Hc, Hev, Hrec, Hidx.
  exists c, evs, rec. split; [done|]. split; [|split; [done|split; [|done]]].
  - rewrite (own_events_since _ w3 w' evs2 Htr2) in Hev. by apply app_inv_head in Hev.
  - rewrite (Hidof _ _ Hp) in Hidx. destruct Hidx as [Hidx|Hidx]; [|done].
    rewrite Hidx. subst w3. cbn. exact Hp.
Qed.

Lemma setup_cMap w : (setup E config w).2 = None → cMap (setup E config w).1 = ∅.
Proof.
  unfold setup. destruct (reply_MkdirAll E w _ _); [done|].
  destruct (reply_MkdirAll E _ (ExecRoot config) _); [done|].
  by destruct (reply_Client E _).
Qed.

(** X11. Phase 2 under every schedule: each recovery task does what it would
    do alone.  For every record that [reload] has handed to the Store,
    the entries that the task of the record has left in the history are,
    in their order, those of a failed reattach, of a failed directory
    creation or of a publication; the record behind the pointer is then
    the record as loaded, the record with [Rootfs] rewritten and
    [PropagatedMount] set, or the record as published; and the record has
    a Controller in the Controller table. *)
Theorem reload_recovers_each_record (sched : list nat) (w : World) (dir : list string) :
  reply_ReadDir E (Root config) = inr dir →
  (∀ v, v ∈ dir → validFullID v = true → ∃ plugin, config_json E config v = inr plugin) →
  let w' := (exec_go E sched Caller (reload E config) w).1 in
  ∃ m, (Caller, EvSetAll m) ∈ since w w' ∧
    ∀ id p, m !! id = Some p →
      ∃ entry v c rec,
        entry ∈ dir ∧ validFullID entry = true ∧
        config_json E config entry = inr v ∧ v2.GetID v = id ∧
        cMap w' !! p = Some c ∧ plugin_objs w' !! p = Some rec ∧
        task_result E config c p v (own_events (Recovery p) (since w w')) rec.
Proof.
  intros Hdir Hall. pose proof (first_load_error_None E config dir Hall) as Hfirst.
  destruct (exec_go_reload_tasks sched w dir Hdir Hfirst)
    as (m & w3 & evs0 & Htr3 & [Hset Hscan] & (evs2 & Htr' & Htids) & _ & _ & _ & _ & _ & _ & _ & Hm & _ & Htasks).
  cbn zeta in *. set (w' := (exec_go E sched Caller (reload E config) w).1) in *.
  assert (since w w' = map (pair Caller) evs0 ++ evs2) as Hsince.
  { apply since_app. by rewrite Htr', Htr3, app_assoc. }
  exists m. split.
  { rewrite Hsince. apply elem_of_app. left. by apply list_elem_of_fmap_2. }
  intros id p Hp.
  destruct (Hm id p Hp) as (entry & plugin & Hin & Hv & Hl & Hid & Hobj).
  destruct (Htasks id p Hp) as (c & evs & rec & Hc & Hev & Hrec & _ & Hres).
  exists entry, plugin, c, rec. repeat (split; [done|]).
  assert (own_events (Recovery p) (since w w') = evs) as ->.
  { rewrite Hsince. unfold own_events. rewrite omap_app.
    fold (own_events (Recovery p) (map (pair Caller) evs0)).
    rewrite own_events_other by done. cbn.
    rewrite <- Hev. by rewrite (since_app w3 w' evs2 Htr'). }
  unfold deref in Hres. by rewrite (lookup_total_correct _ _ _ Hobj) in Hres.
Qed.

(** X12. After a [reload] that has loaded its records, the index of the
    Store is the map that [SetAll] was given, whatever the recovery tasks
    have met: an [Update] puts a record back under the identity that it
    already has.  The identities of the index are those of the entries
    that were loaded. *)
Theorem reload_leaves_SetAll_index (sched : list nat) (w : World) (dir : list string) :
  reply_ReadDir E (Root config) = inr dir →
  (∀ v, v ∈ dir → validFullID v = true → ∃ plugin, config_json E config v = inr plugin) →
  let w' := (exec_go E sched Caller (reload E config) w).1 in
  ∃ m, (Caller, EvSetAll m) ∈ since w w' ∧
       Store_plugins w' = m ∧
       dom m = list_to_set (loaded_ids E config dir).
Proof.
  intros Hdir Hall. pose proof (first_load_error_None E config dir Hall) as Hfirst.
  destruct (exec_go_reload_tasks sched w dir Hdir Hfirst)
    as (m & w3 & evs0 & Htr3 & [Hset Hscan] & (evs2 & Htr' & Htids) & Hst3 & _ & _ & _ & _ & _ & Hdom & Hm
        & Hframe & Htasks).
  cbn zeta in *. set (w' := (exec_go E sched Caller (reload E config) w).1) in *.
  exists m. split; [|split; [|done]].
  { rewrite (since_app w w' (map (pair Caller) evs0 ++ evs2)).
    - apply elem_of_app. left. by apply list_elem_of_fmap_2.
    - by rewrite Htr', Htr3, app_assoc. }
  apply map_eq. intros id. destruct (m !! id) as [p|] eqn:Hid.
  - by destruct (Htasks id p Hid) as (c & evs & rec & _ & _ & _ & Hidx & _).
  - destruct Hframe as (_ & Hidx & _). rewrite Hidx; [by rewrite Hst3|].
    intros p [[id' q] [-> Hq%elem_of_map_to_list]]%elem_of_list_to_set%list_elem_of_fmap.
    cbn. destruct (Hm id' q Hq) as (_ & plugin & _ & _ & _ & Hgid & Hobj).
    unfold deref. rewrite (lookup_total_correct _ _ _ Hobj). congruence.
Qed.

(** X13. After a [reload] that has loaded its records, every record of the
    index of the Store has a Controller in the Controller table; the
    entries of the table for other pointers, the Controllers that existed,
    the closed channels and the lock are as they were. *)
Theorem reload_tracks_every_record (sched : list nat) (w : World) (dir : list string) :
  reply_ReadDir E (Root config) = inr dir →
  (∀ v, v ∈ dir → validFullID v = true → ∃ plugin, config_json E config v = inr plugin) →
  let w' := (exec_go E sched Caller (reload E config) w).1 in
  (∀ id p, Store_plugins w' !! id = Some p → is_Some (cMap w' !! p)) ∧
  (∀ p, (∀ id, Store_plugins w' !! id ≠ Some p) → cMap w' !! p = cMap w !! p) ∧
  controllers w ⊆ controllers w' ∧ closed w' = closed w ∧ mu_readers w' = mu_readers w.
Proof.
  intros Hdir Hall. pose proof (first_load_error_None E config dir Hall) as Hfirst.
  destruct (exec_go_reload_tasks sched w dir Hdir Hfirst)
    as (m & w3 & evs0 & Htr3 & [Hset Hscan] & (evs2 & Htr' & Htids) & Hst3 & Hcm3 & Hct3 & Hcl3 & Hmu3 & _
        & Hdom & Hm & Hframe & Htasks).
  cbn zeta in *. set (w' := (exec_go E sched Caller (reload E config) w).1) in *.
  assert (∀ id p, Store_plugins w' !! id = Some p → m !! id = Some p) as Hidx.
  { intros id p Hp. destruct (m !! id) as [q|] eqn:Hid.
    - destruct (Htasks id q Hid) as (c & evs & rec & _ & _ & _ & Hq & _). congruence.
    - destruct Hframe as (_ & Hfr & _). rewrite Hfr, Hst3, Hid in Hp; [done|].
      intros q [[id' q'] [-> Hq%elem_of_map_to_list]]%elem_of_list_to_set%list_elem_of_fmap.
      cbn. destruct (Hm id' q' Hq) as (_ & plugin & _ & _ & _ & Hgid & Hobj).
      unfold deref. rewrite (lookup_total_correct _ _ _ Hobj). congruence. }
  destruct Hframe as (_ & _ & Hcm & Hct & Hcl & Hmu).
  split; [|split; [|split; [|split]]].
  - intros id p Hp%Hidx. destruct (Htasks id p Hp) as (c & evs & rec & Hc & _). eauto.
  - intros p Hp. rewrite Hcm, Hcm3; [done|].
    intros [[id q] [-> Hq%elem_of_map_to_list]]%elem_of_list_to_set%list_elem_of_fmap.
    cbn in Hp. destruct (Htasks id q Hq) as (c & evs & rec & _ & _ & _ & Hs & _).
    by apply (Hp id).
  - by rewrite <- Hct3.
  - congruence.
  - congruence.
Qed.

(** X15. [NewManager] and then [StateChanged]: when [NewManager] has returned
    nil, the Controller table has an entry for exactly the records of the
    index of the Store, so that an exit notification for an identity that
    the Store resolves finds the Controller of the record and does not
    fault on a nil Controller. *)
Theorem NewManager_then_exit (sched : list nat) (w : World) (id : string) (e : StateInfo) :
  let w' := (exec_go E sched Caller (NewManager E config) w).1 in
  (exec_go E sched Caller (NewManager E config) w).2 = Returned None →
  (∀ p, is_Some (cMap w' !! p) ↔ ∃ id', Store_plugins w' !! id' = Some p) ∧
  (StateInfo_State e = StateExit → is_Some (Store_plugins w' !! id) →
   (run E Caller (StateChanged id e) w').2 ≠ Panicked nil_pointer_dereference).
Proof.
  cbn zeta. rewrite (exec_go_NewManager E config).
  pose proof (setup_cMap w) as Hempty.
  destruct (setup E config w) as [w0 [err|]]; [done|]. cbn [fst snd] in Hempty.
  specialize (Hempty eq_refl).
  pose proof (exec_go_reload_result E config sched w0) as Hres.
  destruct (exec_go E sched Caller (reload E config) w0) as [w' o] eqn:Hrun.
  cbn [snd] in Hres. subst o.
  destruct (phase1_result E config) as [err|] eqn:Hphase; [done|]. intros _. cbn [fst].
  unfold phase1_result in Hphase.
  destruct (reply_ReadDir E (Root config)) as [err|dir] eqn:Hdir; [done|].
  destruct (exec_go_reload_tasks sched w0 dir Hdir Hphase)
    as (m & w3 & evs0 & Htr3 & [Hset Hscan] & (evs2 & Htr' & Htids) & Hst3 & Hcm3 & _ & _ & _ & _
        & Hdom & Hm & Hframe & Htasks).
  rewrite Hrun in Hframe, Htasks. cbn [fst] in Hframe, Htasks.
  assert (∀ id p, Store_plugins w' !! id = Some p → m !! id = Some p) as Hidx.
  { intros id' p Hp. destruct (m !! id') as [q|] eqn:Hid.
    - destruct (Htasks id' q Hid) as (c & evs & rec & _ & _ & _ & Hq & _). congruence.
    - destruct Hframe as (_ & Hfr & _). rewrite Hfr, Hst3, Hid in Hp; [done|].
      intros q [[id'' q'] [-> Hq%elem_of_map_to_list]]%elem_of_list_to_set%list_elem_of_fmap.
      cbn. destruct (Hm id'' q' Hq) as (_ & plugin & _ & _ & _ & Hgid & Hobj).
      unfold deref. rewrite (lookup_total_correct _ _ _ Hobj). congruence. }
  assert (∀ p, is_Some (cMap w' !! p) ↔ ∃ id', Store_plugins w' !! id' = Some p) as Htable.
  { intros p. split.
    - intros Hc. destruct (decide (p ∈ (list_to_set (map_to_list m).*2 : gset ptr)))
        as [Hin|Hout].
      + apply elem_of_list_to_set, list_elem_of_fmap in Hin
          as [[id' q] [-> Hq%elem_of_map_to_list]].
        exists id'. by destruct (Htasks id' q Hq) as (c & evs & rec & _ & _ & _ & Hs & _).
      + destruct Hframe as (_ & _ & Hcm & _). rewrite Hcm, Hcm3, Hempty in Hc by done.
        rewrite lookup_empty in Hc. by destruct Hc.
    - intros [id' Hp%Hidx]. destruct (Htasks id' p Hp) as (c & evs & rec & Hc & _). eauto. }
  split; [exact Htable|]. intros He [p Hs].
  destruct (proj2 (Htable p)) as [c Hc]; [eauto|].
  unfold StateChanged, run. rewrite He. cbn. rewrite Hs. cbn. rewrite Hc. cbn.
  destruct (exitChan (controllers w' !!! c)) as [ch|]; cbn.
  - rewrite perform_chan_close. cbn.
    destruct (decide (ch ∈ closed w')); cbn; [done|].
    destruct (negb _); cbn.
    + destruct (reply_Unmount _ _ _); cbn; destruct (restart _); cbn; done.
    + destruct (restart _); cbn; done.
  - destruct (negb _); cbn.
    + destruct (reply_Unmount _ _ _); cbn; destruct (restart _); cbn; done.
    + destruct (restart _); cbn; done.
Qed.
Lemma elem_of_own_events t ev (l : list (tid * Event)) :
  ev ∈ own_events t l ↔ (t, ev) ∈ l.
Proof.
  unfold own_events. rewrite list_elem_of_omap. split.
  - intros ([t' ev'] & Hin & Heq). cbn in Heq.
    destruct (decide (t' = t)) as [->|]; [|done]. by injection Heq as ->.
  - intros Hin. exists (t, ev). split; [done|]. cbn. by rewrite decide_True.
Qed.

Lemma own_events_split t (l : list (tid * Event)) l1 ev l2 :
  own_events t l = l1 ++ ev :: l2 →
  ∃ before after,
    l = before ++ (t, ev) :: after ∧
    own_events t before = l1 ∧ own_events t after = l2.
Proof.
  revert l1. induction l as [|[t0 ev0] l IH]; intros l1 Heq.
  - by destruct l1.
  - unfold own_events in Heq. cbn in Heq. fold (own_events t l) in Heq.
    destruct (decide (t0 = t)) as [->|Hne]; cbn in Heq.
    + destruct l1 as [|ev1 l1]; cbn in Heq; injection Heq as -> Heq.
      * exists [], l. by rewrite Heq.
      * destruct (IH l1 Heq) as (before & after & -> & Hb & Ha).
        exists ((t, ev1) :: before), after. split; [done|]. split; [|done].
        unfold own_events. cbn. rewrite decide_True by done. cbn.
        fold (own_events t before). by rewrite Hb.
    + destruct (IH l1 Heq) as (before & after & -> & Hb & Ha).
      exists ((t0, ev0) :: before), after. split; [done|]. split; [|done].
      unfold own_events. cbn. rewrite decide_False by done. cbn. done.
Qed.

Local Ltac among H :=
  unfold restore_events, rootfs_events, enable_events, round_ok, round_failed in H;
  repeat match type of H with
    | _ ∈ _ ++ _ => apply elem_of_app in H as [H|H]
    | _ ∈ _ :: _ => apply elem_of_cons in H as [H|H]
    | _ ∈ [] => by apply elem_of_nil in H
    | _ ∈ concat (replicate _ _) => apply elem_of_concat_replicate in H
    | _ ∈ (if ?b then _ else _) => destruct b eqn:?
    | _ ∈ match ?r with Some _ => _ | None => _ end => destruct r eqn:?
    end;
  try discriminate H.

(** X14. Who calls the reattach and enable, under every schedule: only the
    recovery task of a record, for its own record, and only for a record
    that is enabled.  Enable is called with force, only without
    live-restore, and with the Controller that the Controller table holds
    for the record.  It comes after the task has published the record:
    the history has the [Update] of the record by its task, the call of
    enable is after it, and before it there is no call of enable for the
    record. *)
Theorem reload_enable_calls (sched : list nat) (w : World) (dir : list string) :
  reply_ReadDir E (Root config) = inr dir →
  (∀ v, v ∈ dir → validFullID v = true → ∃ plugin, config_json E config v = inr plugin) →
  let w' := (exec_go E sched Caller (reload E config) w).1 in
  (∀ t p c force r, (t, EvPmEnable p c force r) ∈ since w w' →
     t = Recovery p ∧ force = true ∧ LiveRestoreEnabled config = false ∧
     cMap w' !! p = Some c ∧
     (∃ id, Store_plugins w' !! id = Some p) ∧
     (∃ rec, plugin_objs w' !! p = Some rec ∧ v2.IsEnabled rec = true) ∧
     ∃ before after,
       since w w' = before ++ (Recovery p, EvUpdate p) :: after ∧
       (t, EvPmEnable p c force r) ∈ after ∧
       ∀ t' c' force' r', (t', EvPmEnable p c' force' r') ∉ before) ∧
  (∀ t p r, (t, EvPmRestore p r) ∈ since w w' →
     t = Recovery p ∧
     (∃ id, Store_plugins w' !! id = Some p) ∧
     (∃ rec, plugin_objs w' !! p = Some rec ∧ v2.IsEnabled rec = true)).
Proof.
  intros Hdir Hall. pose proof (first_load_error_None E config dir Hall) as Hfirst.
  destruct (exec_go_reload_tasks sched w dir Hdir Hfirst)
    as (m & w3 & evs0 & Htr3 & [Hset Hscan] & (evs2 & Htr' & Htids) & _ & _ & _ & _ & _ & _
        & _ & Hm & _ & Htasks).
  cbn zeta in *. set (w' := (exec_go E sched Caller (reload E config) w).1) in *.
  assert (since w w' = map (pair Caller) evs0 ++ evs2) as Hsince.
  { apply since_app. by rewrite Htr', Htr3, app_assoc. }
  assert (∀ p, own_events (Recovery p) (since w w') = own_events (Recovery p) (since w3 w'))
    as Hown.
  { intros p. rewrite Hsince. unfold own_events at 1. rewrite omap_app.
    fold (own_events (Recovery p) (map (pair Caller) evs0)).
    rewrite own_events_other by done. by rewrite (since_app w3 w' evs2 Htr'). }
  assert (∀ t ev, (t, ev) ∈ since w w' →
            (t = Caller ∧ scan_event ev) ∨
            ∃ id p c rec,
              t = Recovery p ∧ Store_plugins w' !! id = Some p ∧
              cMap w' !! p = Some c ∧ plugin_objs w' !! p = Some rec ∧
              ev ∈ own_events (Recovery p) (since w w') ∧
              task_result E config c p (deref w3 p)
                (own_events (Recovery p) (since w w')) rec) as Hwho.
  { intros t ev Hin. rewrite Hsince in Hin. apply elem_of_app in Hin as [Hin|Hin].
    - left. apply list_elem_of_fmap in Hin as (ev' & [= -> ->] & Hin).
      split; [done|]. rewrite Forall_forall in Hscan. by apply Hscan.
    - right. rewrite Forall_forall in Htids.
      destruct (Htids _ Hin) as (id & p & Hp & Ht). cbn in Ht. subst t.
      destruct (Htasks id p Hp) as (c & evs & rec & Hc & Hev & Hrec & Hidx & Hres).
      exists id, p, c, rec. rewrite Hown, Hev. repeat (split; [done|]). split; [|done].
      rewrite <- Hev. apply elem_of_own_events. by rewrite (since_app w3 w' evs2 Htr'). }
  assert (∀ t p c force r, (t, EvPmEnable p c force r) ∈ since w w' → t = Recovery p)
    as Htid.
  { intros t p c force r Hin.
    destruct (Hwho _ _ Hin) as [[_ []]|(id & q & c' & rec & -> & _ & _ & _ & Hev & Hres)].
    destruct Hres as [err Hen Hevs ->|n err Hn Hevs ->|r' Hevs ->];
      rewrite Hevs in Hev; among Hev; by injection Hev as -> -> -> ->. }
  split.
  - intros t p c force r Hin.
    destruct (Hwho _ _ Hin) as [[_ []]|(id & q & c' & rec & -> & Hs & Hc & Hrec & Hev & Hres)].
    destruct Hres as [err Hen Hevs ->|n err Hn Hevs ->|r' Hevs ->];
      [rewrite Hevs in Hev; among Hev..|].
    set (v := deref w3 q) in *.
    assert (own_events (Recovery q) (since w w')
            = (restore_events config q v None ++ rootfs_events E config q v
               ++ concat (replicate (propagation_rounds v (declared_types v))
                            (round_ok q (propagated_path E config v))))
              ++ EvUpdate q :: (enable_events config c' q v r' ++ [EvWgDone])) as Hsplit.
    { rewrite Hevs. by rewrite <- !app_assoc. }
    assert (EvPmEnable p c force r ∈ enable_events config c' q v r' ++ [EvWgDone]) as Hafter.
    { rewrite Hsplit in Hev. apply elem_of_app in Hev as [Hev|Hev]; [among Hev|].
      by apply elem_of_cons in Hev as [Hev|Hev]. }
    apply own_events_split in Hsplit as (before & after & Hbefore & Hown1 & Hown2).
    rewrite Hevs in Hev. among Hev. injection Hev as -> -> -> ->.
    assert (v2.IsEnabled (if propagation_rounds v (declared_types v)
                          is 0 then rewritten E config v
                          else propagated E config v) = true) as Hen.
    { unfold v2.IsEnabled in *.
      destruct (propagation_rounds _ _);
        by rewrite ?rewritten_PluginObj, ?propagated_PluginObj. }
    repeat (split; [done|]). split; [eauto|]. split; [eauto|].
    exists before, after. split; [done|]. split.
    + apply elem_of_own_events. by rewrite Hown2.
    + intros t' c2 force2 r2 Hb.
      assert ((t', EvPmEnable q c2 force2 r2) ∈ since w w') as Hin'.
      { rewrite Hbefore. apply elem_of_app. by left. }
      apply Htid in Hin'. subst t'.
      apply elem_of_own_events in Hb. rewrite Hown1 in Hb. among Hb.
  - intros t p r Hin.
    destruct (Hwho _ _ Hin) as [[_ []]|(id & q & c' & rec & -> & Hs & Hc & Hrec & Hev & Hres)].
    destruct Hres as [err Hen Hevs ->|n err Hn Hevs ->|r' Hevs ->];
      rewrite Hevs in Hev; among Hev; injection Hev as -> ->;
      (split; [done|]); (split; [eauto|]); eexists; (split; [done|]);
      unfold v2.IsEnabled in *;
      try destruct (propagation_rounds _ _);
      by rewrite ?rewritten_PluginObj, ?propagated_PluginObj.
Qed.
End Reload_post.

(** ** Two runs of NewManager *)

Section NewManager_runs.
Variables E E' : Env.
Variable config : ManagerConfig.

(** The two worlds outside agree on what the setup and Phase 1 ask: the
    join of paths, the creation of the two directories, the client of the
    executor, the listing of the root, the reads and the decoder. *)
Hypothesis same_Join : ∀ l, filepath_Join E l = filepath_Join E' l.
Hypothesis same_MkdirAll_Root :
  ∀ w, reply_MkdirAll E w (Root config) mode_0700
       = reply_MkdirAll E' w (Root config) mode_0700.
Hypothesis same_MkdirAll_ExecRoot :
  ∀ w, reply_MkdirAll E w (ExecRoot config) mode_0700
       = reply_MkdirAll E' w (ExecRoot config) mode_0700.
Hypothesis same_Client : ∀ w, reply_Client E w = reply_Client E' w.
Hypothesis same_ReadDir : reply_ReadDir E (Root config) = reply_ReadDir E' (Root config).
Hypothesis same_ReadFile : ∀ path, reply_ReadFile E path = reply_ReadFile E' path.
Hypothesis same_Unmarshal : ∀ dt, json_Unmarshal E dt = json_Unmarshal E' dt.

Lemma config_json_agrees v : config_json E config v = config_json E' config v.
Proof.
  unfold config_json, config_path. rewrite same_Join, same_ReadFile.
  destruct (reply_ReadFile E' _) as [err|dt]; [done|]. by rewrite same_Unmarshal.
Qed.

Lemma first_load_error_agrees dir :
  first_load_error E config dir = first_load_error E' config dir.
Proof.
  induction dir as [|v dir IH]; cbn; [done|].
  rewrite config_json_agrees, IH. done.
Qed.

Lemma phase1_result_agrees : phase1_result E config = phase1_result E' config.
Proof.
  unfold phase1_result. rewrite same_ReadDir.
  destruct (reply_ReadDir E' (Root config)); [done|]. apply first_load_error_agrees.
Qed.

Lemma setup_agrees w : setup E config w = setup E' config w.
Proof.
  unfold setup. rewrite same_MkdirAll_Root.
  destruct (reply_MkdirAll E' w (Root config) mode_0700); [done|].
  rewrite same_MkdirAll_ExecRoot.
  destruct (reply_MkdirAll E' _ (ExecRoot config) mode_0700); [done|].
  rewrite same_Client. done.
Qed.

(** X6. The result of [NewManager] does not depend on the recovery
    tasks: two runs from the same state, in which the setup calls, the
    listing of the root, the reads and the decoder reply alike, have the
    same result, whatever the reattach, enable and unmount calls and the
    creation of the PropagatedMount directories reply in either run and
    under whatever schedules the tasks run. *)
Theorem NewManager_result_ignores_recovery (sched sched' : list nat) (w : World) :
  (exec_go E sched Caller (NewManager E config) w).2
  = (exec_go E' sched' Caller (NewManager E' config) w).2.
Proof.
  rewrite (NewManager_returns E config sched w), (NewManager_returns E' config sched' w).
  by rewrite setup_agrees, phase1_result_agrees.
Qed.
End NewManager_runs.

(** * Properties of the reference store *)

Section Refstore.
Import refstore refstore_spec.
Context {Named : Type} `{!reference.Package Named}.
Variable E : Env.

(** ** The cache and the repositories, key by key *)

Lemma row_forget (c : gmap image_ID (gmap string Named)) id k i k' :
  default ∅ (cache_forget id k c !! i) !! k'
  = if decide (i = id ∧ k' = k) then None else default ∅ (c !! i) !! k'.
Proof.
  unfold cache_forget.
  destruct (c !! id) as [row|] eqn:Hrow.
  - destruct (decide (size (delete k row) = 0)) as [Hz|Hnz].
    + apply map_size_empty_iff in Hz.
      destruct (decide (i = id)) as [->|Hi].
      * rewrite lookup_delete_eq, Hrow. cbn. rewrite lookup_empty.
        destruct (decide (id = id ∧ k' = k)) as [_|Hn]; [done|].
        assert (k' ≠ k) as Hk by naive_solver.
        rewrite <- (lookup_delete_ne row k k') by done. by rewrite Hz, lookup_empty.
      * rewrite lookup_delete_ne by done. rewrite decide_False by naive_solver. done.
    + destruct (decide (i = id)) as [->|Hi].
      * rewrite lookup_insert_eq, Hrow. cbn.
        destruct (decide (k' = k)) as [->|Hk].
        -- rewrite lookup_delete_eq. by rewrite decide_True.
        -- rewrite lookup_delete_ne by done. by rewrite decide_False by naive_solver.
      * rewrite lookup_insert_ne by done. by rewrite decide_False by naive_solver.
  - destruct (decide (i = id ∧ k' = k)) as [[-> ->]|Hn]; [|done].
    by rewrite Hrow.
Qed.

Lemma row_remember (c : gmap image_ID (gmap string Named)) id k ref i k' :
  default ∅ (cache_remember id k ref c !! i) !! k'
  = if decide (i = id ∧ k' = k) then Some ref else default ∅ (c !! i) !! k'.
Proof.
  unfold cache_remember.
  destruct (decide (i = id)) as [->|Hi].
  - rewrite lookup_insert_eq. cbn. destruct (decide (k' = k)) as [->|Hk].
    + rewrite lookup_insert_eq. by rewrite decide_True.
    + rewrite lookup_insert_ne by done. by rewrite decide_False by naive_solver.
  - rewrite lookup_insert_ne by done. by rewrite decide_False by naive_solver.
Qed.

Lemma tagged_Some (s : store Named) name k id :
  tagged s name k = Some id ↔
  ∃ rs repo, Repositories s = Some rs ∧ rs !! name = Some (Some repo) ∧ repo !! k = Some id.
Proof.
  unfold tagged, Repositories_index, repository_index.
  destruct (Repositories s) as [rs|]; [|by split; [|intros (? & ? & ? & _)]].
  destruct (rs !! name) as [[repo|]|] eqn:Hn.
  - split; [by exists rs, repo|].
    intros (rs' & repo' & Hrs & Hl & Hk). injection Hrs as Hrs. subst rs'.
    rewrite Hn in Hl. by injection Hl as <-.
  - split; [done|]. intros (rs' & repo' & Hrs & Hl & Hk). injection Hrs as Hrs. subst rs'.
    by rewrite Hn in Hl.
  - split; [done|]. intros (rs' & repo' & Hrs & Hl & Hk). injection Hrs as Hrs. subst rs'.
    by rewrite Hn in Hl.
Qed.

(** [Get] reads the tag of the reference in its repository. *)
Lemma Get_tagged (ref : Named) (s : store Named) :
  familiar_idempotent →
  Get ref s =
  match tagged s (repo_of (tagged_or_same ref)) (key_of (tagged_or_same ref)) with
  | Some id => inr id
  | None => inl ErrDoesNotExist
  end.
Proof.
  intros Hidem. unfold Get, tagged, repo_of, key_of, tagged_or_same.
  set (r := if reference.IsNameOnly ref then reference.EnsureTagged ref else ref).
  rewrite Hidem.
  destruct (Repositories_index s _) as [[repo|]|]; cbn; [|done..].
  by destruct (repo !! _).
Qed.
Lemma save_pair (s : store Named) fs :
  (let '(fs', err) := save E s fs in (s, fs', Done err))
  = (s, (save E s fs).1, Done (save E s fs).2).
Proof. by destruct (save E s fs). Qed.

Local Ltac filed :=
  unfold tagged, Repositories_index, repository_index; cbn;
  repeat match goal with H : Repositories _ = Some _ |- _ => rewrite H end; cbn;
  match goal with
  | |- context [decide (?n = ?name ∧ ?k = ?key)] =>
      destruct (decide (n = name)) as [->|?];
      [ rewrite ?lookup_insert_eq;
        repeat match goal with H : _ !! name = _ |- _ => rewrite H end; cbn;
        destruct (decide (k = key)) as [->|?];
        [ rewrite ?lookup_insert_eq, ?lookup_delete_eq; rewrite decide_True by done; done
        | rewrite ?lookup_insert_ne, ?lookup_delete_ne, ?lookup_empty by done;
          rewrite decide_False by naive_solver; done ]
      | rewrite ?lookup_insert_ne, ?lookup_delete_ne by done;
        rewrite decide_False by naive_solver; done ]
  end.

(** What [addReference] does to a store whose [Repositories] is not
    nil, for a reference whose repository is not named as the digest
    algorithm. *)
Lemma addReference_spec (ref : Named) (id : image_ID) (force : bool)
    (s : store Named) (fs : FS) :
  Repositories s ≠ None → repo_of ref ≠ reference.digest_Canonical →
  match tagged s (repo_of ref) (key_of ref) with
  | Some oldID =>
      match reference.Canonical ref with
      | Some d =>
          addReference E ref id force s fs
          = (s, fs, Done (Some (errors_New ("Cannot overwrite digest " +:+ d))))
      | None =>
          if force then
            ∃ s', addReference E ref id force s fs
                  = (s', (save E s' fs).1, Done (save E s' fs).2) ∧
                  files s s' ref id (Some oldID)
          else
            addReference E ref id force s fs
            = (s, fs, Done (Some (errors_New
                 ("Conflict: Tag " +:+ key_of ref +:+ " is already set to image "
                  +:+ oldID +:+ ", if you want to replace it, please use -f option"))))
      end
  | None =>
      ∃ s', addReference E ref id force s fs
            = (s', (save E s' fs).1, Done (save E s' fs).2) ∧
            files s s' ref id None
  end.
Proof.
  intros Hrs Hname. unfold addReference. fold (repo_of ref). fold (key_of ref).
  apply String.eqb_neq in Hname. rewrite Hname.
  destruct (Repositories s) as [rs|] eqn:Hrs'; [clear Hrs|done].
  unfold tagged at 1, Repositories_index. rewrite Hrs'.
  destruct (rs !! repo_of ref) as [[repo|]|] eqn:Hrepo; cbn [repository_index].
  - destruct (repo !! key_of ref) as [oldID|] eqn:Hold.
    + destruct (reference.Canonical ref) as [d|]; [done|].
      destruct force; cbn [negb]; [|done].
      rewrite save_pair. eexists. split; [reflexivity|].
      split; [done|]. split; [done|]. split; intros n k.
      * filed.
      * unfold cached. cbn. rewrite row_remember, row_forget.
        destruct (decide (n = id ∧ k = key_of ref)) as [_|Hn]; [done|].
        destruct (decide (n = oldID ∧ k = key_of ref)) as [[-> ->]|Hn'].
        -- by rewrite decide_True.
        -- rewrite decide_False; [done|]. intros [[= ->] ->]. by apply Hn'.
    + rewrite save_pair. eexists. split; [reflexivity|].
      split; [done|]. split; [done|]. split; intros n k.
      * filed.
      * unfold cached. cbn. rewrite row_remember.
        destruct (decide (n = id ∧ k = key_of ref)) as [_|Hn]; [done|].
        by rewrite decide_False by (by intros [[=] _]).
  - rewrite lookup_empty. rewrite save_pair. eexists. split; [reflexivity|].
    split; [done|]. split; [done|]. split; intros n k.
    + filed.
    + unfold cached. cbn. rewrite row_remember.
      destruct (decide (n = id ∧ k = key_of ref)) as [_|Hn]; [done|].
      by rewrite decide_False by (by intros [[=] _]).
  - rewrite lookup_empty. rewrite save_pair. eexists. split; [reflexivity|].
    split; [done|]. split; [done|]. split; intros n k.
    + filed.
    + unfold cached. cbn. rewrite row_remember.
      destruct (decide (n = id ∧ k = key_of ref)) as [_|Hn]; [done|].
      by rewrite decide_False by (by intros [[=] _]).
Qed.

(** A reference whose repository is named as the digest algorithm is
    refused before the store is looked at. *)
Lemma addReference_ambiguous (ref : Named) (id : image_ID) (force : bool)
    (s : store Named) (fs : FS) :
  repo_of ref = reference.digest_Canonical →
  addReference E ref id force s fs
  = (s, fs, Done (Some (errors_New
       "refusing to create an ambiguous tag using digest algorithm as name"))).
Proof.
  intros Hname. unfold addReference. fold (repo_of ref).
  apply String.eqb_eq in Hname. by rewrite Hname.
Qed.

(** What [Delete] does. *)
Lemma Delete_spec (ref : Named) (s : store Named) (fs : FS) :
  let r := tagged_or_same ref in
  match tagged s (repo_of r) (key_of r) with
  | Some id =>
      ∃ s', Delete E ref s fs = (s', (save E s' fs).1, (true, (save E s' fs).2)) ∧
            unfiles s s' (repo_of r) (key_of r) id
  | None => Delete E ref s fs = (s, fs, (false, Some ErrDoesNotExist))
  end.
Proof.
  cbn zeta. unfold Delete. fold (tagged_or_same ref).
  set (r := tagged_or_same ref). fold (repo_of r). fold (key_of r).
  unfold tagged at 1, Repositories_index.
  destruct (Repositories s) as [rs|] eqn:Hrs'; [|done].
  destruct (rs !! repo_of r) as [[repo|]|] eqn:Hrepo; cbn [repository_index]; [|done..].
  destruct (repo !! key_of r) as [id|] eqn:Hid; [|done].
  assert (∀ (s' : store Named) (fs : FS),
            (let '(fs', err) := save E s' fs in (s', fs', (true, err)))
            = (s', (save E s' fs).1, (true, (save E s' fs).2))) as Hpair.
  { intros s' fs0. by destruct (save E s' fs0). }
  rewrite Hpair. eexists. split; [reflexivity|].
  split; [done|]. split; [done|]. split; intros n k.
  - unfold tagged, Repositories_index, repository_index. cbn. rewrite Hrs'.
    destruct (decide (size (delete (key_of r) repo) = 0)) as [Hz|Hnz].
    + apply map_size_empty_iff in Hz.
      destruct (decide (n = repo_of r)) as [->|Hn].
      * rewrite lookup_delete_eq, Hrepo.
        destruct (decide (k = key_of r)) as [->|Hk];
          [by rewrite decide_True|rewrite decide_False by naive_solver].
        rewrite <- (lookup_delete_ne repo (key_of r) k) by done.
        by rewrite Hz, lookup_empty.
      * rewrite lookup_delete_ne by done. by rewrite decide_False by naive_solver.
    + destruct (decide (n = repo_of r)) as [->|Hn].
      * rewrite lookup_insert_eq, Hrepo.
        destruct (decide (k = key_of r)) as [->|Hk].
        -- rewrite lookup_delete_eq. by rewrite decide_True.
        -- rewrite lookup_delete_ne by done. by rewrite decide_False by naive_solver.
      * rewrite lookup_insert_ne by done. by rewrite decide_False by naive_solver.
  - unfold cached. cbn. by rewrite row_forget.
Qed.

Lemma save_leaves_file_on_error (s : store Named) fs err :
  (save E s fs).2 = Some err → (save E s fs).1 = fs.
Proof.
  unfold save, ioutils_AtomicWriteFile.
  destruct (json_Marshal E _); [done|]. by destruct (write_fails E fs _).
Qed.

(** The ways in which [addReference] ends: it leaves the store and the
    file as they are and returns an error or panics, or it files the
    reference and returns what [save] returns. *)
Lemma addReference_cases (ref : Named) (id : image_ID) (force : bool)
    (s s' : store Named) (fs fs' : FS) (o : result (option error)) :
  addReference E ref id force s fs = (s', fs', o) →
  (s' = s ∧ fs' = fs ∧ (o = Panic assignment_to_entry_in_nil_map ∨ ∃ msg, o = Done (Some (errors_New msg)))) ∨
  (Repositories s ≠ None ∧ repo_of ref ≠ reference.digest_Canonical ∧
   files s s' ref id (tagged s (repo_of ref) (key_of ref)) ∧
   fs' = (save E s' fs).1 ∧ o = Done (save E s' fs).2 ∧
   (is_Some (tagged s (repo_of ref) (key_of ref)) →
      force = true ∧ reference.Canonical ref = None)).
Proof.
  intros Hadd.
  destruct (decide (repo_of ref = reference.digest_Canonical)) as [Hname|Hname].
  { unfold addReference in Hadd. fold (repo_of ref) in Hadd.
    apply String.eqb_eq in Hname. rewrite Hname in Hadd.
    injection Hadd as <- <- <-. left. eauto. }
  destruct (Repositories s) as [rs|] eqn:Hrs.
  2:{ unfold addReference in Hadd. fold (repo_of ref) in Hadd.
      apply String.eqb_neq in Hname. rewrite Hname in Hadd.
      unfold Repositories_index in Hadd. rewrite Hrs in Hadd.
      injection Hadd as <- <- <-. left. eauto. }
  assert (Repositories s ≠ None) as Hsome by (by rewrite Hrs).
  rewrite <- Hrs.
  pose proof (addReference_spec ref id force s fs Hsome Hname) as Hspec.
  destruct (tagged s (repo_of ref) (key_of ref)) as [oldID|] eqn:Hold.
  - destruct (reference.Canonical ref) as [d|] eqn:Hcan.
    { rewrite Hspec in Hadd. injection Hadd as <- <- <-. left. eauto. }
    destruct force.
    + destruct Hspec as (s0 & Heq & Hfiles). rewrite Heq in Hadd.
      injection Hadd as <- <- <-. right. do 5 (split; [done|]). done.
    + rewrite Hspec in Hadd. injection Hadd as <- <- <-. left. eauto.
  - destruct Hspec as (s0 & Heq & Hfiles). rewrite Heq in Hadd.
    injection Hadd as <- <- <-. right.
    do 5 (split; [done|]). by intros [? [=]].
Qed.

Lemma tagged_or_same_EnsureTagged (ref : Named) :
  tag_only_names → tagged_or_same ref = reference.EnsureTagged ref.
Proof.
  intros Htag. unfold tagged_or_same.
  destruct (reference.IsNameOnly ref) eqn:Hn; [done|]. symmetry. by apply Htag.
Qed.

(** ** The order of [sort.Sort] *)

Lemma compare_not_Gt_trans (s t u : string) :
  String.compare s t ≠ Gt → String.compare t u ≠ Gt → String.compare s u ≠ Gt.
Proof.
  revert t u. induction s as [|a s IH]; intros [|b t] [|c u]; cbn; try done.
  unfold Ascii.compare.
  destruct (N.compare_spec (N_of_ascii a) (N_of_ascii b)) as [Hab|Hab|Hab];
    destruct (N.compare_spec (N_of_ascii b) (N_of_ascii c)) as [Hbc|Hbc|Hbc];
    destruct (N.compare_spec (N_of_ascii a) (N_of_ascii c)) as [Hac|Hac|Hac];
    try done; try lia.
  apply IH.
Qed.

Lemma lexical_compare (x y : string) : lexical x y ↔ String.compare x y ≠ Gt.
Proof.
  unfold lexical, String.ltb. rewrite (String.compare_antisym x y).
  by destruct (String.compare y x).
Qed.

Lemma lexical_total (x y : string) : lexical x y ∨ lexical y x.
Proof.
  rewrite !lexical_compare. rewrite (String.compare_antisym y x).
  destruct (String.compare x y); cbn; auto.
Qed.

Lemma lexical_trans (x y z : string) : lexical x y → lexical y z → lexical x z.
Proof. rewrite !lexical_compare. apply compare_not_Gt_trans. Qed.

Lemma sort_Sort_sorted {A} (key : A → string) (l : list A) :
  StronglySorted (λ x y, lexical (key x) (key y))
    (sort_Sort (λ x y, String.ltb (key x) (key y)) l) ∧
  sort_Sort (λ x y, String.ltb (key x) (key y)) l ≡ₚ l.
Proof.
  unfold sort_Sort. split; [|apply merge_sort_Permutation].
  apply (@StronglySorted_merge_sort A (λ x y, String.ltb (key y) (key x) = false)).
  - intros x y z. apply lexical_trans.
  - intros x y. apply lexical_total.
Qed.

Lemma elem_of_References (r : Named) (id : image_ID) (s : store Named) :
  r ∈ References id s ↔ ∃ k, cached s id k = Some r.
Proof.
  unfold References, lexicalRefs_Less, cached.
  destruct (sort_Sort_sorted reference.String
              (map_to_list (default ∅ (referencesByIDCache s !! id))).*2) as [_ Hperm].
  rewrite Hperm. rewrite list_elem_of_fmap. split.
  - intros ([k r'] & -> & Hin%elem_of_map_to_list). eauto.
  - intros [k Hk]. exists (k, r). split; [done|]. by apply elem_of_map_to_list.
Qed.

(** X23. [References] returns the references of the row of the image in the
    cache, each once, in the order of their [String()]: none is less than
    one before it.  There are none when the cache has no row. *)
Theorem References_sorted (id : image_ID) (s : store Named) :
  StronglySorted (λ x y, lexical (reference.String x) (reference.String y))
    (References id s) ∧
  (∀ r, r ∈ References id s ↔ ∃ k, cached s id k = Some r) ∧
  length (References id s) = size (default ∅ (referencesByIDCache s !! id)) ∧
  (referencesByIDCache s !! id = None → References id s = []).
Proof.
  split; [|split; [|split]].
  - unfold References, lexicalRefs_Less. apply sort_Sort_sorted.
  - intros r. apply elem_of_References.
  - unfold References, lexicalRefs_Less.
    destruct (sort_Sort_sorted reference.String
                (map_to_list (default ∅ (referencesByIDCache s !! id))).*2) as [_ Hperm].
    rewrite Hperm. rewrite length_fmap. apply length_map_to_list.
  - intros Hrow. unfold References. rewrite Hrow. cbn. by rewrite map_to_list_empty.
Qed.

(** ** Tags *)

(** X16. A tag that [AddTag] has added is the tag that [Get] finds. *)
Theorem Get_after_AddTag (ref : Named) (id : image_ID) (force : bool)
    (s s' : store Named) (fs fs' : FS) :
  familiar_idempotent → tag_only_names →
  AddTag E ref id force s fs = (s', fs', Done None) →
  Get ref s' = inr id.
Proof.
  intros Hidem Htag Hadd. unfold AddTag in Hadd.
  destruct (reference.Canonical ref); [done|].
  apply addReference_cases in Hadd as [(_ & _ & [[=]|[msg [=]]])|(_ & _ & Hfiles & _)].
  destruct Hfiles as (_ & _ & Htagged & _).
  rewrite (Get_tagged _ _ Hidem), (tagged_or_same_EnsureTagged _ Htag), Htagged.
  by rewrite decide_True.
Qed.

(** X17. [AddTag] without force on a reference that [Get] finds returns an
    error and leaves the store and the file as they are. *)
Theorem AddTag_without_force_keeps_tag (ref : Named) (id oldID : image_ID)
    (s : store Named) (fs : FS) :
  familiar_idempotent → tag_only_names →
  Get ref s = inr oldID →
  ∃ err, AddTag E ref id false s fs = (s, fs, Done (Some err)).
Proof.
  intros Hidem Htag Hget. unfold AddTag.
  destruct (reference.Canonical ref); [eauto|].
  rewrite (Get_tagged _ _ Hidem), (tagged_or_same_EnsureTagged _ Htag) in Hget.
  set (r := reference.EnsureTagged ref) in *.
  destruct (tagged s (repo_of r) (key_of r)) as [old|] eqn:Hold; [|done].
  destruct (decide (repo_of r = reference.digest_Canonical)) as [Hname|Hname].
  { unfold addReference. fold (repo_of r). apply String.eqb_eq in Hname.
    rewrite Hname. eauto. }
  assert (Repositories s ≠ None) as Hsome.
  { apply tagged_Some in Hold as (rs & repo & -> & _). done. }
  pose proof (addReference_spec r id false s fs Hsome Hname) as Hspec.
  rewrite Hold in Hspec. destruct (reference.Canonical r); eauto.
Qed.
(** X18. [AddTag] with force on a reference that [Get] finds and that is
    not a digest reference.  When the repository of the reference is not
    named as the digest algorithm, the reference is filed for the new
    image: [Get] finds the new image, and the cache has the reference in
    the row of the new image and no longer in the row of the old one.
    When the repository is named as the digest algorithm, as a repository
    that was read from the file can be, [AddTag] refuses the reference as
    ambiguous and changes nothing, although [Get] finds it. *)
Theorem AddTag_with_force_replaces (ref : Named) (id oldID : image_ID)
    (s : store Named) (fs : FS) :
  familiar_idempotent → tag_only_names →
  reference.Canonical ref = None →
  reference.Canonical (reference.EnsureTagged ref) = None →
  Get ref s = inr oldID →
  if String.eqb (repo_of (reference.EnsureTagged ref)) reference.digest_Canonical then
    AddTag E ref id true s fs
    = (s, fs, Done (Some (errors_New
         "refusing to create an ambiguous tag using digest algorithm as name")))
  else
    ∃ s', AddTag E ref id true s fs = (s', (save E s' fs).1, Done (save E s' fs).2) ∧
          Get ref s' = inr id ∧
          reference.EnsureTagged ref ∈ References id s' ∧
          (oldID ≠ id →
             cached s' oldID (key_of (reference.EnsureTagged ref)) = None ∧
             ∀ r, r ∈ References oldID s' → r ∈ References oldID s).
Proof.
  intros Hidem Htag Hcan Hcan' Hget. unfold AddTag. rewrite Hcan.
  rewrite (Get_tagged _ _ Hidem), (tagged_or_same_EnsureTagged _ Htag) in Hget.
  set (r := reference.EnsureTagged ref) in *.
  destruct (String.eqb (repo_of r) reference.digest_Canonical) eqn:Hname.
  { apply String.eqb_eq in Hname. by apply addReference_ambiguous. }
  apply String.eqb_neq in Hname.
  destruct (tagged s (repo_of r) (key_of r)) as [old|] eqn:Hold; [|done].
  injection Hget as ->.
  assert (Repositories s ≠ None) as Hsome.
  { apply tagged_Some in Hold as (rs & repo & -> & _). done. }
  pose proof (addReference_spec r id true s fs Hsome Hname) as Hspec.
  rewrite Hold, Hcan' in Hspec. destruct Hspec as (s' & Heq & _ & _ & Htagged & Hcached).
  exists s'. split; [done|]. split; [|split].
  - rewrite (Get_tagged _ _ Hidem), (tagged_or_same_EnsureTagged _ Htag).
    fold r. rewrite Htagged. by rewrite decide_True.
  - apply elem_of_References. exists (key_of r). rewrite Hcached. by rewrite decide_True.
  - intros Hne. split.
    + rewrite Hcached. rewrite decide_False by naive_solver. by rewrite decide_True.
    + intros r' [k Hk]%elem_of_References. apply elem_of_References. exists k.
      rewrite Hcached in Hk. rewrite decide_False in Hk by naive_solver.
      by destruct (decide (Some oldID = Some oldID ∧ k = key_of r)).
Qed.

(** X19. A digest reference is never overwritten: [AddDigest] of a reference
    that the store has returns an error and changes nothing, with and
    without force and also for the image that the reference has.  The
    error says that the digest cannot be overwritten, unless the
    repository of the reference is named as the digest algorithm: the
    reference is then refused as ambiguous before the store is looked
    at. *)
Theorem AddDigest_never_overwrites (ref : Named) (d : string) (id oldID : image_ID)
    (force : bool) (s : store Named) (fs : FS) :
  reference.Canonical ref = Some d →
  tagged s (repo_of ref) (key_of ref) = Some oldID →
  AddDigest E ref id force s fs
  = (s, fs,
     Done (Some (errors_New
       (if String.eqb (repo_of ref) reference.digest_Canonical
        then "refusing to create an ambiguous tag using digest algorithm as name"
        else "Cannot overwrite digest " +:+ d)))).
Proof.
  intros Hcan Hold. unfold AddDigest.
  destruct (String.eqb (repo_of ref) reference.digest_Canonical) eqn:Hname.
  { apply String.eqb_eq in Hname. by apply addReference_ambiguous. }
  apply String.eqb_neq in Hname.
  assert (Repositories s ≠ None) as Hsome.
  { apply tagged_Some in Hold as (rs & repo & -> & _). done. }
  pose proof (addReference_spec ref id force s fs Hsome Hname) as Hspec.
  by rewrite Hold, Hcan in Hspec.
Qed.

(** X20. When [AddTag] has changed the store and yet returns an error, the
    error is that of [save]: the file is as it was, and the store in
    memory has the tag all the same. *)
Theorem AddTag_save_failure_keeps_tag (ref : Named) (id : image_ID) (force : bool)
    (s s' : store Named) (fs fs' : FS) (err : error) :
  familiar_idempotent → tag_only_names →
  AddTag E ref id force s fs = (s', fs', Done (Some err)) →
  s' ≠ s →
  fs' = fs ∧ (save E s' fs).2 = Some err ∧ Get ref s' = inr id.
Proof.
  intros Hidem Htag Hadd Hne. unfold AddTag in Hadd.
  destruct (reference.Canonical ref); [by injection Hadd as <-|].
  apply addReference_cases in Hadd as [(-> & _)|(_ & _ & Hfiles & -> & [= Herr] & _)]; [done|].
  split; [by eapply save_leaves_file_on_error|]. split; [done|].
  destruct Hfiles as (_ & _ & Htagged & _).
  rewrite (Get_tagged _ _ Hidem), (tagged_or_same_EnsureTagged _ Htag), Htagged.
  by rewrite decide_True.
Qed.

(** X21. [Delete] deletes what [Get] finds: it returns true exactly for a
    reference that [Get] finds, which [Get] then no longer finds, while
    every other tag stays; for a reference that [Get] does not find it
    returns false with [ErrDoesNotExist] and leaves the store and the
    file as they are. *)
Theorem Delete_deletes_what_Get_finds (ref : Named) (s : store Named) (fs : FS) :
  familiar_idempotent →
  match Get ref s with
  | inr id =>
      ∃ s', Delete E ref s fs = (s', (save E s' fs).1, (true, (save E s' fs).2)) ∧
            Get ref s' = inl ErrDoesNotExist ∧
            ∀ n k, ¬ (n = repo_of (tagged_or_same ref) ∧ k = key_of (tagged_or_same ref)) →
                   tagged s' n k = tagged s n k
  | inl _ => Delete E ref s fs = (s, fs, (false, Some ErrDoesNotExist))
  end.
Proof.
  intros Hidem. rewrite (Get_tagged _ _ Hidem).
  pose proof (Delete_spec ref s fs) as Hspec. cbn zeta in Hspec.
  destruct (tagged s _ _) as [id|]; [|done].
  destruct Hspec as (s' & Heq & _ & _ & Htagged & _).
  exists s'. split; [done|]. split.
  - rewrite (Get_tagged _ _ Hidem), Htagged. by rewrite decide_True.
  - intros n k Hnk. rewrite Htagged. by rewrite decide_False.
Qed.

(** ** The cache *)

Lemma coherent_files (s s' : store Named) ref id :
  key_tells_repo → coherent s →
  files s s' ref id (tagged s (repo_of ref) (key_of ref)) → coherent s'.
Proof.
  intros Hkey [Hc1 Hc2] (_ & _ & Htagged & Hcached). split.
  - intros i k r. rewrite Hcached.
    destruct (decide (i = id ∧ k = key_of ref)) as [[-> ->]|Hn].
    { intros [= <-]. split; [done|]. rewrite Htagged. by rewrite decide_True. }
    destruct (decide (Some i = tagged s (repo_of ref) (key_of ref) ∧ k = key_of ref))
      as [_|Hn']; [done|].
    intros Hr. destruct (Hc1 i k r Hr) as [-> Ht]. split; [done|].
    rewrite Htagged. destruct (decide (repo_of r = repo_of ref ∧ key_of r = key_of ref))
      as [[Hrepo Hk]|_]; [|done].
    exfalso. apply Hn'. by rewrite <- Hrepo, <- Hk.
  - intros n k i. rewrite Htagged.
    destruct (decide (n = repo_of ref ∧ k = key_of ref)) as [[-> ->]|Hn].
    { intros [= <-]. exists ref. split; [|done]. rewrite Hcached. by rewrite decide_True. }
    intros Ht. destruct (Hc2 n k i Ht) as (r & Hr & <-).
    destruct (Hc1 i k r Hr) as [-> _].
    assert (key_of r ≠ key_of ref) as Hk.
    { intros Hk. apply Hn. split; [by apply Hkey|done]. }
    exists r. split; [|done]. rewrite Hcached.
    rewrite decide_False by naive_solver. by rewrite decide_False by naive_solver.
Qed.

Lemma coherent_unfiles (s s' : store Named) name k id :
  key_tells_repo → coherent s → tagged s name k = Some id →
  unfiles s s' name k id → coherent s'.
Proof.
  intros Hkey [Hc1 Hc2] Hold (_ & _ & Htagged & Hcached). split.
  - intros i k' r. rewrite Hcached.
    destruct (decide (i = id ∧ k' = k)) as [_|Hn]; [done|].
    intros Hr. destruct (Hc1 i k' r Hr) as [-> Ht]. split; [done|].
    rewrite Htagged. destruct (decide (repo_of r = name ∧ key_of r = k)) as [[<- <-]|_];
      [|done].
    exfalso. apply Hn. split; [congruence|done].
  - intros n k' i. rewrite Htagged.
    destruct (decide (n = name ∧ k' = k)) as [_|Hn]; [done|].
    intros Ht. destruct (Hc2 n k' i Ht) as (r & Hr & <-).
    destruct (Hc1 i k' r Hr) as [-> _].
    exists r. split; [|done]. rewrite Hcached. rewrite decide_False; [done|].
    intros [-> <-]. apply Hn. split; [|done].
    destruct (Hc2 name (key_of r) id Hold) as (r' & Hr' & <-).
    destruct (Hc1 id (key_of r) r' Hr') as [Hk _]. by apply Hkey.
Qed.

Lemma addReference_coherent (ref : Named) (id : image_ID) (force : bool)
    (s : store Named) (fs : FS) :
  key_tells_repo → coherent s → coherent (addReference E ref id force s fs).1.1.
Proof.
  intros Hkey Hco.
  destruct (addReference E ref id force s fs) as [[s' fs'] o] eqn:Heq.
  apply addReference_cases in Heq as [(-> & _)|(_ & _ & Hfiles & _)]; [done|].
  by eapply coherent_files.
Qed.

(** X22. Every operation keeps the cache and the repositories coherent,
    however it ends (with nil, with an error of its own, with an error of
    [save] or with a panic). *)
Theorem coherent_kept (s : store Named) (fs : FS) :
  key_tells_repo → coherent s →
  (∀ ref id force, coherent (AddTag E ref id force s fs).1.1) ∧
  (∀ ref id force, coherent (AddDigest E ref id force s fs).1.1) ∧
  (∀ ref, coherent (Delete E ref s fs).1.1).
Proof.
  intros Hkey Hco.
  assert (∀ ref id force, coherent (addReference E ref id force s fs).1.1) as Hadd.
  { intros ref id force. by apply addReference_coherent. }
  split; [|split; [done|]].
  - intros ref id force. unfold AddTag. by destruct (reference.Canonical ref).
  - intros ref. pose proof (Delete_spec ref s fs) as Hspec. cbn zeta in Hspec.
    destruct (tagged s _ _) as [id|] eqn:Hold.
    + destruct Hspec as (s' & -> & Hun). by eapply coherent_unfiles.
    + by rewrite Hspec.
Qed.

Lemma coherent_empty (path : string) :
  coherent {| jsonPath := path; Repositories := Some ∅; referencesByIDCache := ∅ |}.
Proof.
  split.
  - intros id k r. unfold cached. cbn. by rewrite lookup_empty.
  - intros n k id. unfold tagged, Repositories_index. cbn. by rewrite lookup_empty.
Qed.

(** X24. In a coherent store [References] lists the tags of the image: the
    references that it returns for [id] are filed under their key in
    their repository with [id], and every tag with [id] has its
    reference among them. *)
Theorem References_are_the_tags (s : store Named) (id : image_ID) :
  coherent s →
  (∀ r, r ∈ References id s → tagged s (repo_of r) (key_of r) = Some id) ∧
  (∀ name k, tagged s name k = Some id →
     ∃ r, r ∈ References id s ∧ repo_of r = name ∧ key_of r = k).
Proof.
  intros [Hc1 Hc2]. split.
  - intros r [k Hk]%elem_of_References. by destruct (Hc1 id k r Hk) as [-> ?].
  - intros name k Ht. destruct (Hc2 name k id Ht) as (r & Hr & Hname).
    exists r. split; [apply elem_of_References; eauto|]. split; [done|].
    by destruct (Hc1 id k r Hr) as [-> _].
Qed.
(** ** The file *)

Lemma Get_Repositories (ref : Named) (s s' : store Named) :
  Repositories s = Repositories s' → Get ref s = Get ref s'.
Proof. intros Heq. unfold Get, Repositories_index. by rewrite Heq. Qed.

Lemma NewReferenceStore_jsonPath path fs fs' (s : store Named) :
  NewReferenceStore E path fs = (fs', Done (inr s)) →
  filepath_Abs E path = inr (jsonPath s).
Proof.
  unfold NewReferenceStore, reload.
  destruct (filepath_Abs E path) as [err|abspath]; [by intros [=]|]. cbn [jsonPath].
  destruct (os_Open E fs abspath) as [err|content].
  - destruct (os_IsNotExist (Some err)); [|by intros [=]].
    destruct (save E _ fs) as [fs1 [err'|]]; [by intros [=]|]. by intros [= _ <-].
  - destruct (json_Decode E content) as [msg|[|rs]]; [by intros [=]..|].
    by intros [= _ <-].
Qed.

(** X26. Tags survive a restart: when [AddTag] on a store that
    [NewReferenceStore] has made returns nil, the file of the store has
    the repositories of the store, so that [NewReferenceStore] on the same
    path makes a store with the same repositories, in which [Get] finds
    what it found before the restart.  This needs a decoder that reads
    back what the encoder has written, and a file that opens. *)
Theorem tags_survive_restart (path : string) (fs0 fs1 fs2 : FS) (s1 s2 : store Named)
    (ref : Named) (id : image_ID) (force : bool) :
  (∀ rs data, json_Marshal E rs = inr data → json_Decode E data = inr (decoded_store rs)) →
  NewReferenceStore E path fs0 = (fs1, Done (inr s1)) →
  AddTag E ref id force s1 fs1 = (s2, fs2, Done None) →
  open_fails E fs2 (jsonPath s1) = None →
  ∃ s3, NewReferenceStore E path fs2 = (fs2, Done (inr s3)) ∧
        jsonPath s3 = jsonPath s2 ∧ Repositories s3 = Repositories s2 ∧
        ∀ r, Get r s3 = Get r s2.
Proof.
  intros Hjson Hnew Hadd Hopen.
  apply NewReferenceStore_jsonPath in Hnew.
  unfold AddTag in Hadd. destruct (reference.Canonical ref); [done|].
  apply addReference_cases in Hadd
    as [(_ & _ & [[=]|[msg [=]]])|(_ & _ & Hfiles & Hfs & [= Hsave] & _)].
  destruct Hfiles as (Hpath & _).
  assert (∃ data, json_Marshal E (Repositories s2) = inr data ∧
                  save E s2 fs1 = (<[jsonPath s1 := (data, mode_0600)]> fs1, None))
    as (data & Hdata & Hs).
  { unfold save, ioutils_AtomicWriteFile in Hsave |- *. rewrite Hpath in Hsave |- *.
    destruct (json_Marshal E (Repositories s2)) as [msg|data]; [done|].
    destruct (write_fails E fs1 (jsonPath s1)); [done|]. eauto. }
  rewrite Hs in Hfs. cbn [fst] in Hfs. subst fs2.
  unfold NewReferenceStore, reload, os_Open. rewrite Hnew. cbn [jsonPath].
  rewrite Hopen. cbn [jsonPath]. rewrite lookup_insert_eq. cbn [jsonPath].
  rewrite (Hjson _ _ Hdata). cbn [jsonPath].
  eexists. split; [reflexivity|]. cbn. split; [done|]. split; [done|].
  intros r. by apply Get_Repositories.
Qed.

Lemma reload_range_repository_rows (entries : list (string * image_ID)) :
  ∀ (c : gmap image_ID (gmap string Named)) (seen : list (string * image_ID)),
  (∀ id k r, default ∅ (c !! id) !! k = Some r ↔
             reference.NormalizedName k = Some r ∧ (k, id) ∈ seen) →
  ∀ id k r, default ∅ (reload_range_repository entries c !! id) !! k = Some r ↔
            reference.NormalizedName k = Some r ∧ (k, id) ∈ seen ++ entries.
Proof.
  unfold reload_range_repository.
  induction entries as [|[k0 i0] entries IH]; intros c seen Hc id k r; cbn [foldl].
  - by rewrite app_nil_r.
  - rewrite (IH _ (seen ++ [(k0, i0)])); [by rewrite <- app_assoc|].
    clear id k r. intros id k r. rewrite elem_of_app, list_elem_of_singleton.
    destruct (reference.NormalizedName k0) as [r0|] eqn:Hk0.
    + rewrite row_remember. destruct (decide (id = i0 ∧ k = k0)) as [[-> ->]|Hn].
      * rewrite Hk0. split; [intros [= ->]; auto|]. by intros [[= ->] _].
      * rewrite Hc. split; [intros [? ?]; auto|].
        intros [? [?|[= -> ->]]]; [done|]. by destruct Hn.
    + rewrite Hc. split; [intros [? ?]; auto|].
      intros [? [?|[= -> ->]]]; [done|]. congruence.
Qed.

Lemma reload_range_Repositories_rows (rs : option (gmap string repository)) :
  ∀ id k r,
  default ∅ (reload_range_Repositories rs ∅ !! id) !! k = Some r ↔
  reference.NormalizedName k = Some r ∧
  ∃ name repo, default ∅ rs !! name = Some (Some repo) ∧ repo !! k = Some id.
Proof.
  unfold reload_range_Repositories.
  assert (∀ (l : list (string * repository)) (c : gmap image_ID (gmap string Named))
            (seen : list (string * image_ID)),
            (∀ id k r, default ∅ (c !! id) !! k = Some r ↔
                       reference.NormalizedName k = Some r ∧ (k, id) ∈ seen) →
            ∀ id k r,
            default ∅ (foldl (λ c '(_, repository),
                                reload_range_repository
                                  (map_to_list (default ∅ repository)) c) c l !! id) !! k
            = Some r ↔
            reference.NormalizedName k = Some r ∧
            ((k, id) ∈ seen ∨
             ∃ name repo, (name, Some repo) ∈ l ∧ repo !! k = Some id)) as Hfold.
  { induction l as [|[name repo] l IH]; intros c seen Hc id k r; cbn [foldl].
    - rewrite Hc. split; [intros [? ?]; auto|].
      intros [? [?|(? & ? & []%elem_of_nil & _)]]. done.
    - rewrite (IH _ (seen ++ map_to_list (default ∅ repo)));
        [|by apply reload_range_repository_rows].
      rewrite elem_of_app. split.
      + intros [Hr [[Hin|Hin]|(name' & repo' & Hin & Hk)]].
        * auto.
        * split; [done|]. right. destruct repo as [repo|].
          -- exists name, repo. split; [left|]. by apply elem_of_map_to_list in Hin.
          -- cbn in Hin. rewrite map_to_list_empty in Hin. by apply elem_of_nil in Hin.
        * split; [done|]. right. exists name', repo'. split; [by right|done].
      + intros [Hr [Hin|(name' & repo' & Hin & Hk)]]; [auto|]. split; [done|].
        apply elem_of_cons in Hin as [[= <- <-]|Hin].
        * left. right. by apply elem_of_map_to_list.
        * right. eauto. }
  intros id k r. rewrite (Hfold _ ∅ []).
  - split.
    + intros [Hr [[]%elem_of_nil|(name & repo & Hin%elem_of_map_to_list & Hk)]]. eauto.
    + intros [Hr (name & repo & Hin & Hk)]. split; [done|]. right.
      exists name, repo. split; [|done]. by apply elem_of_map_to_list.
  - intros id' k' r'. rewrite lookup_empty. cbn. rewrite lookup_empty.
    split; [done|]. by intros [_ []%elem_of_nil].
Qed.

(** X27. The cache of a store that [NewReferenceStore] has made: it has a
    reference for an image under a key exactly when some repository of
    the store has the key for that image and the key parses, and the
    reference is what the key parses to. *)
Theorem NewReferenceStore_fills_cache (path : string) (fs fs' : FS) (s : store Named) :
  NewReferenceStore E path fs = (fs', Done (inr s)) →
  ∀ id k r,
    cached s id k = Some r ↔
    reference.NormalizedName k = Some r ∧ ∃ name, tagged s name k = Some id.
Proof.
  unfold NewReferenceStore, reload.
  destruct (filepath_Abs E path) as [err|abspath]; [by intros [=]|]. cbn [jsonPath].
  destruct (os_Open E fs abspath) as [err|content].
  - destruct (os_IsNotExist (Some err)); [|by intros [=]].
    destruct (save E _ fs) as [fs1 [err'|]]; [by intros [=]|]. intros [= _ <-] id k r.
    unfold cached, tagged, Repositories_index. cbn. rewrite !lookup_empty. cbn.
    rewrite lookup_empty. split; [done|]. by intros (_ & name & ?).
  - destruct (json_Decode E content) as [msg|[|rs]]; [by intros [=]..|].
    intros [= _ <-] id k r.
    unfold cached. cbn. rewrite reload_range_Repositories_rows.
    split; intros [Hr Htag]; (split; [done|]).
    + destruct Htag as (name & repo & Hrepo & Hk). exists name.
      apply tagged_Some. cbn.
      destruct rs as [rs|]; [|cbn in Hrepo; by rewrite lookup_empty in Hrepo].
      eauto.
    + destruct Htag as (name & (rs' & repo & Hrs & Hrepo & Hk)%tagged_Some).
      cbn in Hrs. subst rs. eauto.
Qed.

(** ** ReferencesByName *)

Lemma ReferencesByName_range_Some (entries : list (string * image_ID)) :
  (∀ k i, (k, i) ∈ entries → is_Some (reference.NormalizedName k)) →
  ∃ associations,
    ReferencesByName_range entries = Some associations ∧
    length associations = length entries ∧
    ∀ a, a ∈ associations ↔
         ∃ k, (k, ImageID a) ∈ entries ∧ reference.NormalizedName k = Some (Ref a).
Proof.
  induction entries as [|[k0 i0] entries IH]; intros Hall; cbn.
  - exists []. split; [done|]. split; [done|]. intros a. split; [by intros ?%elem_of_nil|].
    by intros (k & ?%elem_of_nil & _).
  - destruct (Hall k0 i0) as [r0 Hr0]; [left|]. rewrite Hr0.
    destruct IH as (l & -> & Hlen & Hl); [intros k i Hin; apply (Hall k i); by right|].
    eexists. split; [done|]. split; [cbn; by rewrite Hlen|].
    intros a. rewrite elem_of_cons, Hl. split.
    + intros [->|(k & Hin & Hk)]; [exists k0; split; [left|done]|].
      exists k. split; [by right|done].
    + intros (k & [[= -> Hi]|Hin]%elem_of_cons & Hk).
      * left. destruct a as [r i]. cbn in *. congruence.
      * right. eauto.
Qed.

Lemma ReferencesByName_range_None (entries : list (string * image_ID)) k i :
  (k, i) ∈ entries → reference.NormalizedName k = None →
  ReferencesByName_range entries = None.
Proof.
  induction entries as [|[k0 i0] entries IH]; [by intros ?%elem_of_nil|].
  intros [[= <- <-]|Hin]%elem_of_cons Hk; cbn.
  - by rewrite Hk.
  - destruct (reference.NormalizedName k0); [|done]. by rewrite IH.
Qed.

(** X25. [ReferencesByName] is all or nothing: when a key of the repository
    does not parse, it returns nil, also for the keys that parse; when
    every key parses, it returns one association for every tag of the
    repository, with the image of the tag, in the order of the
    [String()] of the references. *)
Theorem ReferencesByName_all_or_nothing (ref : Named) (s : store Named) :
  ((∃ k i, tagged s (repo_of ref) k = Some i ∧ reference.NormalizedName k = None) →
   ReferencesByName ref s = []) ∧
  ((∀ k i, tagged s (repo_of ref) k = Some i → is_Some (reference.NormalizedName k)) →
   StronglySorted (λ x y, lexical (reference.String (Ref x)) (reference.String (Ref y)))
     (ReferencesByName ref s) ∧
   (∀ a, a ∈ ReferencesByName ref s ↔
         ∃ k, tagged s (repo_of ref) k = Some (ImageID a) ∧
              reference.NormalizedName k = Some (Ref a)) ∧
   (∀ repo, Repositories_index s (repo_of ref) = Some (Some repo) →
      length (ReferencesByName ref s) = size repo)).
Proof.
  unfold ReferencesByName, tagged. fold (repo_of ref).
  destruct (Repositories_index s (repo_of ref)) as [[repo|]|] eqn:Hrepo; cbn.
  - split.
    + intros (k & i & Hk & Hn).
      by rewrite (ReferencesByName_range_None _ k i (proj2 (elem_of_map_to_list _ _ _) Hk) Hn).
    + intros Hall.
      destruct (ReferencesByName_range_Some (map_to_list repo)) as (l & -> & Hlen & Hl).
      { intros k i Hin%elem_of_map_to_list. by apply (Hall k i). }
      unfold lexicalAssociations_Less.
      destruct (sort_Sort_sorted (λ a, reference.String (Ref a)) l) as [Hsorted Hperm].
      split; [exact Hsorted|]. split.
      * intros a. rewrite Hperm, Hl. split; intros (k & Hk & Hn); exists k;
          (split; [|done]); by apply elem_of_map_to_list.
      * intros repo' [= <-]. by rewrite Hperm, Hlen, length_map_to_list.
  - rewrite map_to_list_empty. cbn. split; [done|]. intros _.
    split; [constructor|]. split; [|done].
    intros a. split; [by intros ?%elem_of_nil|]. by intros (k & ? & _).
  - split; [done|]. intros _. split; [constructor|]. split; [|done].
    intros a. split; [by intros ?%elem_of_nil|]. by intros (k & ? & _).
Qed.

(** ** Edge cases: the file of the store and nil maps *)

(** X28. [NewReferenceStore] never rewrites a file that it could open: it
    changes the file system in one case only, when the open has failed
    with an error that says that the file does not exist; it then writes
    the serialization of a store without repositories, with mode 0600,
    and returns that store.  A file that does not decode is left as it
    is. *)
Theorem NewReferenceStore_writes_only_a_missing_file (path : string) (fs : FS) :
  let fs' := (NewReferenceStore (Named := Named) E path fs).1 in
  fs' = fs ∨
  ∃ abspath err data,
    filepath_Abs E path = inr abspath ∧
    os_Open E fs abspath = inl err ∧ os_IsNotExist (Some err) = true ∧
    json_Marshal E (Some ∅) = inr data ∧
    fs' = <[abspath := (data, mode_0600)]> fs ∧
    (NewReferenceStore (Named := Named) E path fs).2
    = Done (inr {| jsonPath := abspath; Repositories := Some ∅;
                   referencesByIDCache := ∅ |}).
Proof.
  cbn zeta. unfold NewReferenceStore, reload.
  destruct (filepath_Abs E path) as [err|abspath]; [by left|]. cbn [jsonPath].
  destruct (os_Open E fs abspath) as [err|content] eqn:Hopen.
  - destruct (os_IsNotExist (Some err)) eqn:Hne; [|by left].
    unfold save, ioutils_AtomicWriteFile. cbn [Repositories jsonPath].
    destruct (json_Marshal E (Some ∅)) as [msg|data] eqn:Hdata; [by left|].
    destruct (write_fails E fs abspath) as [err'|]; [by left|].
    right. by exists abspath, err, data.
  - destruct (json_Decode E content) as [msg|[|rs]]; by left.
Qed.

(** X29. A store whose [Repositories] is the nil map, as the decoder leaves
    it for a file with a null [Repositories]: [Get], [Delete] and
    [ReferencesByName] find nothing, and an [AddTag] that gets as far as
    the repositories panics on the assignment to an entry of a nil map,
    with the store and the file as they were. *)
Theorem nil_Repositories_panics_on_AddTag (s : store Named) (fs : FS) :
  Repositories s = None →
  (∀ ref, Get ref s = inl ErrDoesNotExist) ∧
  (∀ ref, Delete E ref s fs = (s, fs, (false, Some ErrDoesNotExist))) ∧
  (∀ ref, ReferencesByName ref s = []) ∧
  (∀ ref id force,
     reference.Canonical ref = None →
     repo_of (reference.EnsureTagged ref) ≠ reference.digest_Canonical →
     AddTag E ref id force s fs = (s, fs, Panic assignment_to_entry_in_nil_map)).
Proof.
  intros Hnil. repeat split.
  - intros ref. unfold Get, Repositories_index. by rewrite Hnil.
  - intros ref. unfold Delete, Repositories_index. by rewrite Hnil.
  - intros ref. unfold ReferencesByName, Repositories_index. by rewrite Hnil.
  - intros ref id force Hcan Hname. unfold AddTag. rewrite Hcan.
    unfold addReference, Repositories_index. rewrite Hnil.
    apply String.eqb_neq in Hname. unfold repo_of in Hname. by rewrite Hname.
Qed.
End Refstore.

(** ** The further properties on concrete scenarios *)

Section Scenarios_more.
Import Scenario Scenario_more.

Local Ltac not_listed H :=
  repeat (apply elem_of_cons in H as [H|H]; [discriminate H|]);
  by apply elem_of_nil in H.

Local Ltac loads Hin Hv :=
  repeat (apply elem_of_cons in Hin as [->|Hin];
          [first [eexists; vm_compute; reflexivity | vm_compute in Hv; discriminate Hv]|]);
  by apply elem_of_nil in Hin.

Lemma StateChanged_ignores_other_states_witness :
  run quiet Caller (StateChanged idA start) (tracked open_signal)
  = (record Caller [debug_entry idA start] (tracked open_signal), Returned None).
Proof.
  apply (StateChanged_ignores_other_states quiet idA start (tracked open_signal)).
  discriminate.
Defined.

Lemma StateChanged_closed_exit_signal_witness :
  ∃ w',
    run quiet Caller (StateChanged idA exit) signal_closed
      = (w', Panicked close_of_closed_channel) ∧
    trace w' = trace signal_closed
               ++ [(Caller, debug_entry idA exit); (Caller, EvGetByID idA (inr 1%positive))] ∧
    mu_readers w' = Datatypes.S (mu_readers signal_closed) ∧
    closed w' = closed signal_closed ∧ controllers w' = controllers signal_closed ∧
    cMap w' = cMap signal_closed ∧
    plugin_objs w' = plugin_objs signal_closed ∧
    Store_plugins w' = Store_plugins signal_closed.
Proof.
  apply (StateChanged_closed_exit_signal quiet idA exit signal_closed
           1%positive 1%positive 7%positive).
  - reflexivity.
  - vm_compute. reflexivity.
  - vm_compute. reflexivity.
  - vm_compute. reflexivity.
  - cbn. by apply elem_of_singleton.
Defined.

Lemma StateChanged_second_exit_panics_witness :
  ∃ w1 w2,
    run quiet Caller (StateChanged idA exit) (tracked disabling) = (w1, Returned None) ∧
    (∀ t q c' force r, (t, EvPmEnable q c' force r) ∉ since (tracked disabling) w1) ∧
    run quiet Caller (StateChanged idA exit) w1 = (w2, Panicked close_of_closed_channel).
Proof.
  apply (StateChanged_second_exit_panics quiet idA exit exit (tracked disabling)
           1%positive 1%positive 7%positive).
  - reflexivity.
  - reflexivity.
  - vm_compute. reflexivity.
  - vm_compute. reflexivity.
  - vm_compute. reflexivity.
  - cbn. apply not_elem_of_empty.
  - vm_compute. reflexivity.
Defined.

Lemma NewManager_setup_comes_first_witness :
  let w' := (exec_go only_B [] Caller (NewManager only_B config) empty_world).1 in
  ∃ evs,
    since empty_world w'
    = map (pair Caller) (setup_done config ++ [EvReadDir (Root config) (inr [idB])]) ++ evs ∧
    Caller = Caller ∧ "/plugins" = Root config ∧
    ∀ t' path' r', (t', EvReadDir path' r') ∉ evs.
Proof.
  apply (NewManager_setup_comes_first only_B config [] empty_world Caller "/plugins"
           (inr [idB])).
  vm_compute. repeat constructor.
Defined.

Lemma NewManager_refused_setup_witness :
  let w' := (exec_go read_only [] Caller (NewManager read_only config) empty_world).1 in
  ∃ evs msg,
    since empty_world w'
    = evs ++ [(Caller, EvMkdirAll "/plugins" mode_0700
                         (Some (errors_New "read-only file system")))] ∧
    (exec_go read_only [] Caller (NewManager read_only config) empty_world).2
      = Returned (Some (errors_Wrap (errors_New "read-only file system") msg)) ∧
    (∀ t' path r, (t', EvReadDir path r) ∉ since empty_world w') ∧
    Store_plugins w' = Store_plugins empty_world ∧ cMap w' = cMap empty_world ∧
    plugin_objs w' = plugin_objs empty_world.
Proof.
  apply (NewManager_refused_setup read_only config [] empty_world Caller
           (EvMkdirAll "/plugins" mode_0700 (Some (errors_New "read-only file system")))
           (errors_New "read-only file system")).
  - vm_compute. repeat constructor.
  - left. by exists "/plugins".
Defined.

Lemma reload_stops_at_first_failure_witness :
  ∃ w',
    exec_go missing_B [] Caller (reload missing_B config) empty_world
      = (w', Returned (Some missing_B_error)) ∧
    since empty_world w' =
      map (pair Caller)
        (EvReadDir (Root config) (inr ([idA] ++ idB :: []))
           :: (read_of missing_B config <$> (List.filter validFullID [idA] ++ [idB]))) ∧
    Store_plugins w' = Store_plugins empty_world.
Proof.
  apply (reload_stops_at_first_failure missing_B config [] empty_world [idA] [] idB
           missing_B_error).
  - reflexivity.
  - intros v Hin Hv. loads Hin Hv.
  - vm_compute. reflexivity.
  - vm_compute. reflexivity.
Defined.

Lemma NewManager_error_provenance_witness :
  let w' := (exec_go missing_B [] Caller (NewManager missing_B config) empty_world).1 in
  ∃ evs last cause msg,
    since empty_world w' = evs ++ [(Caller, last)] ∧
    ((refused cause last ∧
      errors_Wrap missing_B_error "failed to restore plugins" = errors_Wrap cause msg) ∨
     (errors_Wrap missing_B_error "failed to restore plugins"
      = errors_Wrap (errors_Wrap cause msg) "failed to restore plugins" ∧
      ((last = EvReadDir (Root config) (inl cause) ∧
        msg = "failed to read " +:+ Root config) ∨
       (∃ path, last = EvReadFile path (inl cause) ∧ msg = "error reading " +:+ path) ∨
       (∃ path dt, last = EvReadFile path (inr dt) ∧
                   json_Unmarshal missing_B dt = inl cause ∧
                   msg = "error decoding " +:+ path)))).
Proof.
  apply (NewManager_error_provenance missing_B config [] empty_world
           (errors_Wrap missing_B_error "failed to restore plugins")).
  vm_compute. reflexivity.
Defined.

Lemma reload_recovers_each_record_witness :
  let w' := (exec_go reattach_fails [1; 0; 0; 1]%nat Caller
               (reload reattach_fails config) empty_world).1 in
  ∃ m, (Caller, EvSetAll m) ∈ since empty_world w' ∧
    ∀ id p, m !! id = Some p →
      ∃ entry v c rec,
        entry ∈ [idA; "tmp"; idB] ∧ validFullID entry = true ∧
        config_json reattach_fails config entry = inr v ∧ v2.GetID v = id ∧
        cMap w' !! p = Some c ∧ plugin_objs w' !! p = Some rec ∧
        task_result reattach_fails config c p v
          (own_events (Recovery p) (since empty_world w')) rec.
Proof.
  apply (reload_recovers_each_record reattach_fails config [1; 0; 0; 1]%nat empty_world
           [idA; "tmp"; idB]).
  - reflexivity.
  - intros v Hin Hv. loads Hin Hv.
Defined.

Lemma reload_leaves_SetAll_index_witness :
  let w' := (exec_go reattach_fails [1; 0; 0; 1]%nat Caller
               (reload reattach_fails config) empty_world).1 in
  ∃ m, (Caller, EvSetAll m) ∈ since empty_world w' ∧
       Store_plugins w' = m ∧
       dom m = list_to_set (loaded_ids reattach_fails config [idA; "tmp"; idB]).
Proof.
  apply (reload_leaves_SetAll_index reattach_fails config [1; 0; 0; 1]%nat empty_world
           [idA; "tmp"; idB]).
  - reflexivity.
  - intros v Hin Hv. loads Hin Hv.
Defined.

Lemma reload_tracks_every_record_witness :
  let w' := (exec_go reattach_fails [1; 0; 0; 1]%nat Caller
               (reload reattach_fails config) empty_world).1 in
  (∀ id p, Store_plugins w' !! id = Some p → is_Some (cMap w' !! p)) ∧
  (∀ p, (∀ id, Store_plugins w' !! id ≠ Some p) → cMap w' !! p = cMap empty_world !! p) ∧
  controllers empty_world ⊆ controllers w' ∧ closed w' = closed empty_world ∧
  mu_readers w' = mu_readers empty_world.
Proof.
  apply (reload_tracks_every_record reattach_fails config [1; 0; 0; 1]%nat empty_world
           [idA; "tmp"; idB]).
  - reflexivity.
  - intros v Hin Hv. loads Hin Hv.
Defined.

Lemma reload_enable_calls_witness :
  let w' := (exec_go reattach_fails [1; 0; 0; 1]%nat Caller
               (reload reattach_fails config) empty_world).1 in
  (∀ t p c force r, (t, EvPmEnable p c force r) ∈ since empty_world w' →
     t = Recovery p ∧ force = true ∧ LiveRestoreEnabled config = false ∧
     cMap w' !! p = Some c ∧
     (∃ id, Store_plugins w' !! id = Some p) ∧
     (∃ rec, plugin_objs w' !! p = Some rec ∧ v2.IsEnabled rec = true) ∧
     ∃ before after,
       since empty_world w' = before ++ (Recovery p, EvUpdate p) :: after ∧
       (t, EvPmEnable p c force r) ∈ after ∧
       ∀ t' c' force' r', (t', EvPmEnable p c' force' r') ∉ before) ∧
  (∀ t p r, (t, EvPmRestore p r) ∈ since empty_world w' →
     t = Recovery p ∧
     (∃ id, Store_plugins w' !! id = Some p) ∧
     (∃ rec, plugin_objs w' !! p = Some rec ∧ v2.IsEnabled rec = true)).
Proof.
  apply (reload_enable_calls reattach_fails config [1; 0; 0; 1]%nat empty_world
           [idA; "tmp"; idB]).
  - reflexivity.
  - intros v Hin Hv. loads Hin Hv.
Defined.

Lemma NewManager_result_ignores_recovery_witness :
  (exec_go reattach_fails [1; 0; 0; 1]%nat Caller
     (NewManager reattach_fails config) empty_world).2
  = (exec_go both_recover [] Caller (NewManager both_recover config) empty_world).2.
Proof.
  apply (NewManager_result_ignores_recovery reattach_fails both_recover config);
    reflexivity.
Defined.

Lemma NewManager_then_exit_witness :
  let w' := (exec_go only_B [] Caller (NewManager only_B config) empty_world).1 in
  (∀ p, is_Some (cMap w' !! p) ↔ ∃ id', Store_plugins w' !! id' = Some p) ∧
  (StateInfo_State exit = StateExit → is_Some (Store_plugins w' !! idB) →
   (run only_B Caller (StateChanged idB exit) w').2 ≠ Panicked nil_pointer_dereference).
Proof.
  apply (NewManager_then_exit only_B config [] empty_world idB exit).
  vm_compute. reflexivity.
Defined.

(** The claim C3 on a record none of whose capabilities meets the three
    conditions and whose [config.json] carries a [PropagatedMount]: the
    record is loaded and published, its task creates no directory and
    writes no [PropagatedMount], and the [PropagatedMount] of the record
    is not empty: it is as loaded. *)
Lemma loaded_PropagatedMount_is_not_emptied :
  let r := exec_go stale_mount [] Caller (NewManager stale_mount config) empty_world in
  config_json stale_mount config idB = inr recordC ∧
  (∀ typ, typ ∈ declared_types recordC → ¬ qualifies typ) ∧
  r.2 = Returned None ∧
  Store_plugins r.1 !! idB = Some 1%positive ∧
  (Recovery 1%positive, EvUpdate 1%positive) ∈ since empty_world r.1 ∧
  (¬ ∃ path perm e, (Recovery 1%positive, EvMkdirAll path perm e) ∈ since empty_world r.1) ∧
  (¬ ∃ t q path, (t, EvSetPropagatedMount q path) ∈ since empty_world r.1) ∧
  v2.PropagatedMount (deref r.1 1%positive) = "/stale/mnt" ∧
  v2.PropagatedMount (deref r.1 1%positive) ≠ "".
Proof.
  split; [vm_compute; done|]. split.
  { intros typ Hin. apply list_elem_of_singleton in Hin as ->.
    intros [[Hcap|Hcap] _]; discriminate Hcap. }
  vm_compute. split; [done|]. split; [done|]. split; [repeat constructor|].
  split; [intros (path & perm & e & H); not_listed H|].
  split; [intros (t & q & path & H); not_listed H|].
  split; [done|]. discriminate.
Qed.

(** The scenario of the spec with two records, of which the reattach of
    the first fails, under a schedule that interleaves the two tasks: the
    record of the first is as loaded, the record of the second is
    published, and each has its own Controller. *)
Example two_records_under_a_schedule :
  let w' := (exec_go reattach_fails [1; 0; 0; 1]%nat Caller
               (NewManager reattach_fails config) empty_world).1 in
  plugin_objs w' !! 1%positive = Some recordA ∧
  plugin_objs w' !! 2%positive = Some recordB ∧
  cMap w' !! 1%positive = Some 2%positive ∧ cMap w' !! 2%positive = Some 1%positive ∧
  own_events (Recovery 1%positive) (since empty_world w')
  = [EvRestore 1%positive "/run/plugins";
     EvPmRestore 1%positive (Some (errors_New "reattach failed"));
     EvLog ErrorLevel "failed to restore plugin '%s': %s"
       [ArgStr (v2.Name recordA); ArgErr (errors_New "reattach failed")];
     EvWgDone].
Proof. vm_compute. done. Qed.
End Scenarios_more.

(** ** The reference store on concrete scenarios *)

Section Refstore_scenarios.
Import refstore refstore_spec refstore_scenario.

Lemma familiar_laws :
  familiar_idempotent (Named := string) ∧ tag_only_names (Named := string) ∧
  key_tells_repo (Named := string).
Proof.
  split; [done|]. split.
  - intros ref Href. cbn in *. by rewrite Href.
  - intros ref ref' Hk. unfold key_of, repo_of in *. cbn in *. by rewrite Hk.
Qed.

Lemma disk_round_trip (rs : option (gmap string repository)) (data : string) :
  json_Marshal disk rs = inr data → json_Decode disk data = inr (decoded_store rs).
Proof.
  cbn. destruct (decide (rs = no_tags)) as [->|_]; [by intros [= <-]|].
  destruct (decide (rs = ubuntu_latest)) as [->|_]; [by intros [= <-]|done].
Qed.

Lemma coherent_one_tag : coherent one_tag.
Proof.
  assert (one_tag = (addReference disk "ubuntu:latest" "sha256:aa" false fresh ∅).1.1)
    as -> by (vm_compute; reflexivity).
  apply addReference_coherent; [apply familiar_laws|apply coherent_empty].
Qed.

Lemma Get_after_AddTag_witness : Get "ubuntu" one_tag = inr "sha256:aa".
Proof.
  apply (Get_after_AddTag disk "ubuntu" "sha256:aa" false fresh one_tag ∅ one_tag_file).
  - apply familiar_laws.
  - apply familiar_laws.
  - vm_compute. reflexivity.
Defined.

Lemma AddTag_without_force_keeps_tag_witness :
  ∃ err, AddTag disk "ubuntu" "sha256:bb" false one_tag one_tag_file
         = (one_tag, one_tag_file, Done (Some err)).
Proof.
  apply (AddTag_without_force_keeps_tag disk "ubuntu" "sha256:bb" "sha256:aa"
           one_tag one_tag_file).
  - apply familiar_laws.
  - apply familiar_laws.
  - vm_compute. reflexivity.
Defined.

Lemma AddTag_with_force_replaces_witness :
  (∃ s', AddTag disk "ubuntu" "sha256:bb" true one_tag one_tag_file
         = (s', (save disk s' one_tag_file).1, Done (save disk s' one_tag_file).2) ∧
         Get "ubuntu" s' = inr "sha256:bb" ∧
         reference.EnsureTagged "ubuntu" ∈ References "sha256:bb" s' ∧
         ("sha256:aa" ≠ "sha256:bb" →
            cached s' "sha256:aa" (key_of (reference.EnsureTagged "ubuntu")) = None ∧
            ∀ r, r ∈ References "sha256:aa" s' → r ∈ References "sha256:aa" one_tag)) ∧
  Get "sha256" named_sha256 = inr "sha256:aa" ∧
  AddTag disk "sha256" "sha256:bb" true named_sha256 ∅
  = (named_sha256, ∅,
     Done (Some (errors_New
       "refusing to create an ambiguous tag using digest algorithm as name"))).
Proof.
  assert (Get "ubuntu" one_tag = inr "sha256:aa") as Hubuntu by (vm_compute; reflexivity).
  assert (Get "sha256" named_sha256 = inr "sha256:aa") as Hsha by (vm_compute; reflexivity).
  split; [|split].
  - exact (AddTag_with_force_replaces disk "ubuntu" "sha256:bb" "sha256:aa"
             one_tag one_tag_file (proj1 familiar_laws) (proj1 (proj2 familiar_laws))
             eq_refl eq_refl Hubuntu).
  - exact Hsha.
  - exact (AddTag_with_force_replaces disk "sha256" "sha256:bb" "sha256:aa"
             named_sha256 ∅ (proj1 familiar_laws) (proj1 (proj2 familiar_laws))
             eq_refl eq_refl Hsha).
Defined.

Lemma AddDigest_never_overwrites_witness :
  AddDigest disk "ubuntu@sha256:cc" "sha256:bb" true one_digest ∅
  = (one_digest, ∅, Done (Some (errors_New "Cannot overwrite digest sha256:cc"))) ∧
  AddDigest disk "sha256@sha256:cc" "sha256:bb" true named_sha256 ∅
  = (named_sha256, ∅,
     Done (Some (errors_New
       "refusing to create an ambiguous tag using digest algorithm as name"))).
Proof.
  assert (tagged one_digest (repo_of "ubuntu@sha256:cc") (key_of "ubuntu@sha256:cc")
          = Some "sha256:aa") as Hubuntu by (vm_compute; reflexivity).
  assert (tagged named_sha256 (repo_of "sha256@sha256:cc") (key_of "sha256@sha256:cc")
          = Some "sha256:aa") as Hsha by (vm_compute; reflexivity).
  split.
  - exact (AddDigest_never_overwrites disk "ubuntu@sha256:cc" "sha256:cc" "sha256:bb"
             "sha256:aa" true one_digest ∅ eq_refl Hubuntu).
  - exact (AddDigest_never_overwrites disk "sha256@sha256:cc" "sha256:cc" "sha256:bb"
             "sha256:aa" true named_sha256 ∅ eq_refl Hsha).
Defined.

Lemma AddTag_save_failure_keeps_tag_witness :
  (∅ : FS) = ∅ ∧
  (save full_disk one_tag ∅).2 = Some (os_error "no space left on device" false) ∧
  Get "ubuntu" one_tag = inr "sha256:aa".
Proof.
  apply (AddTag_save_failure_keeps_tag full_disk "ubuntu" "sha256:aa" false
           fresh one_tag ∅ ∅ (os_error "no space left on device" false)).
  - apply familiar_laws.
  - apply familiar_laws.
  - vm_compute. reflexivity.
  - intros Heq. apply (f_equal (Get "ubuntu")) in Heq. vm_compute in Heq. discriminate Heq.
Defined.

Lemma Delete_deletes_what_Get_finds_witness :
  ∃ s', Delete disk "ubuntu" one_tag one_tag_file
        = (s', (save disk s' one_tag_file).1, (true, (save disk s' one_tag_file).2)) ∧
        Get "ubuntu" s' = inl ErrDoesNotExist ∧
        ∀ n k, ¬ (n = repo_of (tagged_or_same "ubuntu") ∧
                  k = key_of (tagged_or_same "ubuntu")) →
               tagged s' n k = tagged one_tag n k.
Proof.
  assert (Get "ubuntu" one_tag = inr "sha256:aa") as Hget by (vm_compute; reflexivity).
  pose proof (Delete_deletes_what_Get_finds disk "ubuntu" one_tag one_tag_file
                (proj1 familiar_laws)) as Hdelete.
  rewrite Hget in Hdelete. exact Hdelete.
Defined.

Lemma coherent_kept_witness :
  (∀ ref id force, coherent (AddTag disk ref id force fresh ∅).1.1) ∧
  (∀ ref id force, coherent (AddDigest disk ref id force fresh ∅).1.1) ∧
  (∀ ref, coherent (Delete disk ref fresh ∅).1.1).
Proof.
  apply (coherent_kept disk fresh ∅).
  - apply familiar_laws.
  - apply coherent_empty.
Defined.

Lemma References_are_the_tags_witness :
  (∀ r, r ∈ References "sha256:aa" one_tag →
        tagged one_tag (repo_of r) (key_of r) = Some "sha256:aa") ∧
  (∀ name k, tagged one_tag name k = Some "sha256:aa" →
     ∃ r, r ∈ References "sha256:aa" one_tag ∧ repo_of r = name ∧ key_of r = k).
Proof.
  apply (References_are_the_tags one_tag "sha256:aa").
  apply coherent_one_tag.
Defined.

Lemma tags_survive_restart_witness :
  ∃ s3, NewReferenceStore disk "repositories.json" one_tag_file
        = (one_tag_file, Done (inr s3)) ∧
        jsonPath s3 = jsonPath one_tag ∧ Repositories s3 = Repositories one_tag ∧
        ∀ r, Get r s3 = Get r one_tag.
Proof.
  apply (tags_survive_restart disk "repositories.json" ∅ fresh_file one_tag_file
           fresh one_tag "ubuntu" "sha256:aa" false).
  - apply disk_round_trip.
  - vm_compute. reflexivity.
  - vm_compute. reflexivity.
  - reflexivity.
Defined.

Lemma NewReferenceStore_fills_cache_witness :
  cached one_tag "sha256:aa" "ubuntu:latest" = Some "ubuntu:latest" ↔
  reference.NormalizedName "ubuntu:latest" = Some "ubuntu:latest" ∧
  ∃ name, tagged one_tag name "ubuntu:latest" = Some "sha256:aa".
Proof.
  apply (NewReferenceStore_fills_cache disk "repositories.json" one_tag_file one_tag_file
           one_tag).
  vm_compute. reflexivity.
Defined.

Lemma nil_Repositories_panics_on_AddTag_witness :
  (∀ ref, Get ref null_Repositories = inl ErrDoesNotExist) ∧
  (∀ ref, Delete disk ref null_Repositories ∅
          = (null_Repositories, ∅, (false, Some ErrDoesNotExist))) ∧
  (∀ ref, ReferencesByName ref null_Repositories = []) ∧
  (∀ ref id force,
     reference.Canonical ref = None →
     repo_of (reference.EnsureTagged ref) ≠ reference.digest_Canonical →
     AddTag disk ref id force null_Repositories ∅
     = (null_Repositories, ∅, Panic assignment_to_entry_in_nil_map)).
Proof.
  apply (nil_Repositories_panics_on_AddTag disk null_Repositories ∅).
  reflexivity.
Defined.

Lemma ReferencesByName_all_or_nothing_witness :
  StronglySorted (λ x y, lexical (reference.String (Ref x)) (reference.String (Ref y)))
    (ReferencesByName "ubuntu" one_tag) ∧
  (∀ a, a ∈ ReferencesByName "ubuntu" one_tag ↔
        ∃ k, tagged one_tag (repo_of "ubuntu") k = Some (ImageID a) ∧
             reference.NormalizedName k = Some (Ref a)) ∧
  (∀ repo, Repositories_index one_tag (repo_of "ubuntu") = Some (Some repo) →
     length (ReferencesByName "ubuntu" one_tag) = size repo).
Proof.
  apply (ReferencesByName_all_or_nothing "ubuntu" one_tag).
  intros k i Htag. apply tagged_Some in Htag as (rs & repo & Hrs & Hrepo & Hk).
  injection Hrs as <-. change (repo_of "ubuntu") with "ubuntu" in Hrepo.
  rewrite lookup_singleton_eq in Hrepo. injection Hrepo as <-.
  destruct (decide (k = "ubuntu:latest")) as [->|Hne]; [by eexists|].
  by rewrite lookup_singleton_ne in Hk.
Defined.
End Refstore_scenarios.
